(** * removepii.py: the detection-and-redaction pipeline

    A shallow embedding of [src/removepii.py] and the properties of its
    specification.

    Conventions of the embedding.
    - A Python [str] is a [text]: the list of its characters, a character being
      an [ascii] read as a code point below 256 (Latin-1).  On that range the
      classes of Python's [re] and of [str.strip]/[str.lower] are exactly the
      ones written below.
    - [re] is embedded by a backtracking matcher in continuation-passing style
      that tries the alternatives in the order the [sre] engine does: the first
      branch of [|] first, the longest repetition first.
    - A Python [set] of strings is a duplicate-free list; the order in which a
      [for] loop visits it is an unknown permutation of that list.
    - An exception is a value [Err e] of [result].
    - Code that prints or writes files is a function on a [world], which holds
      the lines printed and the calls that can change files; what the outside
      answers (the readers, whether the standard output takes a line, whether
      a file can be opened and written) is a variable of the section. *)

From Stdlib Require Import Ascii String Bool Arith NArith Lia.
From Stdlib Require Import List Permutation.
From Stdlib Require Import DecimalString.
Import ListNotations.

Local Open Scope list_scope.
Local Open Scope bool_scope.

(** ** Texts *)

Definition text := list ascii.

Definition py (s : string) : text := list_ascii_of_string s.

Definition code (c : ascii) : N := N_of_ascii c.

Definition in_range (lo hi : N) (c : ascii) : bool :=
  (N.leb lo (code c) && N.leb (code c) hi)%bool.

Definition is_char (a : ascii) (c : ascii) : bool := Ascii.eqb a c.

Fixpoint text_eqb (a b : text) : bool :=
  match a, b with
  | [], [] => true
  | x :: a', y :: b' => Ascii.eqb x y && text_eqb a' b'
  | _, _ => false
  end.

(** [p] is a prefix of [s] ([s.startswith(p)]). *)
Fixpoint starts_with (p s : text) : bool :=
  match p, s with
  | [], _ => true
  | x :: p', y :: s' => Ascii.eqb x y && starts_with p' s'
  | _ :: _, [] => false
  end.

(** [p in s] on strings: [p] occurs in [s] as a substring. *)
Fixpoint occurs_in (p s : text) : bool :=
  starts_with p s ||
  match s with
  | [] => false
  | _ :: s' => occurs_in p s'
  end.

(** ** Character classes of [re] on code points below 256 *)

(** [\d] *)
Definition is_digit (c : ascii) : bool := in_range 48 57 c.

(** [[a-zA-Z]] *)
Definition is_letter (c : ascii) : bool := in_range 65 90 c || in_range 97 122 c.

(** [\s], which is also the set [str.strip] removes: TAB..CR, FS..US, space,
    NEL and NBSP. *)
Definition is_space (c : ascii) : bool :=
  in_range 9 13 c || in_range 28 32 c || N.eqb (code c) 133 || N.eqb (code c) 160.

(** [.] without DOTALL *)
Definition is_dot (c : ascii) : bool := negb (N.eqb (code c) 10).

(** [[a-zA-Z0-9._%+-]] *)
Definition is_email_local (c : ascii) : bool :=
  is_letter c || is_digit c || is_char "." c || is_char "_" c ||
  is_char "%" c || is_char "+" c || is_char "-" c.

(** [[a-zA-Z0-9.-]] *)
Definition is_email_domain (c : ascii) : bool :=
  is_letter c || is_digit c || is_char "." c || is_char "-" c.

(** [[^ \n\r\t]] *)
Definition is_path_char (c : ascii) : bool :=
  negb (N.eqb (code c) 32 || N.eqb (code c) 10 || N.eqb (code c) 13 || N.eqb (code c) 9).

(** ** Regular expressions *)

(** The fragment of [re] the program uses.  Every repetition in the source is
    over a single character class, which is what [Rep] holds: [Rep p lo hi] is
    the greedy [p{lo,hi}], with [hi = None] for an open bound. *)
Inductive regex : Type :=
| Eps
| Cls (p : ascii -> bool)
| Seq (r1 r2 : regex)
| Alt (r1 r2 : regex)
| Rep (p : ascii -> bool) (lo : nat) (hi : option nat)
| NotAhead (r : regex).

Definition Chr (a : ascii) : regex := Cls (is_char a).

(** [r?] (greedy) *)
Definition Opt (r : regex) : regex := Alt r Eps.

Fixpoint Lit_str (s : text) : regex :=
  match s with
  | [] => Eps
  | c :: s' => Seq (Chr c) (Lit_str s')
  end.

Definition may_take (hi : option nat) : bool :=
  match hi with
  | None => true
  | Some 0 => false
  | Some (S _) => true
  end.

Definition dec_bound (hi : option nat) : option nat :=
  match hi with
  | None => None
  | Some n => Some (pred n)
  end.

(** Greedy repetition of a class: one more character first, then stop here. *)
Fixpoint rep (p : ascii -> bool) (lo : nat) (hi : option nat) (s : text)
    (k : text -> option text) : option text :=
  let stop := match lo with 0 => k s | S _ => None end in
  match s with
  | c :: s' =>
      if p c && may_take hi then
        match rep p (pred lo) (dec_bound hi) s' k with
        | Some r => Some r
        | None => stop
        end
      else stop
  | [] => stop
  end.

(** [exec r s k]: match [r] at the head of [s], then hand the rest of the text
    to [k]; the result is the first success in backtracking order. *)
Fixpoint exec (r : regex) (s : text) (k : text -> option text) : option text :=
  match r with
  | Eps => k s
  | Cls p =>
      match s with
      | c :: s' => if p c then k s' else None
      | [] => None
      end
  | Seq r1 r2 => exec r1 s (fun s' => exec r2 s' k)
  | Alt r1 r2 =>
      match exec r1 s k with
      | Some x => Some x
      | None => exec r2 s k
      end
  | Rep p lo hi => rep p lo hi s k
  | NotAhead r1 =>
      match exec r1 s (fun s' => Some s') with
      | Some _ => None
      | None => k s
      end
  end.

(** A match of [r] anchored at the head of [s]; the result is the text left
    after the match.  With [must_advance] an empty match is refused (the engine
    sets it after an empty match at the same position). *)
Definition match_at (r : regex) (must_advance : bool) (s : text) : option text :=
  exec r s (fun s' =>
    if must_advance && Nat.eqb (length s') (length s) then None else Some s').

Definition taken (s rest : text) : text := firstn (length s - length rest) s.

(** The pieces [re] cuts a text into: characters outside every match and the
    successive non-overlapping matches, leftmost first. *)
Inductive piece : Type :=
| Out (c : ascii)
| Hit (m : text).

(** [skip] counts the characters still covered by the match found last. *)
Fixpoint scan (r : regex) (s : text) (skip : nat) : list piece :=
  match s with
  | [] =>
      match skip with
      | 0 => match match_at r false [] with
             | Some _ => [Hit []]
             | None => []
             end
      | S _ => []
      end
  | c :: s' =>
      match skip with
      | S n => scan r s' n
      | 0 =>
          match match_at r false s with
          | None => Out c :: scan r s' 0
          | Some rest =>
              match taken s rest with
              | _ :: m' => Hit (taken s rest) :: scan r s' (length m')
              | [] =>
                  Hit [] ::
                  match match_at r true s with
                  | None => Out c :: scan r s' 0
                  | Some rest' =>
                      Hit (taken s rest') :: scan r s' (pred (length (taken s rest')))
                  end
              end
          end
      end
  end.

Definition hits (ps : list piece) : list text :=
  flat_map (fun p => match p with Out _ => [] | Hit m => [m] end) ps.

(** [pattern.findall(text)] read as the list of whole matches.  All patterns
    of the program wrap the whole expression in group 1, so [match[0]] of a
    tuple and the single group of a one-group pattern are the whole match. *)
Definition findall (r : regex) (s : text) : list text := hits (scan r s 0).

(** [re.sub(pattern, f, text)] with a function as replacement. *)
Definition sub (r : regex) (f : text -> text) (s : text) : text :=
  flat_map (fun p => match p with Out c => [c] | Hit m => f m end) (scan r s 0).

(** ** The patterns of [getIDInfo] ([re.VERBOSE]: blanks of the source are not
    part of the pattern) *)

(** [(\s|-|\.)] *)
Definition sep : regex := Alt (Cls is_space) (Alt (Chr "-") (Chr ".")).

Definition digits (n : nat) : regex := Rep is_digit n (Some n).

(** [(\d{3}|\(\d{3}\))?(\s|-|\.)?(\d{3})(\s|-|\.)(\d{4})(\s*(ext|x|ext.)\s*(\d{2,5}))?] *)
Definition phone_pattern : regex :=
  Seq (Opt (Alt (digits 3) (Seq (Chr "(") (Seq (digits 3) (Chr ")")))))
 (Seq (Opt sep)
 (Seq (digits 3)
 (Seq sep
 (Seq (digits 4)
      (Opt (Seq (Rep is_space 0 None)
           (Seq (Alt (Lit_str (py "ext"))
                (Alt (Chr "x")
                     (Seq (Lit_str (py "ext")) (Cls is_dot))))
           (Seq (Rep is_space 0 None)
                (Rep is_digit 2 (Some 5)))))))))).

(** [[a-zA-Z0-9._%+-]+@[a-zA-Z0-9.-]+\.[a-zA-Z]{2,4}] *)
Definition email_pattern : regex :=
  Seq (Rep is_email_local 1 None)
 (Seq (Chr "@")
 (Seq (Rep is_email_domain 1 None)
 (Seq (Chr ".")
      (Rep is_letter 2 (Some 4))))).

(** [(?!666|000|9\d{2})\d{3}-(?!00)\d{2}-(?!0{4})\d{4}] *)
Definition ssn_pattern : regex :=
  Seq (NotAhead (Alt (Lit_str (py "666"))
                (Alt (Lit_str (py "000"))
                     (Seq (Chr "9") (digits 2)))))
 (Seq (digits 3)
 (Seq (Chr "-")
 (Seq (NotAhead (Lit_str (py "00")))
 (Seq (digits 2)
 (Seq (Chr "-")
 (Seq (NotAhead (Rep (is_char "0") 4 (Some 4)))
      (digits 4))))))).

(** [([A-Za-z]:\\[^ \n\r\t]+|/[^ \n\r\t]+)] *)
Definition dir_pattern : regex :=
  Alt (Seq (Cls is_letter) (Seq (Chr ":") (Seq (Chr "\") (Rep is_path_char 1 None))))
      (Seq (Chr "/") (Rep is_path_char 1 None)).

(** ** String methods *)

(** The placeholder, [XXXXX]. *)
Definition placeholder : text := py "XXXXX".

(** Scan for [old] from the left; [skip] counts the characters of the
    occurrence found last that are still to be dropped. *)
Fixpoint replace_from (old new s : text) (skip : nat) : text :=
  match s with
  | [] => []
  | c :: s' =>
      match skip with
      | S n => replace_from old new s' n
      | 0 =>
          if starts_with old s
          then new ++ replace_from old new s' (pred (length old))
          else c :: replace_from old new s' 0
      end
  end.

(** [s.replace(old, new)]: every non-overlapping occurrence, leftmost first.
    An empty [old] matches before every character and at the end. *)
Definition str_replace (old new s : text) : text :=
  match old with
  | [] => new ++ flat_map (fun c => c :: new) s
  | _ :: _ => replace_from old new s 0
  end.

(** [s.split(c)] for a one-character separator: never an empty list. *)
Fixpoint str_split (c : ascii) (s : text) : list text :=
  match s with
  | [] => [[]]
  | x :: s' =>
      if Ascii.eqb x c then [] :: str_split c s'
      else match str_split c s' with
           | p :: ps => (x :: p) :: ps
           | [] => [[x]]
           end
  end.

(** [sep.join(parts)] *)
Fixpoint str_join (sep : text) (parts : list text) : text :=
  match parts with
  | [] => []
  | [p] => p
  | p :: ps => p ++ sep ++ str_join sep ps
  end.

(** [s.strip()] *)
Fixpoint lstrip (s : text) : text :=
  match s with
  | c :: s' => if is_space c then lstrip s' else s
  | [] => []
  end.

Definition strip (s : text) : text := rev (lstrip (rev (lstrip s))).

(** [s.lower()] on code points below 256: A-Z and the capitals of Latin-1
    (all of U+00C0..U+00DE but the multiplication sign) move up by 32. *)
Definition lower_char (c : ascii) : ascii :=
  if in_range 65 90 c || (in_range 192 222 c && negb (N.eqb (code c) 215))
  then ascii_of_N (code c + 32)
  else c.

Definition lower (s : text) : text := map lower_char s.

(** ** Path masking *)

(** [mask_directory(path)] *)
Definition mask_directory (path : text) : text :=
  let path := map (fun c => if Ascii.eqb c "\" then "/"%char else c) path in
  let parts := str_split "/" path in
  let parts :=
    if Nat.ltb 1 (length parts)
    then repeat placeholder (length parts - 1) ++ skipn (length parts - 1) parts
    else parts in
  str_join (py "/") parts.

(** [maskDirectories(text)] *)
Definition maskDirectories (t : text) : text := sub dir_pattern mask_directory t.

(** ** Sets of strings *)

Definition mem (x : text) (l : list text) : bool := existsb (text_eqb x) l.

Definition set_add (x : text) (l : list text) : list text :=
  if mem x l then l else l ++ [x].

(** [s.update(xs)] and [a.union(b)] *)
Definition set_update (l xs : list text) : list text :=
  fold_left (fun acc x => set_add x acc) xs l.

Definition set_union (a b : list text) : list text := set_update a b.

(** ** Structured identifiers *)

Definition patterns : list (string * regex) :=
  [("PHONE"%string, phone_pattern);
   ("EMAIL"%string, email_pattern);
   ("SSN"%string, ssn_pattern)].

Definition key_in (key : string) (types : list string) : bool :=
  existsb (String.eqb key) types.

(** [getIDInfo(text, types)] *)
Definition getIDInfo (t : text) (types : list string) : list text :=
  fold_left
    (fun pii kp => if key_in (fst kp) types then set_update pii (findall (snd kp) t) else pii)
    patterns [].

(** ** Named entities *)

(** What [nltk.ne_chunk] returns: an [nltk.Tree] whose children are
    [(word, tag)] pairs or trees again. *)
#[warning="-register-all"]
Inductive Tree : Type :=
| Leaf (word : text) (tag : string)
| Node (label : string) (children : list Tree).

Definition label (t : Tree) : string :=
  match t with
  | Leaf _ _ => EmptyString
  | Node l _ => l
  end.

(** [t.leaves()] *)
Fixpoint leaves (t : Tree) : list (text * string) :=
  match t with
  | Leaf w g => [(w, g)]
  | Node _ cs => flat_map leaves cs
  end.

(** [t.subtrees(filter)]: the tree itself first, then the subtrees of its
    children, left to right; a [(word, tag)] pair is not a tree. *)
Fixpoint subtrees (filter : Tree -> bool) (t : Tree) : list Tree :=
  match t with
  | Leaf _ _ => []
  | Node _ cs => (if filter t then [t] else []) ++ flat_map (subtrees filter) cs
  end.

(** [" ".join(word for word, _ in subtree.leaves())] *)
Definition entity_of (subtree : Tree) : text :=
  str_join (py " ") (map fst (leaves subtree)).

(** ** Exceptions *)

Inductive exn : Type :=
| OSError        (* [open] could not read the exclusion list *)
| NLTKError.     (* raised inside the NLTK calls *)

Inductive result (A : Type) : Type :=
| Ok (a : A)
| Err (e : exn).

Arguments Ok {A} a.
Arguments Err {A} e.

Definition raises {A : Type} (r : result A) : bool :=
  match r with
  | Ok _ => false
  | Err _ => true
  end.

(** [x or default] on an optional list: [None] and [[]] are both falsy. *)
Definition or_default (x : option (list string)) (default : list string) : list string :=
  match x with
  | None => default
  | Some [] => default
  | Some (c :: l) => c :: l
  end.

(** The loop [for pii in piiSet: cleaned = cleaned.replace(pii, "XXXXX")],
    visiting the strings in the order of the list. *)
Definition replace_all (order : list text) (t : text) : text :=
  fold_left (fun cleaned pii => str_replace pii placeholder cleaned) order t.

Section Pipeline.

(** The NLTK calls of [getNE]:
    [nltk.ne_chunk(nltk.pos_tag(nltk.word_tokenize(text)))], after
    [ensure_nltk_data()]. *)
Variable classify : text -> result Tree.

(** The lines [for line in file] yields on [exclusions.txt], or [None] when
    [open] fails. *)
Variable exclusions_file : option (list text).

(** The order in which a [for] loop visits a [set]. *)
Variable iter_order : list text -> list text.

Definition load_exclusions (lines : list text) : list text :=
  set_update [] (map (fun line => lower (strip line)) lines).

(** [getNE(text, piiNE)] *)
Definition getNE (t : text) (piiNE : list string) : result (list text) :=
  match classify t with
  | Err e => Err e
  | Ok ne =>
      match exclusions_file with
      | None => Err OSError
      | Some lines =>
          let exclusions := load_exclusions lines in
          Ok (fold_left
                (fun pii subtree =>
                   let entity := entity_of subtree in
                   if negb (mem (lower entity) exclusions)
                   then set_add entity pii
                   else pii)
                (subtrees (fun x => key_in (label x) piiNE) ne)
                [])
      end
  end.

(** [cleanString(text, verbose, piiNE, piiNums)]; the messages printed under
    [verbose] are not part of the result. *)
Definition cleanString (t : text) (verbose : bool)
    (piiNE piiNums : option (list string)) : result text :=
  let piiNE := or_default piiNE ["PERSON"; "ORGANIZATION"; "GPE"; "LOCATION"]%string in
  let piiNums := or_default piiNums ["PHONE"; "EMAIL"; "SSN"]%string in
  match getNE t piiNE with
  | Err e => Err e
  | Ok ne =>
      let piiSet := set_union ne (getIDInfo t piiNums) in
      let cleaned := replace_all (iter_order piiSet) t in
      Ok (maskDirectories cleaned)
  end.

End Pipeline.

(** ** Notions used to state the properties *)

(** Two strings overlap when an occurrence of one can share characters with an
    occurrence of the other: some non-empty suffix of [a] is a prefix of [b],
    or [b] is a prefix of a non-empty suffix of [a].  In particular [a]
    overlaps [b] when [b] is a substring of [a]. *)
Fixpoint overlaps (a b : text) : bool :=
  match a with
  | [] => false
  | _ :: a' => starts_with a b || starts_with b a || overlaps a' b
  end.

Definition independent (a b : text) : bool :=
  negb (overlaps a b) && negb (overlaps b a).

(** The strings of [l] overlap neither one another nor the placeholder. *)
Definition order_free (l : list text) : Prop :=
  (forall a, In a l -> independent a placeholder = true) /\
  (forall a b, In a l -> In b l -> a <> b -> independent a b = true).

(** The length of the shortest text a pattern can match. *)
Fixpoint min_len (r : regex) : nat :=
  match r with
  | Eps => 0
  | Cls _ => 1
  | Seq r1 r2 => min_len r1 + min_len r2
  | Alt r1 r2 => Nat.min (min_len r1) (min_len r2)
  | Rep _ lo _ => lo
  | NotAhead _ => 0
  end.

(** The text has neither a slash nor a backslash. *)
Definition slash_free (t : text) : Prop :=
  Forall (fun c => is_char "/" c = false /\ is_char "\" c = false) t.

(** The SSN policy in the words of the specification: area number not 666,
    not 000 and not in 900-999, group number not 00, serial number not 0000. *)
Definition ssn_policy (a b c d e f g h i : ascii) : bool :=
  negb (is_char "6" a && is_char "6" b && is_char "6" c) &&
  negb (is_char "0" a && is_char "0" b && is_char "0" c) &&
  negb (is_char "9" a) &&
  negb (is_char "0" d && is_char "0" e) &&
  negb (is_char "0" f && is_char "0" g && is_char "0" h && is_char "0" i).

(** A string of shape [###-##-####]. *)
Definition ssn_shape (a b c d e f g h i : ascii) : text :=
  [a; b; c; "-"; d; e; "-"; f; g; h; i]%char.















(** The strings a pattern matches in front of [rest]: the language of the
    pattern, a lookahead looking at what follows. *)
Fixpoint matches (r : regex) (m rest : text) : Prop :=
  match r with
  | Eps => m = []
  | Cls p => exists c, m = [c] /\ p c = true
  | Seq r1 r2 =>
      exists m1 m2, m = m1 ++ m2 /\ matches r1 m1 (m2 ++ rest) /\ matches r2 m2 rest
  | Alt r1 r2 => matches r1 m rest \/ matches r2 m rest
  | Rep p lo hi =>
      Forall (fun c => p c = true) m /\ lo <= length m /\
      match hi with Some h => length m <= h | None => True end
  | NotAhead r1 => m = [] /\ exec r1 rest (fun s' => Some s') = None
  end.

(** ** Files *)

(** [pathlib.Path(p).name] on a POSIX system: the last component of the path
    that is neither empty nor [.], or the empty string. *)
Definition path_name (p : text) : text :=
  last (filter (fun x => negb (text_eqb x []) && negb (text_eqb x (py ".")))
               (str_split "/" p)) [].

(** [s.rfind(c)], with [None] for -1. *)
Fixpoint rfind (c : ascii) (s : text) : option nat :=
  match s with
  | [] => None
  | x :: s' =>
      match rfind c s' with
      | Some i => Some (S i)
      | None => if Ascii.eqb x c then Some 0 else None
      end
  end.

(** [pathlib.Path(p).suffix], as Python 3.12 has it, the version the source
    names: the name from its last dot on, unless that dot is the first or the
    last character of the name. *)
Definition suffix (p : text) : text :=
  let name := path_name p in
  match rfind "." name with
  | Some i => if Nat.ltb 0 i && Nat.ltb i (length name - 1) then skipn i name else []
  | None => []
  end.

Inductive file_exn : Type :=
| ValueError (ext : text)   (* Unsupported file type *)
| ReadError                 (* raised while the file is opened, read or parsed *)
| OpenError                 (* [open(path, "w")] failed *)
| WriteError                (* [file.write] or the closing of the file failed *)
| PrintError                (* [print] could not write its line *)
| Raised (e : exn).         (* raised inside [getNE] *)

Inductive outcome (A : Type) : Type :=
| Done (a : A)
| Raise (e : file_exn).

Arguments Done {A} a.
Arguments Raise {A} e.

Definition of_read (r : option text) : outcome text :=
  match r with
  | Some t => Done t
  | None => Raise ReadError
  end.

(** An exception of [getNE] passes through its callers. *)
Definition of_result {A : Type} (r : result A) : outcome A :=
  match r with
  | Ok a => Done a
  | Err e => Raise (Raised e)
  end.

(** The calls of the program that can change files, in the order in which
    they are made. *)
Inductive file_op : Type :=
| Download                        (* [ensure_nltk_data()] was called: NLTK may
                                     store resources in its data directory *)
| Opened (path : text)            (* [open(path, "w")] returned: the file
                                     exists and is empty *)
| Wrote (path : text) (t : text). (* [file.write(t)] and the closing of the
                                     file returned: the file holds [t] *)

(** The lines the calls of [print] have written, and the calls that can
    change files. *)
Record world : Type := World {
  stdout : list text;
  file_ops : list file_op
}.

(** Code that prints, touches files and may raise. *)
Definition io (A : Type) : Type := world -> world * outcome A.

Definition ret {A : Type} (a : A) : io A := fun w => (w, Done a).

Definition raise {A : Type} (e : file_exn) : io A := fun w => (w, Raise e).

Definition lift {A : Type} (o : outcome A) : io A := fun w => (w, o).

Definition bind {A B : Type} (m : io A) (f : A -> io B) : io B :=
  fun w =>
    match m w with
    | (w', Done a) => f a w'
    | (w', Raise e) => (w', Raise e)
    end.

Declare Scope io_scope.
Delimit Scope io_scope with io.
Notation "x <- m ;; f" := (bind m (fun x => f))
  (at level 61, m at next level, right associativity) : io_scope.
Notation "m ;; f" := (bind m (fun _ => f))
  (at level 61, right associativity) : io_scope.

Definition log (op : file_op) : io unit :=
  fun w => (World (stdout w) (file_ops w ++ [op]), Done tt).

(** [if b: m] *)
Definition when (b : bool) (m : io unit) : io unit := if b then m else ret tt.

(** [str(n)] *)
Definition decimal (n : nat) : text :=
  list_ascii_of_string (NilEmpty.string_of_uint (Nat.to_uint n)).

Section Files.

Variable classify : text -> result Tree.
Variable exclusions_file : option (list text).
Variable iter_order : list text -> list text.

(** [open(filePath, encoding=encoding).read()] *)
Variable read_text : text -> text -> option text.

(** [pdfminer.high_level.extract_text(filePath)] *)
Variable pdf_text : text -> option text.

(** [BeautifulSoup(open(filePath, encoding=encoding), "html.parser").get_text()] *)
Variable html_text : text -> text -> option text.

(** Whether [print] succeeds on a line, after the lines already printed: it
    raises when the standard output is closed or cannot encode the line. *)
Variable stdout_takes : list text -> text -> bool.

(** Whether [open(path, "w")] succeeds. *)
Variable can_open : text -> bool.

(** Whether [file.write(text)] and the closing of the file succeed. *)
Variable can_write : text -> text -> bool.

(** [extract(filePath, encoding)] *)
Definition extract (filePath encoding : text) : outcome text :=
  let ext := suffix filePath in
  if mem ext [py ".txt"; py ".md"] then of_read (read_text filePath encoding)
  else if text_eqb ext (py ".pdf") then of_read (pdf_text filePath)
  else if mem ext [py ".html"; py ".htm"] then of_read (html_text filePath encoding)
  else Raise (ValueError ext).

(** [print(line)] *)
Definition print (line : text) : io unit :=
  fun w =>
    if stdout_takes (stdout w) line
    then (World (stdout w ++ [line]) (file_ops w), Done tt)
    else (w, Raise PrintError).

(** [writeFile(text, path)]: the file is opened, which creates or empties it,
    before anything is written. *)
Definition writeFile (t path : text) : io unit :=
  (if can_open path then
     log (Opened path) ;;
     if can_write path t then log (Wrote path t) else raise WriteError
   else raise OpenError)%io.

(** [cleanString(text, verbose, piiNE, piiNums)] with what it prints;
    [getNE] begins with [ensure_nltk_data()]. *)
Definition cleanString_io (t : text) (verbose : bool)
    (piiNE piiNums : option (list string)) : io text :=
  (let piiNE := or_default piiNE ["PERSON"; "ORGANIZATION"; "GPE"; "LOCATION"]%string in
   let piiNums := or_default piiNums ["PHONE"; "EMAIL"; "SSN"]%string in
   when verbose
     (print (py "Cleaning text: getting named entities and identifiable information...")) ;;
   log Download ;;
   match getNE classify exclusions_file t piiNE with
   | Err e => raise (Raised e)
   | Ok ne =>
       let piiSet := set_union ne (getIDInfo t piiNums) in
       when verbose (print (decimal (length piiSet) ++ py " PII strings found.")) ;;
       ret (maskDirectories (replace_all (iter_order piiSet) t))
   end)%io.

(** [cleanFile(filePath, outputPath, verbose, piiNE, piiNums)] *)
Definition cleanFile (filePath outputPath : text) (verbose : bool)
    (piiNE piiNums : option (list string)) : io unit :=
  (when verbose (print (py "Extracting text from " ++ filePath ++ py "...")) ;;
   t <- lift (extract filePath (py "utf-8")) ;;
   when verbose (print (py "Text extracted.")) ;;
   cleaned <- cleanString_io t verbose piiNE piiNums ;;
   when verbose (print (py "Writing clean text to " ++ outputPath ++ py ".")) ;;
   writeFile cleaned outputPath)%io.

End Files.

(** The file types [extract] reads. *)
Definition supported : list text :=
  [py ".txt"; py ".md"; py ".pdf"; py ".html"; py ".htm"].

(** * Properties *)

(** ** Texts and prefixes *)

Lemma text_eqb_eq (a b : text) : text_eqb a b = true <-> a = b.
Proof.
  revert b; induction a as [|x a IH]; intros [|y b]; simpl; split;
    try congruence; try discriminate.
  - intros H. apply andb_prop in H as [H1 H2].
    apply Ascii.eqb_eq in H1. apply IH in H2. congruence.
  - intros H. injection H as -> ->.
    rewrite Ascii.eqb_refl. simpl. now apply IH.
Qed.

Lemma text_eqb_refl (a : text) : text_eqb a a = true.
Proof. now apply text_eqb_eq. Qed.

Lemma starts_with_iff (p s : text) :
  starts_with p s = true <-> exists t, s = p ++ t.
Proof.
  revert s; induction p as [|x p IH]; intros s; simpl.
  - split; eauto.
  - destruct s as [|y s].
    + split; [discriminate | intros [t Ht]; discriminate].
    + rewrite andb_true_iff, Ascii.eqb_eq, IH. split.
      * intros [-> [t ->]]. now exists t.
      * intros [t Ht]. injection Ht as -> ->. eauto.
Qed.

Lemma starts_with_app (p t : text) : starts_with p (p ++ t) = true.
Proof. apply starts_with_iff. now exists t. Qed.

(** A prefix of [v ++ x] is a prefix of [v], or runs over the end of [v]. *)
Lemma starts_with_app_inv (u v x : text) :
  starts_with u (v ++ x) = true ->
  starts_with u v = true \/
  exists w, u = v ++ w /\ w <> [] /\ starts_with w x = true.
Proof.
  revert u; induction v as [|c v IH]; intros u H.
  - destruct u as [|d u]; [now left|]. right.
    exists (d :: u). repeat split; [discriminate | exact H].
  - destruct u as [|d u]; [now left|]. simpl in H |- *.
    apply andb_prop in H as [Hc H]. rewrite Hc. simpl.
    apply Ascii.eqb_eq in Hc. subst d.
    destruct (IH _ H) as [Hv | [w [-> [Hw Hx]]]]; [now left|].
    right. exists w. now repeat split.
Qed.

Lemma starts_with_app_l (u v x : text) :
  starts_with u v = true -> starts_with u (v ++ x) = true.
Proof.
  rewrite !starts_with_iff. intros [t ->]. exists (t ++ x). now rewrite app_assoc.
Qed.

(** ** Overlaps *)

(** An occurrence of [b] that begins inside [u] and is comparable with the
    rest of [u] makes [u] overlap [b]. *)
Lemma overlaps_intro (v w b : text) :
  w <> [] ->
  starts_with w b = true \/ starts_with b w = true ->
  overlaps (v ++ w) b = true.
Proof.
  intros Hw H. induction v as [|c v IH]; simpl.
  - destruct w as [|d w]; [congruence|].
    cbn [overlaps]. destruct H as [H | H]; rewrite H.
    + reflexivity.
    + now rewrite orb_true_r.
  - rewrite IH. apply orb_true_r.
Qed.

Lemma overlaps_nil_r (a : text) : a <> [] -> overlaps a [] = true.
Proof. destruct a; [congruence | reflexivity]. Qed.

Lemma independent_iff (a b : text) :
  independent a b = true <-> overlaps a b = false /\ overlaps b a = false.
Proof.
  unfold independent. rewrite andb_true_iff, !negb_true_iff. tauto.
Qed.

(** No occurrence of [p] begins inside [v] when [v] does not overlap [p]. *)
Lemma overlaps_no_hit (v p x : text) :
  overlaps v p = false -> v <> [] -> starts_with p (v ++ x) = false.
Proof.
  intros Ho Hv. destruct (starts_with p (v ++ x)) eqn:E; [|reflexivity].
  exfalso. apply starts_with_app_inv in E as [E | [w [-> [Hw E]]]].
  - assert (H : overlaps ([] ++ v) p = true)
      by (apply overlaps_intro; [exact Hv | now right]).
    simpl in H. congruence.
  - assert (H : overlaps ([] ++ v) (v ++ w) = true)
      by (apply overlaps_intro; [exact Hv | left; apply starts_with_app]).
    simpl in H. congruence.
Qed.

(** ** [str.replace] *)

Lemma replace_from_skip (old new u t : text) :
  replace_from old new (u ++ t) (length u) = replace_from old new t 0.
Proof. induction u as [|c u IH]; simpl; auto. Qed.

Lemma str_replace_nil (old new : text) :
  old <> [] -> str_replace old new [] = [].
Proof. destruct old; [congruence | reflexivity]. Qed.

Lemma str_replace_hit (old new t : text) :
  old <> [] -> str_replace old new (old ++ t) = new ++ str_replace old new t.
Proof.
  destruct old as [|c old]; [congruence|]. intros _.
  unfold str_replace. change ((c :: old) ++ t) with (c :: (old ++ t)).
  cbn [replace_from].
  change (c :: old ++ t) with ((c :: old) ++ t).
  rewrite starts_with_app. cbn [length pred].
  now rewrite replace_from_skip.
Qed.

Lemma str_replace_miss (old new : text) (c : ascii) (t : text) :
  old <> [] -> starts_with old (c :: t) = false ->
  str_replace old new (c :: t) = c :: str_replace old new t.
Proof.
  destruct old as [|d old]; [congruence|]. intros _ H.
  unfold str_replace. cbn [replace_from]. now rewrite H.
Qed.

(** Induction along the way [str.replace] reads a text. *)
Lemma str_replace_ind (old : text) (P : text -> Prop) :
  old <> [] ->
  P [] ->
  (forall t, P t -> P (old ++ t)) ->
  (forall c t, starts_with old (c :: t) = false -> P t -> P (c :: t)) ->
  forall t, P t.
Proof.
  intros Hold Hnil Hhit Hmiss t.
  remember (length t) as n eqn:Hn. revert t Hn.
  induction n as [n IH] using lt_wf_ind. intros t Hn.
  destruct t as [|c t]; [exact Hnil|].
  destruct (starts_with old (c :: t)) eqn:E.
  - apply starts_with_iff in E as [t' E]. rewrite E.
    apply Hhit. apply (IH (length t')); [|reflexivity].
    subst n. rewrite E, length_app.
    destruct old; [congruence | simpl; lia].
  - apply Hmiss; [exact E|]. apply (IH (length t)); [|reflexivity].
    subst n. simpl. lia.
Qed.

(** [str.replace] steps over a stretch no occurrence begins in. *)
Lemma str_replace_over (p new v x : text) :
  p <> [] -> overlaps v p = false ->
  str_replace p new (v ++ x) = v ++ str_replace p new x.
Proof.
  intros Hp. induction v as [|c v IH]; intros Ho; [reflexivity|].
  change ((c :: v) ++ x) with (c :: (v ++ x)).
  rewrite str_replace_miss; [|exact Hp|].
  - simpl. f_equal. apply IH. simpl in Ho.
    now apply orb_false_elim in Ho as [_ Ho].
  - change (c :: (v ++ x)) with ((c :: v) ++ x).
    now apply overlaps_no_hit.
Qed.

(** A string that does not overlap the replacement text and is found at the
    head of a replaced text was already there before the replacement. *)
Lemma str_replace_reflects_prefix (a new u : text) :
  a <> [] -> overlaps u new = false ->
  forall t v,
    starts_with u (v ++ str_replace a new t) = true ->
    starts_with u (v ++ t) = true.
Proof.
  intros Ha Hu t. pattern t. apply (str_replace_ind a); [exact Ha| | |]; clear t.
  - intros v. now rewrite str_replace_nil.
  - intros t _ v H. rewrite str_replace_hit in H by exact Ha.
    apply starts_with_app_inv in H as [H | [w [-> [Hw H]]]].
    + now apply starts_with_app_l.
    + exfalso. apply starts_with_app_inv in H as [H | [w' [-> [_ _]]]].
      * rewrite (overlaps_intro v w new Hw) in Hu; [discriminate | now left].
      * rewrite (overlaps_intro v (new ++ w') new Hw) in Hu; [discriminate|].
        right. apply starts_with_app.
  - intros c t Hmiss IH v H. rewrite str_replace_miss in H by assumption.
    change (v ++ c :: str_replace a new t)
      with (v ++ [c] ++ str_replace a new t) in H.
    rewrite app_assoc in H. apply IH in H.
    now rewrite <- app_assoc in H.
Qed.

(** ** Replacement order *)

Lemma occurs_in_overlaps (a b : text) :
  b <> [] -> occurs_in a b = true -> overlaps b a = true.
Proof.
  induction b as [|c b IH]; [congruence|]. intros _ H.
  cbn [occurs_in] in H. cbn [overlaps].
  apply orb_prop in H as [H | H].
  - rewrite H. now rewrite orb_true_r.
  - destruct b as [|d b].
    + simpl in H. rewrite orb_false_r in H.
      destruct a; [|discriminate]. reflexivity.
    + rewrite IH; [apply orb_true_r | discriminate | exact H].
Qed.

Lemma independent_not_substring (a b : text) :
  independent a b = true -> a <> b -> occurs_in a b = false.
Proof.
  intros Hi Hab. apply independent_iff in Hi as [_ Hba].
  destruct (occurs_in a b) eqn:E; [|reflexivity]. exfalso.
  destruct b as [|c b].
  - simpl in E. rewrite orb_false_r in E. destruct a; [congruence | discriminate].
  - rewrite occurs_in_overlaps in Hba; [discriminate | discriminate | exact E].
Qed.

Lemma independent_nonempty (a new : text) :
  independent a new = true -> new <> [] -> a <> [].
Proof.
  intros Hi Hn ->. apply independent_iff in Hi as [_ Hi].
  now rewrite overlaps_nil_r in Hi.
Qed.

(** One step of the commutation: the text begins with an occurrence of [a]. *)
Lemma str_replace_comm_hit (a b new t : text) :
  a <> [] -> b <> [] ->
  overlaps a b = false -> overlaps new b = false ->
  str_replace b new (str_replace a new t) = str_replace a new (str_replace b new t) ->
  str_replace b new (str_replace a new (a ++ t)) =
  str_replace a new (str_replace b new (a ++ t)).
Proof.
  intros Ha Hb Hab Hnb IH.
  rewrite (str_replace_hit a) by exact Ha.
  rewrite (str_replace_over b new new) by assumption.
  rewrite (str_replace_over b new a) by assumption.
  rewrite (str_replace_hit a) by exact Ha.
  now rewrite IH.
Qed.

(** One step of the commutation: the text begins with an occurrence of
    neither string. *)
Lemma str_replace_miss_after (a b new : text) (c : ascii) (t : text) :
  a <> [] -> b <> [] -> overlaps b new = false ->
  starts_with a (c :: t) = false -> starts_with b (c :: t) = false ->
  str_replace b new (str_replace a new (c :: t)) =
  c :: str_replace b new (str_replace a new t).
Proof.
  intros Ha Hb Hbn Hma Hmb.
  rewrite (str_replace_miss a) by assumption.
  apply str_replace_miss; [exact Hb|].
  destruct (starts_with b (c :: str_replace a new t)) eqn:E; [|reflexivity].
  apply (str_replace_reflects_prefix a new b Ha Hbn t [c]) in E.
  simpl in E, Hmb. congruence.
Qed.

(** Replacing two strings that overlap neither each other nor the replacement
    text gives the same text in both orders. *)
Lemma str_replace_comm (a b new s : text) :
  a <> [] -> b <> [] ->
  independent a b = true -> independent a new = true -> independent b new = true ->
  str_replace b new (str_replace a new s) = str_replace a new (str_replace b new s).
Proof.
  intros Ha Hb Hab Han Hbn.
  apply independent_iff in Hab as [Hab Hba].
  apply independent_iff in Han as [Han Hna].
  apply independent_iff in Hbn as [Hbn Hnb].
  remember (length s) as n eqn:Hn. revert s Hn.
  induction n as [n IH] using lt_wf_ind. intros s Hn.
  destruct s as [|c s].
  - now rewrite !str_replace_nil.
  - destruct (starts_with a (c :: s)) eqn:Ea.
    + apply starts_with_iff in Ea as [t Et]. rewrite Et.
      apply str_replace_comm_hit; try assumption.
      apply (IH (length t)); [|reflexivity].
      subst n. rewrite Et, length_app. destruct a; [congruence | simpl; lia].
    + destruct (starts_with b (c :: s)) eqn:Eb.
      * apply starts_with_iff in Eb as [t Et]. rewrite Et. symmetry.
        apply str_replace_comm_hit; try assumption. symmetry.
        apply (IH (length t)); [|reflexivity].
        subst n. rewrite Et, length_app. destruct b; [congruence | simpl; lia].
      * rewrite (str_replace_miss_after a b), (str_replace_miss_after b a)
          by assumption.
        f_equal. apply (IH (length s)); [|reflexivity]. subst n. simpl. lia.
Qed.

Lemma replace_all_cons (p : text) (l : list text) (t : text) :
  replace_all (p :: l) t = replace_all l (str_replace p placeholder t).
Proof. reflexivity. Qed.

Lemma order_free_perm (l l' : list text) :
  Permutation l l' -> order_free l -> order_free l'.
Proof.
  intros Hp [H1 H2]. apply Permutation_sym in Hp. split.
  - intros a Ha. apply H1. eapply Permutation_in; eauto.
  - intros a b Ha Hb. apply H2; eapply Permutation_in; eauto.
Qed.

Lemma order_free_tail (x : text) (l : list text) :
  order_free (x :: l) -> order_free l.
Proof.
  intros [H1 H2]. split.
  - intros a Ha. apply H1. now right.
  - intros a b Ha Hb. apply H2; now right.
Qed.

Lemma replace_all_perm (l l' : list text) :
  Permutation l l' -> order_free l ->
  forall t, replace_all l t = replace_all l' t.
Proof.
  induction 1 as [|x l l' Hp IH|x y l|l l' l'' Hp1 IH1 Hp2 IH2]; intros Hf t.
  - reflexivity.
  - rewrite !replace_all_cons. apply IH. eapply order_free_tail; eauto.
  - rewrite !replace_all_cons. f_equal.
    destruct (list_eq_dec ascii_dec x y) as [->|Hxy]; [reflexivity|].
    destruct Hf as [H1 H2].
    assert (Hx : independent x placeholder = true) by (apply H1; simpl; auto).
    assert (Hy : independent y placeholder = true) by (apply H1; simpl; auto).
    apply str_replace_comm; try assumption.
    + apply (independent_nonempty _ _ Hy). discriminate.
    + apply (independent_nonempty _ _ Hx). discriminate.
    + apply H2; simpl; auto.
  - rewrite IH1 by exact Hf. apply IH2. eapply order_free_perm; eauto.
Qed.

(** ** The matcher *)

Lemma rep_sound (p : ascii -> bool) (k : text -> option text) (res : text) :
  forall s lo hi,
    rep p lo hi s k = Some res ->
    exists m s', s = m ++ s' /\ lo <= length m /\ k s' = Some res.
Proof.
  induction s as [|c s IH]; intros lo hi H.
  - destruct lo; [|discriminate]. exists [], []. auto.
  - cbn [rep] in H.
    assert (Hstop : match lo with 0 => k (c :: s) | S _ => None end = Some res ->
                    exists m s', c :: s = m ++ s' /\ lo <= length m /\ k s' = Some res).
    { destruct lo; [|discriminate]. intros Hk. exists [], (c :: s). auto. }
    destruct (p c && may_take hi); [|auto].
    destruct (rep p (pred lo) (dec_bound hi) s k) eqn:E; [|auto].
    injection H as ->. apply IH in E as [m [s' [-> [Hlo Hk]]]].
    exists (c :: m), s'. repeat split; [|exact Hk]. simpl. lia.
Qed.

(** Whatever [exec] answers was answered by the continuation on the text left
    after a match at least [min_len r] long. *)
Lemma exec_sound (r : regex) :
  forall s k res,
    exec r s k = Some res ->
    exists m s', s = m ++ s' /\ min_len r <= length m /\ k s' = Some res.
Proof.
  induction r as [|p|r1 IH1 r2 IH2|r1 IH1 r2 IH2|p lo hi|r IH];
    intros s k res H; cbn [exec min_len] in *.
  - exists [], s. auto.
  - destruct s as [|c s]; [discriminate|].
    destruct (p c); [|discriminate]. exists [c], s. auto.
  - apply IH1 in H as [m1 [s1 [-> [H1 H]]]].
    apply IH2 in H as [m2 [s2 [-> [H2 H]]]].
    exists (m1 ++ m2), s2. rewrite length_app, app_assoc.
    repeat split; [lia | exact H].
  - destruct (exec r1 s k) eqn:E.
    + injection H as ->. apply IH1 in E as [m [s' [-> [H1 H]]]].
      exists m, s'. repeat split; [lia | exact H].
    + apply IH2 in H as [m [s' [-> [H2 H]]]].
      exists m, s'. repeat split; [lia | exact H].
  - exact (rep_sound p k res s lo hi H).
  - destruct (exec r s (fun s' => Some s')); [discriminate|].
    exists [], s. repeat split; [simpl; lia | exact H].
Qed.

Lemma taken_app (m rest : text) : taken (m ++ rest) rest = m.
Proof.
  unfold taken. rewrite length_app.
  replace (length m + length rest - length rest) with (length m) by lia.
  rewrite firstn_app, firstn_all, Nat.sub_diag. simpl. apply app_nil_r.
Qed.

Lemma match_at_sound (r : regex) (adv : bool) (s rest : text) :
  match_at r adv s = Some rest ->
  exists m, s = m ++ rest /\ taken s rest = m /\ min_len r <= length m /\
            (adv = true -> m <> []).
Proof.
  unfold match_at. intros H.
  apply exec_sound in H as [m [s' [-> [Hm H]]]].
  destruct (adv && Nat.eqb (length s') (length (m ++ s'))) eqn:E; [discriminate|].
  injection H as <-. exists m. repeat split; auto using taken_app.
  intros -> ->. simpl in E. now rewrite Nat.eqb_refl in E.
Qed.

Lemma match_at_short (r : regex) (adv : bool) (s : text) :
  length s < min_len r -> match_at r adv s = None.
Proof.
  intros Hs. destruct (match_at r adv s) eqn:E; [|reflexivity].
  apply match_at_sound in E as [m [-> [_ [Hm _]]]].
  rewrite length_app in Hs. lia.
Qed.

(** ** Scanning *)

Lemma scan_skip (r : regex) (u t : text) :
  scan r (u ++ t) (length u) = scan r t 0.
Proof. induction u as [|c u IH]; simpl; auto. Qed.

(** A non-empty match at the head of the text is the first piece. *)
Lemma scan_hit (r : regex) (m rest : text) :
  m <> [] -> match_at r false (m ++ rest) = Some rest ->
  scan r (m ++ rest) 0 = Hit m :: scan r rest 0.
Proof.
  destruct m as [|c m]; [congruence|]. intros _ H.
  change ((c :: m) ++ rest) with (c :: (m ++ rest)) in *.
  cbn [scan]. rewrite H.
  change (c :: (m ++ rest)) with ((c :: m) ++ rest).
  rewrite taken_app. now rewrite scan_skip.
Qed.

Lemma scan_miss (r : regex) (c : ascii) (s : text) :
  match_at r false (c :: s) = None ->
  scan r (c :: s) 0 = Out c :: scan r s 0.
Proof. intros H. cbn [scan]. now rewrite H. Qed.

(** A text shorter than every match is cut into its characters. *)
Lemma scan_short (r : regex) (s : text) :
  length s < min_len r -> scan r s 0 = map Out s.
Proof.
  induction s as [|c s IH]; intros Hs.
  - cbn [scan]. now rewrite match_at_short.
  - rewrite scan_miss by now apply match_at_short.
    simpl. f_equal. apply IH. simpl in Hs. lia.
Qed.

(** Every match reported is at least [min_len r] long. *)
Lemma scan_hits_len (r : regex) (m : text) :
  forall s skip, In m (hits (scan r s skip)) -> min_len r <= length m.
Proof.
  induction s as [|c s IH]; intros skip H.
  - cbn [scan] in H. destruct skip; [|contradiction].
    destruct (match_at r false []) eqn:E; [|contradiction].
    simpl in H. destruct H as [<-|[]].
    apply match_at_sound in E as [m' [E' [_ [Hm _]]]].
    destruct m'; [exact Hm | discriminate].
  - cbn [scan] in H. destruct skip; [|eauto].
    destruct (match_at r false (c :: s)) as [rest|] eqn:E; [|simpl in H; eauto].
    apply match_at_sound in E as [m' [_ [Ht [Hm _]]]].
    destruct (taken (c :: s) rest) as [|x m0] eqn:Et.
    + simpl in H. destruct H as [<-|H]; [now subst m'|].
      destruct (match_at r true (c :: s)) as [rest'|] eqn:E'; [|simpl in H; eauto].
      apply match_at_sound in E' as [m1 [_ [Ht' [Hm1 _]]]].
      simpl in H. destruct H as [<-|H]; [now rewrite Ht'|eauto].
    + simpl in H. destruct H as [<-|H]; [now rewrite Ht|eauto].
Qed.

Lemma findall_len (r : regex) (s m : text) :
  In m (findall r s) -> min_len r <= length m.
Proof. apply scan_hits_len. Qed.

(** Without a match, [re.sub] returns the text as it is. *)
Lemma scan_no_hits (r : regex) (f : text -> text) :
  forall s skip,
    hits (scan r s skip) = [] ->
    flat_map (fun p => match p with Out c => [c] | Hit m => f m end) (scan r s skip)
    = skipn skip s.
Proof.
  induction s as [|c s IH]; intros skip H.
  - cbn [scan] in *. destruct skip; [|reflexivity].
    destruct (match_at r false []); [discriminate | reflexivity].
  - cbn [scan] in *. destruct skip; [|now apply IH].
    destruct (match_at r false (c :: s)) as [rest|].
    + destruct (taken (c :: s) rest); discriminate.
    + simpl in *. f_equal. now apply (IH 0).
Qed.

Lemma sub_no_hits (r : regex) (f : text -> text) (s : text) :
  findall r s = [] -> sub r f s = s.
Proof. intros H. unfold sub. now rewrite scan_no_hits. Qed.

(** ** The path pattern *)

(** The longest repetition is tried first: when the continuation accepts the
    text left after the whole run, that is the answer. *)
Lemma rep_greedy (p : ascii -> bool) (k : text -> option text) (rest res : text) :
  (rest = [] \/ exists c rest', rest = c :: rest' /\ p c = false) ->
  k rest = Some res ->
  forall run lo,
    Forall (fun c => p c = true) run -> lo <= length run ->
    rep p lo None (run ++ rest) k = Some res.
Proof.
  intros Hrest Hk. induction run as [|c run IH]; intros lo Hrun Hlo.
  - simpl in Hlo. assert (lo = 0) as -> by lia. simpl.
    destruct Hrest as [-> | [c [rest' [-> Hc]]]]; [exact Hk|].
    cbn [rep]. now rewrite Hc.
  - inversion Hrun as [|? ? Hc Hrun']; subst.
    change ((c :: run) ++ rest) with (c :: (run ++ rest)).
    cbn [rep]. rewrite Hc. cbn [may_take andb dec_bound].
    rewrite IH; [reflexivity | exact Hrun' | simpl in Hlo; lia].
Qed.

(** A slash followed by a run of path characters is matched up to the end of
    the run. *)
Lemma dir_pattern_slash (run rest : text) :
  run <> [] ->
  Forall (fun c => is_path_char c = true) run ->
  (rest = [] \/ exists c rest', rest = c :: rest' /\ is_path_char c = false) ->
  match_at dir_pattern false (("/"%char :: run) ++ rest) = Some rest.
Proof.
  intros Hne Hrun Hrest. unfold match_at, dir_pattern.
  change (("/"%char :: run) ++ rest) with ("/"%char :: (run ++ rest)).
  cbn [exec Chr]. change (is_letter "/") with false.
  change (is_char "/" "/") with true. cbv iota.
  apply rep_greedy; try assumption; [reflexivity|].
  destruct run; [congruence | simpl; lia].
Qed.

(** No path begins at a character that is not a slash and is not followed by
    a colon and a backslash. *)
Lemma dir_pattern_miss (adv : bool) (c : ascii) (pre x : text) :
  is_char "/" c = false ->
  slash_free pre ->
  (x = [] \/ exists x', x = "/"%char :: x') ->
  match_at dir_pattern adv (c :: pre ++ x) = None.
Proof.
  intros Hc Hpre Hx. unfold match_at, dir_pattern. cbn [exec Chr].
  rewrite Hc.
  destruct (is_letter c); [|reflexivity].
  destruct pre as [|c2 pre]; cbn [app].
  - destruct Hx as [-> | [x' ->]]; reflexivity.
  - destruct (is_char ":" c2); [|reflexivity].
    destruct pre as [|c3 pre]; cbn [app].
    + destruct Hx as [-> | [x' ->]]; reflexivity.
    + inversion Hpre as [|? ? _ Hpre']; subst.
      inversion Hpre' as [|? ? [_ H3] _]; subst.
      now rewrite H3.
Qed.

Lemma scan_dir_prefix (pre x : text) :
  slash_free pre ->
  (x = [] \/ exists x', x = "/"%char :: x') ->
  scan dir_pattern (pre ++ x) 0 = map Out pre ++ scan dir_pattern x 0.
Proof.
  intros Hpre Hx. induction pre as [|c pre IH]; [reflexivity|].
  inversion Hpre as [|? ? [Hc _] Hpre']; subst.
  change ((c :: pre) ++ x) with (c :: pre ++ x).
  rewrite scan_miss by now apply dir_pattern_miss.
  simpl. f_equal. now apply IH.
Qed.

Lemma flat_map_out (f : text -> text) (s : text) :
  flat_map (fun p => match p with Out c => [c] | Hit m => f m end) (map Out s) = s.
Proof. induction s as [|c s IH]; simpl; congruence. Qed.

(** The masker leaves a text without slash and backslash as it is. *)
Lemma maskDirectories_slash_free (t : text) :
  slash_free t -> maskDirectories t = t.
Proof.
  intros Ht. unfold maskDirectories, sub.
  rewrite <- (app_nil_r t) at 1.
  rewrite scan_dir_prefix by auto.
  change (scan dir_pattern [] 0) with (@nil piece).
  now rewrite app_nil_r, flat_map_out.
Qed.

(** The masker at the first slash of a text: what precedes stays, the run
    that begins at the slash goes through [mask_directory], and the scan
    resumes after the run. *)
Lemma maskDirectories_first_slash (pre run rest : text) :
  slash_free pre ->
  run <> [] ->
  Forall (fun c => is_path_char c = true) run ->
  (rest = [] \/ exists c rest', rest = c :: rest' /\ is_path_char c = false) ->
  maskDirectories (pre ++ ("/"%char :: run) ++ rest) =
  pre ++ mask_directory ("/"%char :: run) ++ maskDirectories rest.
Proof.
  intros Hpre Hne Hrun Hrest. unfold maskDirectories, sub.
  rewrite scan_dir_prefix; [|exact Hpre|right; now exists (run ++ rest)].
  rewrite scan_hit; [|discriminate|now apply dir_pattern_slash].
  rewrite flat_map_app, flat_map_out. reflexivity.
Qed.

(** ** [split] and [join] *)

Lemma str_split_nonempty (c : ascii) (s : text) : str_split c s <> [].
Proof.
  destruct s as [|x s]; simpl; [discriminate|].
  destruct (Ascii.eqb x c); [discriminate|].
  destruct (str_split c s); discriminate.
Qed.

Lemma str_split_sep_free (c : ascii) (s : text) :
  Forall (fun p => Forall (fun x => Ascii.eqb x c = false) p) (str_split c s).
Proof.
  induction s as [|x s IH]; simpl; [repeat constructor|].
  destruct (Ascii.eqb x c) eqn:E; [constructor; [constructor | exact IH]|].
  destruct (str_split c s) as [|p ps]; [repeat constructor; exact E|].
  inversion IH; subst. constructor; [constructor|]; assumption.
Qed.

Lemma str_split_app (c : ascii) (p rest : text) :
  Forall (fun x => Ascii.eqb x c = false) p ->
  str_split c (p ++ c :: rest) = p :: str_split c rest.
Proof.
  induction 1 as [|x p Hx Hp IH]; simpl.
  - now rewrite Ascii.eqb_refl.
  - now rewrite Hx, IH.
Qed.

Lemma str_split_one (c : ascii) (p : text) :
  Forall (fun x => Ascii.eqb x c = false) p -> str_split c p = [p].
Proof.
  induction 1 as [|x p Hx Hp IH]; simpl; [reflexivity|].
  now rewrite Hx, IH.
Qed.

(** Splitting a joined list of separator-free parts gives the parts back. *)
Lemma str_split_join (c : ascii) (parts : list text) :
  parts <> [] ->
  Forall (fun p => Forall (fun x => Ascii.eqb x c = false) p) parts ->
  str_split c (str_join [c] parts) = parts.
Proof.
  intros Hne H. revert Hne.
  induction H as [|p ps Hp Hps IH]; intros Hne; [now contradiction Hne|].
  destruct ps as [|q ps].
  - simpl. now apply str_split_one.
  - change (str_join [c] (p :: q :: ps)) with (p ++ c :: str_join [c] (q :: ps)).
    rewrite str_split_app by exact Hp. f_equal. apply IH. discriminate.
Qed.

(** Joining the parts of a split gives the text back. *)
Lemma str_join_split (c : ascii) (s : text) :
  str_join [c] (str_split c s) = s.
Proof.
  induction s as [|x s IH]; [reflexivity|]. simpl.
  destruct (Ascii.eqb x c) eqn:E.
  - apply Ascii.eqb_eq in E. subst x.
    pose proof (str_split_nonempty c s) as Hne.
    destruct (str_split c s) as [|p ps]; [congruence|].
    change (str_join [c] ([] :: p :: ps)) with (c :: str_join [c] (p :: ps)).
    now rewrite IH.
  - pose proof (str_split_nonempty c s) as Hne.
    destruct (str_split c s) as [|p ps]; [congruence|].
    destruct ps as [|q ps]; simpl in *; now rewrite <- IH.
Qed.

Lemma skipn_last (parts : list text) :
  parts <> [] -> skipn (length parts - 1) parts = [last parts []].
Proof.
  induction parts as [|p ps IH]; [congruence|]. intros _.
  destruct ps as [|q ps]; [reflexivity|].
  replace (length (p :: q :: ps) - 1) with (S (length (q :: ps) - 1))
    by (simpl; lia).
  cbn [skipn]. rewrite IH by discriminate. reflexivity.
Qed.

(** [mask_directory] written without its test on the number of parts. *)
Lemma mask_directory_eq (path : text) :
  let parts := str_split "/" (map (fun c => if Ascii.eqb c "\" then "/"%char else c) path) in
  mask_directory path =
  str_join (py "/") (repeat placeholder (length parts - 1) ++ [last parts []]).
Proof.
  intros parts. unfold mask_directory. fold parts.
  pose proof (str_split_nonempty "/"
    (map (fun c => if Ascii.eqb c "\" then "/"%char else c) path)) as Hne.
  fold parts in Hne.
  destruct (Nat.ltb 1 (length parts)) eqn:E.
  - now rewrite skipn_last.
  - apply Nat.ltb_ge in E. destruct parts as [|p [|q ps]]; [congruence| |simpl in E; lia].
    reflexivity.
Qed.

(** The segments of a masked path: placeholders, then the last segment of the
    path. *)
Lemma mask_directory_segments (path : text) :
  let parts := str_split "/" (map (fun c => if Ascii.eqb c "\" then "/"%char else c) path) in
  str_split "/" (mask_directory path) =
  repeat placeholder (length parts - 1) ++ [last parts []].
Proof.
  intros parts. rewrite mask_directory_eq. fold parts.
  change (py "/") with ["/"%char].
  apply str_split_join.
  - destruct (repeat placeholder (length parts - 1)); discriminate.
  - apply Forall_app. split.
    + apply Forall_forall. intros x Hx. apply repeat_spec in Hx. subst x.
      repeat constructor.
    + constructor; [|constructor].
      pose proof (str_split_sep_free "/"
        (map (fun c => if Ascii.eqb c "\" then "/"%char else c) path)) as Hf.
      fold parts in Hf.
      pose proof (str_split_nonempty "/"
        (map (fun c => if Ascii.eqb c "\" then "/"%char else c) path)) as Hne.
      fold parts in Hne.
      rewrite Forall_forall in Hf. apply Hf.
      destruct parts as [|p ps]; [congruence|]. apply (@exists_last _ (p :: ps)) in Hne.
      destruct Hne as [l' [a ->]]. rewrite last_last. apply in_or_app. right. now left.
Qed.

(** ** Sets of strings *)

Lemma mem_In (x : text) (l : list text) : mem x l = true <-> In x l.
Proof.
  unfold mem. rewrite existsb_exists. split.
  - intros [y [Hy E]]. apply text_eqb_eq in E. now subst.
  - intros H. exists x. split; [exact H | apply text_eqb_refl].
Qed.

Lemma set_add_In (x y : text) (l : list text) :
  In y (set_add x l) <-> y = x \/ In y l.
Proof.
  unfold set_add. destruct (mem x l) eqn:E.
  - apply mem_In in E. split; [auto | intros [->|H]; auto].
  - rewrite in_app_iff. simpl. split; intros H; intuition congruence.
Qed.

Lemma set_update_In (y : text) (xs l : list text) :
  In y (set_update l xs) <-> In y l \/ In y xs.
Proof.
  unfold set_update. revert l. induction xs as [|x xs IH]; intros l; simpl.
  - tauto.
  - rewrite IH, set_add_In. intuition congruence.
Qed.

Lemma set_add_NoDup (x : text) (l : list text) : NoDup l -> NoDup (set_add x l).
Proof.
  intros H. unfold set_add. destruct (mem x l) eqn:E; [exact H|].
  apply NoDup_app; [exact H | repeat constructor; simpl; tauto |].
  intros y Hy [<-|[]]. apply mem_In in Hy. congruence.
Qed.

Lemma set_update_NoDup (xs l : list text) : NoDup l -> NoDup (set_update l xs).
Proof.
  unfold set_update. revert l.
  induction xs as [|x xs IH]; intros l H; simpl; auto using set_add_NoDup.
Qed.

(** Adding the strings of a duplicate-free list to a set they are not in
    appends them in their order. *)
Lemma set_update_fresh (xs l : list text) :
  NoDup (l ++ xs) -> set_update l xs = l ++ xs.
Proof.
  unfold set_update. revert l. induction xs as [|x xs IH]; intros l H; simpl.
  - now rewrite app_nil_r.
  - assert (E : mem x l = false).
    { destruct (mem x l) eqn:E; [|reflexivity]. apply mem_In in E.
      apply NoDup_remove_2 in H. exfalso. apply H. apply in_or_app. now left. }
    unfold set_add at 2. rewrite E.
    change (l ++ x :: xs) with (l ++ [x] ++ xs) in *. rewrite app_assoc in *.
    now apply IH.
Qed.

Lemma getIDInfo_NoDup (t : text) (types : list string) : NoDup (getIDInfo t types).
Proof.
  unfold getIDInfo, patterns. cbn [fold_left fst snd].
  destruct (key_in "PHONE" types), (key_in "EMAIL" types), (key_in "SSN" types);
    repeat apply set_update_NoDup; constructor.
Qed.

(** ** [getIDInfo] and [getNE] *)

(** Every string of [getIDInfo] is a match of one of the three patterns. *)
Lemma getIDInfo_In (t : text) (types : list string) (m : text) :
  In m (getIDInfo t types) ->
  In m (findall phone_pattern t) \/
  In m (findall email_pattern t) \/
  In m (findall ssn_pattern t).
Proof.
  unfold getIDInfo, patterns. cbn [fold_left fst snd].
  destruct (key_in "PHONE" types), (key_in "EMAIL" types), (key_in "SSN" types);
    rewrite ?set_update_In; simpl; tauto.
Qed.

Lemma load_exclusions_In (lines : list text) (x : text) :
  mem x (load_exclusions lines) = true <->
  exists line, In line lines /\ x = lower (strip line).
Proof.
  unfold load_exclusions. rewrite mem_In, set_update_In, in_map_iff.
  split.
  - intros [[]|[line [E H]]]. exists line. auto.
  - intros [line [H E]]. right. exists line. auto.
Qed.

(** The loop of [getNE]: what it adds to [pii] are the entities of the
    subtrees whose lowercase form is not excluded. *)
Lemma getNE_loop_In (exclusions : list text) (e : text) :
  forall subs pii,
    In e (fold_left
            (fun pii subtree =>
               if negb (mem (lower (entity_of subtree)) exclusions)
               then set_add (entity_of subtree) pii
               else pii)
            subs pii) <->
    In e pii \/
    exists subtree, In subtree subs /\ e = entity_of subtree /\
                    mem (lower e) exclusions = false.
Proof.
  induction subs as [|s subs IH]; intros pii; simpl.
  - split; [auto | intros [H|[s [[] _]]]; exact H].
  - rewrite IH. destruct (mem (lower (entity_of s)) exclusions) eqn:E; simpl.
    + split.
      * intros [H|[s' [H1 H2]]]; [auto|]. right. exists s'. auto.
      * intros [H|[s' [[<-|H1] [H2 H3]]]]; [auto| |].
        -- subst e. congruence.
        -- right. exists s'. auto.
    + rewrite set_add_In. split.
      * intros [[->|H]|[s' [H1 H2]]]; [| auto |].
        -- right. exists s. auto.
        -- right. exists s'. auto.
      * intros [H|[s' [[<-|H1] [H2 H3]]]]; [auto | auto |].
        right. exists s'. auto.
Qed.

Lemma getNE_In (classify : text -> result Tree) (lines : list text)
    (t : text) (piiNE : list string) (ne : Tree) :
  classify t = Ok ne ->
  exists ents,
    getNE classify (Some lines) t piiNE = Ok ents /\
    forall e,
      In e ents <->
      exists subtree,
        In subtree (subtrees (fun x => key_in (label x) piiNE) ne) /\
        e = entity_of subtree /\
        mem (lower e) (load_exclusions lines) = false.
Proof.
  intros Hc. unfold getNE. rewrite Hc. eexists. split; [reflexivity|].
  intros e. rewrite getNE_loop_In. simpl. tauto.
Qed.

(** A loop over a set that has no or one string visits it in the one order
    there is. *)
Lemma iter_order_nil (iter_order : list text -> list text) :
  (forall l, Permutation (iter_order l) l) -> iter_order [] = [].
Proof. intros H. apply Permutation_nil. apply Permutation_sym, H. Qed.

Lemma iter_order_one (iter_order : list text -> list text) (x : text) :
  (forall l, Permutation (iter_order l) l) -> iter_order [x] = [x].
Proof. intros H. apply Permutation_length_1_inv. apply Permutation_sym, H. Qed.

(** [cleanString] on a text in which no named entity is found. *)
Lemma cleanString_no_entity (classify : text -> result Tree)
    (exclusions_file : option (list text)) (iter_order : list text -> list text)
    (t : text) (verbose : bool) (piiNE piiNums : option (list string)) :
  getNE classify exclusions_file t
    (or_default piiNE ["PERSON"; "ORGANIZATION"; "GPE"; "LOCATION"]%string) = Ok [] ->
  cleanString classify exclusions_file iter_order t verbose piiNE piiNums =
  Ok (maskDirectories
        (replace_all
           (iter_order (getIDInfo t (or_default piiNums ["PHONE"; "EMAIL"; "SSN"]%string)))
           t)).
Proof.
  intros H. unfold cleanString. rewrite H. unfold set_union.
  replace (set_update [] (getIDInfo t (or_default piiNums ["PHONE"; "EMAIL"; "SSN"]%string)))
    with (getIDInfo t (or_default piiNums ["PHONE"; "EMAIL"; "SSN"]%string)); [reflexivity|].
  symmetry. apply (set_update_fresh _ []). apply getIDInfo_NoDup.
Qed.

(** ** The SSN pattern *)

(** A repetition with equal bounds takes exactly that many characters. *)
Lemma rep_exact (p : ascii -> bool) (k : text -> option text) (s : text) :
  forall ds,
    rep p (length ds) (Some (length ds)) (ds ++ s) k =
    if forallb p ds then k s else None.
Proof.
  induction ds as [|x ds IH].
  - simpl. destruct s as [|c s]; [reflexivity|].
    cbn [rep may_take]. now rewrite andb_false_r.
  - change ((x :: ds) ++ s) with (x :: (ds ++ s)).
    cbn [rep length may_take dec_bound pred forallb]. rewrite andb_true_r.
    destruct (p x); [|reflexivity]. rewrite IH. cbn [andb].
    destruct (forallb p ds); [|reflexivity]. now destruct (k s).
Qed.

Lemma exec_digits (ds s : text) (k : text -> option text) :
  forallb is_digit ds = true ->
  exec (digits (length ds)) (ds ++ s) k = k s.
Proof. intros H. unfold digits. cbn [exec]. now rewrite rep_exact, H. Qed.

Lemma exec_digits2 (x y : ascii) (s : text) (k : text -> option text) :
  is_digit x = true -> is_digit y = true ->
  exec (digits 2) (x :: y :: s) k = k s.
Proof.
  intros Hx Hy. apply (exec_digits [x; y]). cbn [forallb]. now rewrite Hx, Hy.
Qed.

Lemma exec_digits3 (x y z : ascii) (s : text) (k : text -> option text) :
  is_digit x = true -> is_digit y = true -> is_digit z = true ->
  exec (digits 3) (x :: y :: z :: s) k = k s.
Proof.
  intros Hx Hy Hz. apply (exec_digits [x; y; z]). cbn [forallb].
  now rewrite Hx, Hy, Hz.
Qed.

Lemma exec_digits4 (x y z w : ascii) (s : text) (k : text -> option text) :
  is_digit x = true -> is_digit y = true -> is_digit z = true -> is_digit w = true ->
  exec (digits 4) (x :: y :: z :: w :: s) k = k s.
Proof.
  intros Hx Hy Hz Hw. apply (exec_digits [x; y; z; w]). cbn [forallb].
  now rewrite Hx, Hy, Hz, Hw.
Qed.

Lemma rep_four (p : ascii -> bool) (x y z w : ascii) (s : text) (k : text -> option text) :
  rep p 4 (Some 4) (x :: y :: z :: w :: s) k =
  if p x && (p y && (p z && (p w && true))) then k s else None.
Proof. exact (rep_exact p k s [x; y; z; w]). Qed.

(** At the head of a text of shape [###-##-####] the SSN pattern matches
    exactly when the policy holds, and then it matches the eleven
    characters. *)
Lemma ssn_anchored (a b c d e f g h i : ascii) (post : text) (k : text -> option text) :
  is_digit a = true -> is_digit b = true -> is_digit c = true ->
  is_digit d = true -> is_digit e = true -> is_digit f = true ->
  is_digit g = true -> is_digit h = true -> is_digit i = true ->
  exec ssn_pattern (ssn_shape a b c d e f g h i ++ post) k =
  if ssn_policy a b c d e f g h i then k post else None.
Proof.
  intros Ha Hb Hc Hd He Hf Hg Hh Hi.
  unfold ssn_pattern, ssn_shape, ssn_policy.
  cbn [exec app Lit_str py list_ascii_of_string Chr].
  rewrite (exec_digits2 b c), (exec_digits3 a b c) by assumption.
  cbn [exec app Lit_str py list_ascii_of_string Chr].
  change (is_char "-" "-") with true. cbv iota.
  rewrite (exec_digits2 d e) by assumption.
  cbn [exec app Lit_str py list_ascii_of_string Chr].
  change (is_char "-" "-") with true. cbv iota.
  rewrite rep_four, (exec_digits4 f g h i) by assumption.
  repeat (match goal with
          | |- context [is_char ?x ?y] => destruct (is_char x y)
          end; cbn [andb negb]); reflexivity.
Qed.

Lemma hits_map_out (s : text) : hits (map Out s) = [].
Proof. induction s; simpl; auto. Qed.

Lemma ssn_shape_findall (a b c d e f g h i : ascii) :
  is_digit a = true -> is_digit b = true -> is_digit c = true ->
  is_digit d = true -> is_digit e = true -> is_digit f = true ->
  is_digit g = true -> is_digit h = true -> is_digit i = true ->
  findall ssn_pattern (ssn_shape a b c d e f g h i) =
  if ssn_policy a b c d e f g h i then [ssn_shape a b c d e f g h i] else [].
Proof.
  intros Ha Hb Hc Hd He Hf Hg Hh Hi.
  pose proof (ssn_anchored a b c d e f g h i []
                (fun s' => if false && Nat.eqb (length s')
                                     (length (ssn_shape a b c d e f g h i ++ []))
                           then None else Some s')
                Ha Hb Hc Hd He Hf Hg Hh Hi) as H.
  fold (match_at ssn_pattern false (ssn_shape a b c d e f g h i ++ [])) in H.
  cbn [andb] in H. unfold findall.
  destruct (ssn_policy a b c d e f g h i).
  - rewrite <- (app_nil_r (ssn_shape a b c d e f g h i)) at 1.
    rewrite scan_hit by (exact H || discriminate). reflexivity.
  - rewrite app_nil_r in H. unfold ssn_shape in *.
    rewrite scan_miss by exact H.
    rewrite scan_short by (vm_compute; lia).
    cbn [hits flat_map app]. apply hits_map_out.
Qed.

(** ** Tokens of the path masker *)

(** The four characters that end a path. *)
Lemma non_path_char_cases (w : ascii) :
  is_path_char w = false ->
  w = " "%char \/ w = "010"%char \/ w = "013"%char \/ w = "009"%char.
Proof.
  unfold is_path_char, code. intros H. apply negb_false_iff in H.
  rewrite <- (ascii_N_embedding w).
  repeat (apply orb_prop in H as [H|H]); apply N.eqb_eq in H; rewrite H; auto.
Qed.

Lemma rep_boundary (p : ascii -> bool) (w : ascii) (v : text) :
  p w = false ->
  forall s lo,
    rep p lo None (s ++ w :: v) (fun s' => Some s') =
    option_map (fun r => r ++ w :: v) (rep p lo None s (fun s' => Some s')).
Proof.
  intros Hw. induction s as [|c s IH]; intros lo.
  - cbn [app rep]. rewrite Hw. cbn [andb]. now destruct lo.
  - change ((c :: s) ++ w :: v) with (c :: (s ++ w :: v)).
    cbn [rep may_take dec_bound]. rewrite andb_true_r.
    destruct (p c); [|now destruct lo].
    rewrite IH. destruct (rep p (pred lo) None s (fun s' => Some s')); [reflexivity|].
    now destruct lo.
Qed.

Lemma match_at_dir_boundary (w : ascii) (s v : text) :
  is_path_char w = false ->
  match_at dir_pattern false (s ++ w :: v) =
  option_map (fun r => r ++ w :: v) (match_at dir_pattern false s).
Proof.
  intros Hw. unfold match_at, dir_pattern. cbn [andb].
  assert (Hc : is_letter w = false /\ is_char ":" w = false /\
               is_char "\" w = false /\ is_char "/" w = false).
  { destruct (non_path_char_cases w Hw) as [-> | [-> | [-> | ->]]]; repeat split. }
  destruct Hc as [H1 [H2 [H3 H4]]].
  cbn [exec Chr].
  destruct s as [|c1 s]; cbn [app].
  - now rewrite H1, H4.
  - assert (E : (if is_char "/" c1
                 then rep is_path_char 1 None (s ++ w :: v) (fun s' => Some s')
                 else None) =
                option_map (fun r => r ++ w :: v)
                  (if is_char "/" c1
                   then rep is_path_char 1 None s (fun s' => Some s')
                   else None)).
    { destruct (is_char "/" c1); [apply rep_boundary; exact Hw | reflexivity]. }
    destruct (is_letter c1).
    + destruct s as [|c2 s]; cbn [app].
      * rewrite H2. exact E.
      * destruct (is_char ":" c2); [|exact E].
        destruct s as [|c3 s]; cbn [app].
        -- rewrite H3. exact E.
        -- destruct (is_char "\" c3); [|exact E].
           rewrite (rep_boundary _ _ _ Hw).
           destruct (rep is_path_char 1 None s (fun s' => Some s')); [reflexivity|].
           exact E.
    + exact E.
Qed.

Lemma scan_dir_boundary (w : ascii) (v : text) :
  is_path_char w = false ->
  forall u skip,
    skip <= length u ->
    scan dir_pattern (u ++ w :: v) skip =
    scan dir_pattern u skip ++ Out w :: scan dir_pattern v 0.
Proof.
  intros Hw. induction u as [|c u IH]; intros skip Hskip.
  - simpl in Hskip. assert (skip = 0) as -> by lia.
    cbn [app]. rewrite scan_miss.
    + reflexivity.
    + exact (match_at_dir_boundary w [] v Hw).
  - change ((c :: u) ++ w :: v) with (c :: (u ++ w :: v)).
    destruct skip as [|n]; [|cbn [scan]; apply IH; simpl in Hskip; lia].
    cbn [scan].
    change (c :: (u ++ w :: v)) with ((c :: u) ++ w :: v).
    rewrite (match_at_dir_boundary w (c :: u) v Hw).
    destruct (match_at dir_pattern false (c :: u)) as [rest|] eqn:E; cbn [option_map].
    + apply match_at_sound in E as [m [Em [Et [Hm _]]]].
      change (min_len dir_pattern) with 2 in Hm.
      assert (Et' : taken ((c :: u) ++ w :: v) (rest ++ w :: v) = m).
      { rewrite Em, <- app_assoc. apply taken_app. }
      rewrite Et, Et'.
      destruct m as [|x m]; [simpl in Hm; lia|].
      cbn [app]. f_equal. apply IH.
      injection Em as _ Eu. rewrite Eu, length_app. lia.
    + cbn [app]. f_equal. apply (IH 0). lia.
Qed.

(** The masker works token by token: a character that ends a path cuts the
    text in two parts that are masked on their own. *)
Lemma maskDirectories_boundary (u : text) (w : ascii) (v : text) :
  is_path_char w = false ->
  maskDirectories (u ++ w :: v) = maskDirectories u ++ w :: maskDirectories v.
Proof.
  intros Hw. unfold maskDirectories, sub.
  rewrite scan_dir_boundary by (exact Hw || lia).
  now rewrite flat_map_app.
Qed.

(** ** The PHONE pattern *)












(** ** Named entities are not empty *)

Lemma str_join_nonempty (sep : text) (ws : list text) :
  ws <> [] -> Forall (fun w => w <> []) ws -> str_join sep ws <> [].
Proof.
  destruct ws as [|w ws]; [congruence|]. intros _ H.
  inversion H as [|? ? Hw _]; subst.
  destruct w as [|c w]; [congruence|].
  destruct ws; simpl; discriminate.
Qed.

(** ** Excluded entities *)

(** An occurrence of [e] is stepped over by the replacement of a string that
    does not overlap it. *)
Lemma str_replace_keeps (p new e post : text) :
  e <> [] -> independent p e = true ->
  forall pre,
    str_replace p new (pre ++ e ++ post) =
    str_replace p new pre ++ e ++ str_replace p new post.
Proof.
  intros He Hi. apply independent_iff in Hi as [Hpe Hep].
  assert (Hp : p <> []).
  { intros ->. rewrite overlaps_nil_r in Hep by exact He. discriminate. }
  intros pre. pattern pre. apply (str_replace_ind p); [exact Hp| | |]; clear pre.
  - rewrite str_replace_nil by exact Hp. simpl.
    now apply str_replace_over.
  - intros pre IH. rewrite <- app_assoc, !str_replace_hit by exact Hp.
    now rewrite IH, app_assoc.
  - intros c pre Hmiss IH.
    rewrite (str_replace_miss p new c pre) by assumption.
    change ((c :: pre) ++ e ++ post) with (c :: (pre ++ e ++ post)).
    rewrite str_replace_miss; [simpl; now rewrite IH | exact Hp |].
    destruct (starts_with p (c :: pre ++ e ++ post)) eqn:E; [|reflexivity].
    exfalso. change (c :: pre ++ e ++ post) with ((c :: pre) ++ e ++ post) in E.
    apply starts_with_app_inv in E as [E | [w [-> [Hw E]]]]; [congruence|].
    apply starts_with_app_inv in E as [E | [w' [-> [_ _]]]].
    + rewrite (overlaps_intro (c :: pre) w e Hw) in Hpe; [discriminate | now left].
    + rewrite (overlaps_intro (c :: pre) (e ++ w') e Hw) in Hpe; [discriminate|].
      right. apply starts_with_app.
Qed.

Lemma replace_all_keeps (e : text) (order : list text) :
  e <> [] ->
  (forall p, In p order -> independent p e = true) ->
  forall pre post,
    replace_all order (pre ++ e ++ post) =
    replace_all order pre ++ e ++ replace_all order post.
Proof.
  intros He. induction order as [|p order IH]; intros Hi pre post; [reflexivity|].
  rewrite !replace_all_cons.
  rewrite str_replace_keeps by (try exact He; apply Hi; now left).
  apply IH. intros q Hq. apply Hi. now right.
Qed.

Lemma replace_from_Forall (Q : ascii -> Prop) (old new : text) :
  Forall Q new ->
  forall s skip, Forall Q s -> Forall Q (replace_from old new s skip).
Proof.
  intros Hn. induction s as [|c s IH]; intros skip Hs; [constructor|].
  inversion Hs; subst. cbn [replace_from].
  destruct skip; [|now apply IH].
  destruct (starts_with old (c :: s)).
  - apply Forall_app. split; [exact Hn | now apply IH].
  - constructor; [assumption | now apply IH].
Qed.

(** A replacement brings in no character but those of the new text. *)
Lemma str_replace_Forall (Q : ascii -> Prop) (old new s : text) :
  Forall Q new -> Forall Q s -> Forall Q (str_replace old new s).
Proof.
  intros Hn Hs. destruct old as [|c old]; [|now apply replace_from_Forall].
  simpl. apply Forall_app. split; [exact Hn|].
  apply Forall_flat_map. apply Forall_forall. intros x Hx.
  constructor; [|exact Hn]. rewrite Forall_forall in Hs. now apply Hs.
Qed.

Lemma replace_all_slash_free (order : list text) :
  forall t, slash_free t -> slash_free (replace_all order t).
Proof.
  induction order as [|p order IH]; intros t Ht; [exact Ht|].
  rewrite replace_all_cons. apply IH. apply str_replace_Forall; [|exact Ht].
  repeat constructor.
Qed.

(** * More properties of the code *)

(** ** The language of a pattern *)

Lemma rep_matches (p : ascii -> bool) (k : text -> option text) (res : text) :
  forall s lo hi,
    rep p lo hi s k = Some res ->
    exists m s', s = m ++ s' /\ matches (Rep p lo hi) m s' /\ k s' = Some res.
Proof.
  induction s as [|c s IH]; intros lo hi H.
  - destruct lo; [|discriminate]. exists [], []. cbn [matches].
    repeat split; auto. destruct hi; simpl; auto with arith.
  - cbn [rep] in H.
    assert (Hstop : match lo with 0 => k (c :: s) | S _ => None end = Some res ->
                    exists m s', c :: s = m ++ s' /\ matches (Rep p lo hi) m s' /\
                                 k s' = Some res).
    { destruct lo; [|discriminate]. intros Hk. exists [], (c :: s). cbn [matches].
      repeat split; auto. destruct hi; simpl; auto with arith. }
    destruct (p c) eqn:Hc; [|auto].
    destruct (may_take hi) eqn:Hhi; [|auto]. cbn [andb] in H.
    destruct (rep p (pred lo) (dec_bound hi) s k) eqn:E; [|auto].
    injection H as ->. apply IH in E as [m [s' [-> [[Hm [Hlo Hh]] Hk]]]].
    exists (c :: m), s'. cbn [matches]. repeat split; auto.
    + simpl. lia.
    + destruct hi as [[|h]|]; [discriminate| |exact I]. simpl in *. lia.
Qed.

(** Whatever [exec] answers comes from a string of the language of the
    pattern at the head of the text. *)
Lemma exec_matches (r : regex) :
  forall s k res,
    exec r s k = Some res ->
    exists m s', s = m ++ s' /\ matches r m s' /\ k s' = Some res.
Proof.
  induction r as [|p|r1 IH1 r2 IH2|r1 IH1 r2 IH2|p lo hi|r IH];
    intros s k res H; cbn [exec] in H.
  - exists [], s. repeat split; auto.
  - destruct s as [|c s]; [discriminate|].
    destruct (p c) eqn:Hc; [|discriminate]. exists [c], s.
    repeat split; auto. exists c. auto.
  - apply IH1 in H as [m1 [s1 [-> [H1 H]]]].
    apply IH2 in H as [m2 [s2 [-> [H2 H]]]].
    exists (m1 ++ m2), s2. rewrite app_assoc. repeat split; auto.
    exists m1, m2. auto.
  - destruct (exec r1 s k) eqn:E.
    + injection H as ->. apply IH1 in E as [m [s' [-> [H1 H]]]].
      exists m, s'. repeat split; auto. now left.
    + apply IH2 in H as [m [s' [-> [H2 H]]]].
      exists m, s'. repeat split; auto. now right.
  - exact (rep_matches p k res s lo hi H).
  - destruct (exec r s (fun s' => Some s')) eqn:E; [discriminate|].
    exists [], s. repeat split; auto.
Qed.

Lemma match_at_matches (r : regex) (adv : bool) (s rest : text) :
  match_at r adv s = Some rest ->
  exists m, s = m ++ rest /\ taken s rest = m /\ matches r m rest.
Proof.
  unfold match_at. intros H.
  apply exec_matches in H as [m [s' [-> [Hm H]]]].
  destruct (adv && Nat.eqb (length s') (length (m ++ s'))); [discriminate|].
  injection H as <-. exists m. repeat split; auto using taken_app.
Qed.

(** Every match reported is a piece of the text, is in the language of the
    pattern there, and was found by an anchored match at that place. *)
Lemma scan_hits_matches (r : regex) (m : text) :
  forall s skip,
    In m (hits (scan r s skip)) ->
    exists pre post adv,
      s = pre ++ m ++ post /\ matches r m post /\
      match_at r adv (m ++ post) = Some post.
Proof.
  induction s as [|c s IH]; intros skip H.
  - cbn [scan] in H. destruct skip; [|contradiction].
    destruct (match_at r false []) eqn:E; [|contradiction].
    simpl in H. destruct H as [<-|[]].
    pose proof E as E0.
    apply match_at_matches in E as [m' [E' [_ Hm]]].
    symmetry in E'. apply app_eq_nil in E' as [-> ->].
    exists [], [], false. auto.
  - assert (Hrec : forall n, In m (hits (scan r s n)) ->
                   exists pre post adv,
                     c :: s = pre ++ m ++ post /\ matches r m post /\
                     match_at r adv (m ++ post) = Some post).
    { intros n Hn. apply IH in Hn as [pre [post [adv [-> [Hm Ha]]]]].
      exists (c :: pre), post, adv. auto. }
    assert (Hhere : forall adv rest,
               match_at r adv (c :: s) = Some rest ->
               exists pre post adv',
                 c :: s = pre ++ taken (c :: s) rest ++ post /\
                 matches r (taken (c :: s) rest) post /\
                 match_at r adv' (taken (c :: s) rest ++ post) = Some post).
    { intros adv rest E. pose proof E as E0.
      apply match_at_matches in E as [m' [E' [Et Hm]]].
      rewrite Et. exists [], rest, adv. rewrite <- E'. auto. }
    cbn [scan] in H. destruct skip; [|eauto].
    destruct (match_at r false (c :: s)) as [rest|] eqn:E; [|simpl in H; eauto].
    destruct (taken (c :: s) rest) as [|x m0] eqn:Et.
    + simpl in H. destruct H as [<-|H].
      { rewrite <- Et. eauto. }
      destruct (match_at r true (c :: s)) as [rest'|] eqn:E'; [|simpl in H; eauto].
      simpl in H. destruct H as [<-|H]; eauto.
    + simpl in H. destruct H as [<-|H]; [rewrite <- Et|]; eauto.
Qed.

Lemma occurs_in_app (pre m post : text) : occurs_in m (pre ++ m ++ post) = true.
Proof.
  induction pre as [|c pre IH].
  - simpl. destruct (m ++ post) eqn:E; cbn [occurs_in]; rewrite <- ?E;
      rewrite starts_with_app; reflexivity.
  - change ((c :: pre) ++ m ++ post) with (c :: (pre ++ m ++ post)).
    cbn [occurs_in]. rewrite IH. apply orb_true_r.
Qed.

(** ** What the identifier patterns report *)

Lemma findall_found (r : regex) (t m : text) :
  In m (findall r t) ->
  exists pre post adv,
    t = pre ++ m ++ post /\ matches r m post /\
    match_at r adv (m ++ post) = Some post.
Proof. apply scan_hits_matches. Qed.

Lemma is_char_eq (a c : ascii) : is_char a c = true -> c = a.
Proof. unfold is_char. intros H. apply Ascii.eqb_eq in H. congruence. Qed.

Ltac break_matches :=
  repeat match goal with
  | H : exists _, _ |- _ => destruct H
  | H : _ /\ _ |- _ => destruct H
  | H : is_char _ _ = true |- _ => apply is_char_eq in H
  end.

Lemma ssn_match_shape (m post : text) :
  matches ssn_pattern m post ->
  exists a b c d e f g h i,
    m = ssn_shape a b c d e f g h i /\
    forallb is_digit [a; b; c; d; e; f; g; h; i] = true.
Proof.
  unfold ssn_pattern, digits, Chr. cbn [matches]. intros H. break_matches. subst.
  repeat match goal with
  | H : Forall _ ?l, H1 : _ <= length ?l, H2 : length ?l <= _ |- _ =>
      destruct l as [|? [|? [|? [|? [|? ?]]]]]; simpl in H1, H2; try lia;
      repeat match goal with
             | H' : Forall _ (_ :: _) |- _ => inversion H' as [|? ? ? ?]; clear H'; subst
             end
  end.
  cbn [app]. unfold ssn_shape.
  repeat eexists.
  cbn [forallb].
  repeat match goal with H : is_digit _ = true |- _ => rewrite H; clear H end.
  reflexivity.
Qed.

(** Every SSN the matcher reports, in any text, has the shape [###-##-####]
    and obeys the policy. *)
Lemma ssn_found_valid (t m : text) :
  In m (findall ssn_pattern t) ->
  exists a b c d e f g h i,
    m = ssn_shape a b c d e f g h i /\
    forallb is_digit [a; b; c; d; e; f; g; h; i] = true /\
    ssn_policy a b c d e f g h i = true.
Proof.
  intros H. apply findall_found in H as [pre [post [adv [_ [Hm Ha]]]]].
  apply ssn_match_shape in Hm as [a [b [c [d [e [f [g [h [i [-> Hd]]]]]]]]]].
  exists a, b, c, d, e, f, g, h, i. repeat split; [exact Hd|].
  cbn [forallb] in Hd. repeat (apply andb_prop in Hd as [? Hd]).
  unfold match_at in Ha. rewrite ssn_anchored in Ha by assumption.
  destruct (ssn_policy a b c d e f g h i); [reflexivity | discriminate].
Qed.

Lemma email_match_shape (m post : text) :
  matches email_pattern m post ->
  exists l d tld,
    m = l ++ "@"%char :: d ++ "."%char :: tld /\
    l <> [] /\ Forall (fun c => is_email_local c = true) l /\
    d <> [] /\ Forall (fun c => is_email_domain c = true) d /\
    Forall (fun c => is_letter c = true) tld /\ 2 <= length tld <= 4.
Proof.
  unfold email_pattern, Chr. cbn [matches]. intros H. break_matches. subst.
  match goal with
  | H1 : Forall _ ?l, H2 : Forall _ ?d, H3 : Forall _ ?tld |- _ =>
      exists l, d, tld
  end.
  repeat split; auto.
  - intros ->. simpl in *. lia.
  - intros ->. simpl in *. lia.
Qed.

Lemma phone_match_digit (m post : text) :
  matches phone_pattern m post -> Exists (fun c => is_digit c = true) m.
Proof.
  unfold phone_pattern. cbn [matches].
  intros [m1 [m2 [-> [_ [m3 [m4 [-> [_ [m5 [m6 [-> [H _]]]]]]]]]]]].
  unfold digits in H. cbn [matches] in H. destruct H as [Hf [Hl _]].
  apply Exists_app. right. apply Exists_app. right. apply Exists_app. left.
  destruct m5 as [|c m5]; [simpl in Hl; lia|].
  inversion Hf; subst. now left.
Qed.

Lemma Forall_Exists_contra {A : Type} (P : A -> Prop) (Q : A -> Prop) (l : list A) :
  Forall P l -> Exists Q l -> exists x, P x /\ Q x.
Proof.
  intros Hf He. apply Exists_exists in He as [x [Hx Hq]].
  rewrite Forall_forall in Hf. eauto.
Qed.

(** ** What the replacements leave *)

Lemma occurs_in_app_r (u v x : text) :
  occurs_in u x = true -> occurs_in u (v ++ x) = true.
Proof.
  intros H. induction v as [|c v IH]; [exact H|].
  change ((c :: v) ++ x) with (c :: (v ++ x)). cbn [occurs_in].
  rewrite IH. apply orb_true_r.
Qed.

(** No occurrence of [p] begins in a stretch that does not overlap [p]. *)
Lemma occurs_in_skip (v p x : text) :
  overlaps v p = false -> occurs_in p (v ++ x) = occurs_in p x.
Proof.
  induction v as [|c v IH]; intros Ho; [reflexivity|].
  change ((c :: v) ++ x) with (c :: (v ++ x)). cbn [occurs_in].
  change (c :: (v ++ x)) with ((c :: v) ++ x).
  rewrite overlaps_no_hit by (exact Ho || discriminate).
  cbn [orb]. apply IH. cbn [overlaps] in Ho.
  now apply orb_false_elim in Ho as [_ Ho].
Qed.

(** A string that does not occur is not replaced. *)
Lemma str_replace_absent (old new s : text) :
  occurs_in old s = false -> str_replace old new s = s.
Proof.
  destruct old as [|d old].
  { destruct s; discriminate. }
  induction s as [|c s IH]; intros H; [reflexivity|].
  cbn [occurs_in] in H. apply orb_false_elim in H as [H1 H2].
  rewrite str_replace_miss by (exact H1 || discriminate).
  now rewrite IH.
Qed.

(** After its replacement a string occurs no more, when it does not overlap
    the text put in its place. *)
Lemma str_replace_removes (a new : text) :
  a <> [] -> independent a new = true ->
  forall t, occurs_in a (str_replace a new t) = false.
Proof.
  intros Ha Hi. apply independent_iff in Hi as [Han Hna].
  intros t. pattern t. apply (str_replace_ind a); [exact Ha| | |]; clear t.
  - rewrite str_replace_nil by exact Ha. destruct a; [congruence | reflexivity].
  - intros t IH. rewrite str_replace_hit by exact Ha.
    now rewrite occurs_in_skip.
  - intros c t Hmiss IH. rewrite str_replace_miss by assumption.
    cbn [occurs_in]. rewrite IH, orb_false_r.
    destruct (starts_with a (c :: str_replace a new t)) eqn:E; [|reflexivity].
    apply (str_replace_reflects_prefix a new a Ha Han t [c]) in E.
    simpl in E, Hmiss. congruence.
Qed.

(** A replacement creates no occurrence of a string that does not overlap the
    text put in. *)
Lemma str_replace_reflects_occurrence (a new u : text) :
  a <> [] -> independent u new = true ->
  forall t, occurs_in u (str_replace a new t) = true -> occurs_in u t = true.
Proof.
  intros Ha Hi. apply independent_iff in Hi as [Hun Hnu].
  intros t. pattern t. apply (str_replace_ind a); [exact Ha| | |]; clear t.
  - now rewrite str_replace_nil.
  - intros t IH H. rewrite str_replace_hit in H by exact Ha.
    rewrite occurs_in_skip in H by exact Hnu.
    apply occurs_in_app_r. now apply IH.
  - intros c t Hmiss IH H. rewrite str_replace_miss in H by assumption.
    cbn [occurs_in] in H |- *. apply orb_prop in H as [H|H].
    + apply (str_replace_reflects_prefix a new u Ha Hun t [c]) in H.
      simpl in H. now rewrite H.
    + rewrite IH by exact H. apply orb_true_r.
Qed.

Lemma replace_all_keeps_absent (p : text) (l : list text) :
  independent p placeholder = true ->
  (forall q, In q l -> q <> []) ->
  forall t, occurs_in p t = false -> occurs_in p (replace_all l t) = false.
Proof.
  intros Hp. induction l as [|q l IH]; intros Hl t Ht; [exact Ht|].
  rewrite replace_all_cons. apply IH; [intros x Hx; apply Hl; now right|].
  destruct (occurs_in p (str_replace q placeholder t)) eqn:E; [|reflexivity].
  apply str_replace_reflects_occurrence in E; [congruence| |exact Hp].
  apply Hl. now left.
Qed.

(** When no string of the list overlaps the placeholder, none of them occurs
    in the text after the loop, in whatever order they were replaced. *)
Lemma replace_all_removes (l : list text) :
  (forall q, In q l -> independent q placeholder = true) ->
  forall t p, In p l -> occurs_in p (replace_all l t) = false.
Proof.
  induction l as [|q l IH]; intros Hl t p Hp; [contradiction|].
  assert (Hne : forall x, In x (q :: l) -> x <> []).
  { intros x Hx. apply (independent_nonempty x placeholder); [now apply Hl | discriminate]. }
  rewrite replace_all_cons.
  destruct (list_eq_dec ascii_dec p q) as [->|Hpq].
  - apply replace_all_keeps_absent.
    + apply Hl. now left.
    + intros x Hx. apply Hne. now right.
    + apply str_replace_removes; [apply Hne | apply Hl]; now left.
  - destruct Hp as [->|Hp]; [congruence|].
    apply IH; [|exact Hp]. intros x Hx. apply Hl. now right.
Qed.

Lemma replace_all_absent (l : list text) :
  forall t, (forall p, In p l -> occurs_in p t = false) -> replace_all l t = t.
Proof.
  induction l as [|q l IH]; intros t H; [reflexivity|].
  rewrite replace_all_cons, str_replace_absent by (apply H; now left).
  apply IH. intros p Hp. apply H. now right.
Qed.

(** ** More on the path masker *)

Lemma dir_pattern_drive (l : ascii) (run rest : text) :
  is_letter l = true ->
  run <> [] ->
  Forall (fun c => is_path_char c = true) run ->
  (rest = [] \/ exists c rest', rest = c :: rest' /\ is_path_char c = false) ->
  match_at dir_pattern false ((l :: ":"%char :: "\"%char :: run) ++ rest) = Some rest.
Proof.
  intros Hl Hne Hrun Hrest. unfold match_at, dir_pattern.
  change ((l :: ":"%char :: "\"%char :: run) ++ rest)
    with (l :: ":"%char :: "\"%char :: (run ++ rest)).
  cbn [exec Chr]. rewrite Hl.
  change (is_char ":" ":") with true. change (is_char "\" "\") with true. cbv iota.
  rewrite (rep_greedy is_path_char _ rest rest); try assumption; [reflexivity..|].
  destruct run; [congruence | simpl; lia].
Qed.

Lemma str_split_Forall (Q : ascii -> Prop) (c : ascii) (s : text) :
  Forall Q s -> Forall (Forall Q) (str_split c s).
Proof.
  induction 1 as [|x s Hx Hs IH]; simpl; [repeat constructor|].
  destruct (Ascii.eqb x c); [constructor; [constructor | exact IH]|].
  destruct (str_split c s) as [|p ps]; [repeat constructor; exact Hx|].
  inversion IH; subst. constructor; [constructor|]; assumption.
Qed.

Lemma str_join_Forall (Q : ascii -> Prop) (sep : text) (parts : list text) :
  Forall Q sep -> Forall (Forall Q) parts -> Forall Q (str_join sep parts).
Proof.
  intros Hsep. induction 1 as [|p ps Hp Hps IH]; [constructor|].
  destruct ps as [|q ps]; [exact Hp|].
  change (str_join sep (p :: q :: ps)) with (p ++ sep ++ str_join sep (q :: ps)).
  apply Forall_app. split; [exact Hp|]. apply Forall_app. split; [exact Hsep | exact IH].
Qed.

Lemma last_Forall {A : Type} (Q : A -> Prop) (l : list A) (d : A) :
  Forall Q l -> Q d -> Q (last l d).
Proof.
  induction 1 as [|x l Hx Hl IH]; intros Hd; [exact Hd|].
  destruct l as [|y l]; [exact Hx|]. now apply IH.
Qed.

(** The characters of a masked path: those of the path, backslashes turned
    into slashes, the slash and those of the placeholder. *)
Lemma mask_directory_Forall (Q : ascii -> Prop) (path : text) :
  Q "X"%char -> Q "/"%char ->
  Forall Q (map (fun c => if Ascii.eqb c "\" then "/"%char else c) path) ->
  Forall Q (mask_directory path).
Proof.
  intros HX Hs Hp. rewrite mask_directory_eq.
  apply str_join_Forall; [repeat constructor; exact Hs|].
  apply Forall_app. split.
  - apply Forall_forall. intros x Hx. apply repeat_spec in Hx. subst x.
    repeat constructor; exact HX.
  - constructor; [|constructor].
    apply last_Forall; [|constructor]. now apply str_split_Forall.
Qed.

Lemma normalize_Forall (Q : ascii -> Prop) (path : text) :
  (forall c, In c path -> c <> "\"%char -> Q c) -> Q "/"%char ->
  Forall Q (map (fun c => if Ascii.eqb c "\" then "/"%char else c) path).
Proof.
  intros H Hs. apply Forall_forall. intros x Hx.
  apply in_map_iff in Hx as [c [<- Hc]].
  destruct (Ascii.eqb c "\") eqn:E; [exact Hs|].
  apply H; [exact Hc|]. intros ->. discriminate.
Qed.

(** A masked path has no backslash. *)
Lemma mask_directory_no_backslash (path : text) :
  Forall (fun c => c <> "\"%char) (mask_directory path).
Proof.
  apply mask_directory_Forall; try discriminate.
  apply normalize_Forall; [auto | discriminate].
Qed.

Lemma normalize_id (s : text) :
  Forall (fun c => c <> "\"%char) s ->
  map (fun c => if Ascii.eqb c "\" then "/"%char else c) s = s.
Proof.
  induction 1 as [|c s Hc Hs IH]; [reflexivity|]. simpl. rewrite IH.
  destruct (Ascii.eqb c "\") eqn:E; [|reflexivity].
  apply Ascii.eqb_eq in E. congruence.
Qed.

Lemma firstn_Forall {A : Type} (Q : A -> Prop) (n : nat) (l : list A) :
  Forall Q l -> Forall Q (firstn n l).
Proof.
  intros H. revert n. induction H as [|x l Hx Hl IH]; intros [|n]; simpl;
    constructor; auto.
Qed.

(** The pieces of a scan are made of characters of the text. *)
Lemma scan_Forall (Q : ascii -> Prop) (r : regex) :
  forall s skip,
    Forall Q s ->
    Forall (fun p => match p with Out c => Q c | Hit m => Forall Q m end)
           (scan r s skip).
Proof.
  induction s as [|c s IH]; intros skip Hs.
  - cbn [scan]. destruct skip; [|constructor].
    destruct (match_at r false []); repeat constructor.
  - assert (Ht : forall rest, Forall Q (taken (c :: s) rest))
      by (intros rest; unfold taken; now apply firstn_Forall).
    inversion Hs; subst.
    cbn [scan]. destruct skip; [|now apply IH].
    destruct (match_at r false (c :: s)) as [rest|].
    + destruct (taken (c :: s) rest) eqn:Et.
      * constructor; [constructor|].
        destruct (match_at r true (c :: s)) as [rest'|];
          constructor; auto.
      * constructor; [rewrite <- Et; apply Ht | now apply IH].
    + constructor; auto.
Qed.

Lemma maskDirectories_Forall (Q : ascii -> Prop) (t : text) :
  Q "X"%char -> Q "/"%char -> Forall Q t -> Forall Q (maskDirectories t).
Proof.
  intros HX Hs Ht. unfold maskDirectories, sub.
  apply Forall_flat_map.
  eapply Forall_impl; [|apply (scan_Forall Q dir_pattern t 0 Ht)].
  intros [c|m] H; [repeat constructor; exact H|].
  apply mask_directory_Forall; try assumption.
  apply normalize_Forall; [|exact Hs].
  intros c Hc _. rewrite Forall_forall in H. now apply H.
Qed.

Lemma replace_all_Forall (Q : ascii -> Prop) (l : list text) :
  Forall Q placeholder -> forall t, Forall Q t -> Forall Q (replace_all l t).
Proof.
  intros HP. induction l as [|p l IH]; intros t Ht; [exact Ht|].
  rewrite replace_all_cons. apply IH. now apply str_replace_Forall.
Qed.

Lemma str_join_cons (sep p : text) (q : text) (ps : list text) :
  str_join sep (p :: q :: ps) = p ++ sep ++ str_join sep (q :: ps).
Proof. reflexivity. Qed.

Lemma last_cons_nonempty {A : Type} (x d : A) (l : list A) :
  l <> [] -> last (x :: l) d = last l d.
Proof. destruct l; [congruence | reflexivity]. Qed.

(** The masked form of a path that begins with a slash: a placeholder for the
    empty first segment, then the other segments. *)
Lemma mask_directory_rooted (run : text) :
  let ps := str_split "/" (map (fun c => if Ascii.eqb c "\" then "/"%char else c) run) in
  mask_directory ("/"%char :: run) =
  placeholder ++ "/"%char ::
    str_join (py "/") (repeat placeholder (length ps - 1) ++ [last ps []]).
Proof.
  intros ps. rewrite mask_directory_eq. cbn [map].
  change (Ascii.eqb "/" "\") with false. cbv iota. cbn [str_split].
  change (Ascii.eqb "/" "/") with true. cbv iota. fold ps.
  pose proof (str_split_nonempty "/"
    (map (fun c => if Ascii.eqb c "\" then "/"%char else c) run)) as Hne.
  fold ps in Hne.
  rewrite last_cons_nonempty by exact Hne.
  destruct ps as [|p ps']; [congruence|].
  cbn [length].
  replace (S (S (length ps')) - 1) with (S (length ps')) by lia.
  replace (S (length ps') - 1) with (length ps') by lia.
  cbn [repeat app].
  destruct (repeat placeholder (length ps') ++ [last (p :: ps') []]) eqn:E.
  - destruct (repeat placeholder (length ps')); discriminate.
  - rewrite str_join_cons. reflexivity.
Qed.

(** A path of masked form is a fixed point of [mask_directory] once a slash
    is put before it. *)
Lemma mask_directory_masked (k : nat) (lst : text) :
  Forall (fun c => c <> "\"%char /\ Ascii.eqb c "/" = false) lst ->
  mask_directory ("/"%char :: str_join (py "/") (repeat placeholder k ++ [lst])) =
  placeholder ++ "/"%char :: str_join (py "/") (repeat placeholder k ++ [lst]).
Proof.
  intros Hl. rewrite mask_directory_rooted.
  assert (Hparts : Forall (fun p => Forall (fun x => Ascii.eqb x "/" = false) p)
                          (repeat placeholder k ++ [lst])).
  { apply Forall_app. split.
    - apply Forall_forall. intros x Hx. apply repeat_spec in Hx. subst x.
      repeat constructor.
    - constructor; [|constructor]. eapply Forall_impl; [|exact Hl]. now intros c [_ H]. }
  rewrite normalize_id.
  - change (py "/") with ["/"%char].
    rewrite str_split_join; [|destruct (repeat placeholder k); discriminate|exact Hparts].
    rewrite length_app, repeat_length, last_last. cbn [length].
    replace (k + 1 - 1) with k by lia. reflexivity.
  - apply str_join_Forall; [repeat constructor; discriminate|].
    apply Forall_app. split.
    + apply Forall_forall. intros x Hx. apply repeat_spec in Hx. subst x.
      repeat constructor; discriminate.
    + constructor; [|constructor]. eapply Forall_impl; [|exact Hl]. now intros c [H _].
Qed.

Lemma path_char_normalized (c : ascii) :
  is_path_char c = true ->
  is_path_char (if Ascii.eqb c "\" then "/"%char else c) = true.
Proof. intros H. destruct (Ascii.eqb c "\"); [reflexivity | exact H]. Qed.

(** A second pass over a masked path that began with a slash puts one more
    placeholder in front of it. *)
Lemma maskDirectories_twice (run : text) :
  run <> [] ->
  Forall (fun c => is_path_char c = true) run ->
  maskDirectories ("/"%char :: run) = mask_directory ("/"%char :: run) /\
  maskDirectories (maskDirectories ("/"%char :: run)) =
  placeholder ++ maskDirectories ("/"%char :: run).
Proof.
  intros Hne Hrun.
  assert (H1 : maskDirectories ("/"%char :: run) = mask_directory ("/"%char :: run)).
  { pose proof (maskDirectories_first_slash [] run [] (Forall_nil _) Hne Hrun
                  (or_introl eq_refl)) as H.
    cbn [app] in H. rewrite app_nil_r in H.
    change (maskDirectories []) with (@nil ascii) in H.
    now rewrite app_nil_r in H. }
  split; [exact H1|]. rewrite H1.
  set (N := map (fun c => if Ascii.eqb c "\" then "/"%char else c) run).
  set (ps := str_split "/" N).
  pose proof (mask_directory_rooted run) as Hm. cbv zeta in Hm. fold N ps in Hm.
  set (R := str_join (py "/") (repeat placeholder (length ps - 1) ++ [last ps []])) in *.
  assert (HN : Forall (fun c => is_path_char c = true /\ c <> "\"%char) N).
  { unfold N. apply Forall_forall. intros x Hx.
    apply in_map_iff in Hx as [c [<- Hc]]. rewrite Forall_forall in Hrun.
    split; [apply path_char_normalized; now apply Hrun|].
    destruct (Ascii.eqb c "\") eqn:E; [discriminate|].
    intros ->. discriminate. }
  assert (Hps : Forall (Forall (fun c => is_path_char c = true /\ c <> "\"%char)) ps)
    by (apply str_split_Forall; exact HN).
  assert (Hsep : Forall (fun p => Forall (fun x => Ascii.eqb x "/" = false) p) ps)
    by apply str_split_sep_free.
  assert (Hps_ne : ps <> []) by apply str_split_nonempty.
  assert (Hlast1 : Forall (fun c => is_path_char c = true /\ c <> "\"%char) (last ps []))
    by (apply last_Forall; [exact Hps | constructor]).
  assert (Hlast2 : Forall (fun x => Ascii.eqb x "/" = false) (last ps []))
    by (apply last_Forall; [exact Hsep | constructor]).
  assert (HR : Forall (fun c => is_path_char c = true) R).
  { unfold R. apply str_join_Forall; [repeat constructor|].
    apply Forall_app. split.
    - apply Forall_forall. intros x Hx. apply repeat_spec in Hx. subst x.
      repeat constructor.
    - constructor; [|constructor]. eapply Forall_impl; [|exact Hlast1]. now intros c [H _]. }
  assert (HRne : R <> []).
  { pose proof (str_join_split "/" N) as J. fold ps in J.
    assert (HNne : N <> []) by (unfold N; destruct run; [congruence | discriminate]).
    unfold R. clear Hm HR. clearbody ps.
    destruct ps as [|p [|q ps']]; [congruence| |].
    - cbn. cbn in J. congruence.
    - cbn [length]. replace (S (S (length ps')) - 1) with (S (length ps')) by lia.
      cbn [repeat app]. destruct (repeat placeholder (length ps') ++ [last (p :: q :: ps') []]);
        discriminate. }
  rewrite Hm.
  pose proof (maskDirectories_first_slash placeholder R []) as H2.
  rewrite app_nil_r in H2. rewrite H2; try assumption; [|repeat constructor|now left].
  change (maskDirectories []) with (@nil ascii). rewrite app_nil_r.
  unfold R at 1. rewrite mask_directory_masked; [reflexivity|].
  rewrite Forall_forall in Hlast1, Hlast2. apply Forall_forall. intros c Hc.
  split; [now apply Hlast1 | now apply Hlast2].
Qed.

(** ** Path names and suffixes *)

Lemma rfind_app (c : ascii) (a b : text) :
  Forall (fun x => Ascii.eqb x c = false) b ->
  rfind c (a ++ c :: b) = Some (length a).
Proof.
  intros Hb.
  assert (Hn : rfind c b = None).
  { induction Hb as [|x b Hx Hb IH]; [reflexivity|]. simpl. now rewrite IH, Hx. }
  induction a as [|x a IH]; simpl.
  - now rewrite Hn, Ascii.eqb_refl.
  - now rewrite IH.
Qed.

Lemma rfind_Some (c : ascii) (s : text) (i : nat) :
  rfind c s = Some i ->
  exists a b, s = a ++ c :: b /\ length a = i /\
              Forall (fun x => Ascii.eqb x c = false) b.
Proof.
  revert i. induction s as [|x s IH]; intros i H; [discriminate|].
  simpl in H. destruct (rfind c s) as [j|] eqn:E.
  - injection H as <-. destruct (IH j eq_refl) as [a [b [-> [Hl Hb]]]].
    exists (x :: a), b. simpl. auto.
  - destruct (Ascii.eqb x c) eqn:Ex; [|discriminate]. injection H as <-.
    apply Ascii.eqb_eq in Ex. subst x. exists [], s. repeat split.
    clear IH. induction s as [|y s IH]; [constructor|].
    simpl in E. destruct (rfind c s); [discriminate|].
    destruct (Ascii.eqb y c) eqn:Ey; [discriminate|]. constructor; auto.
Qed.

Lemma skipn_length_app {A : Type} (a b : list A) : skipn (length a) (a ++ b) = b.
Proof. induction a; simpl; auto. Qed.

(** A suffix is empty, or it is what follows a non-empty stem in the name: a
    dot and at least one character, none of them a dot. *)
Lemma suffix_spec (p : text) :
  suffix p = [] \/
  exists stem x,
    path_name p = stem ++ "."%char :: x /\ suffix p = "."%char :: x /\
    stem <> [] /\ x <> [] /\ Forall (fun c => Ascii.eqb c "." = false) x.
Proof.
  unfold suffix. destruct (rfind "." (path_name p)) as [i|] eqn:E; [|now left].
  apply rfind_Some in E as [a [b [En [Hl Hb]]]].
  destruct (Nat.ltb 0 i && Nat.ltb i (length (path_name p) - 1)) eqn:C; [|now left].
  right. apply andb_prop in C as [C1 C2].
  apply Nat.ltb_lt in C1, C2. rewrite En, length_app in C2. simpl in C2.
  exists a, b. rewrite En. subst i. rewrite skipn_length_app.
  repeat split; auto.
  - intros ->. simpl in C1. lia.
  - intros ->. simpl in C2. lia.
Qed.

Lemma suffix_of_name (p stem x : text) :
  path_name p = stem ++ "."%char :: x ->
  stem <> [] -> x <> [] -> Forall (fun c => Ascii.eqb c "." = false) x ->
  suffix p = "."%char :: x.
Proof.
  intros En Hs Hx Hd. unfold suffix. rewrite En, rfind_app by exact Hd.
  rewrite length_app. cbn [length].
  assert (C : Nat.ltb 0 (length stem) &&
              Nat.ltb (length stem) (length stem + S (length x) - 1) = true).
  { apply andb_true_intro. split; apply Nat.ltb_lt.
    - destruct stem; [congruence | simpl; lia].
    - destruct x; [congruence | simpl; lia]. }
  rewrite C. apply skipn_length_app.
Qed.

Lemma last_filter {A : Type} (f : A -> bool) (l : list A) (x d : A) :
  f x = true -> last (filter f (l ++ [x])) d = x.
Proof.
  intros Hx. rewrite filter_app. simpl. rewrite Hx. apply last_last.
Qed.

Lemma str_split_app_sep (c : ascii) (d n : text) :
  str_split c (d ++ c :: n) = str_split c d ++ str_split c n.
Proof.
  induction d as [|x d IH]; simpl.
  - now rewrite Ascii.eqb_refl.
  - rewrite IH. destruct (Ascii.eqb x c); [reflexivity|].
    pose proof (str_split_nonempty c d) as Hne.
    destruct (str_split c d) as [|q qs]; [congruence | reflexivity].
Qed.

(** The name of a path that ends with a slash and a file name. *)
Lemma path_name_file (d n : text) :
  Forall (fun x => Ascii.eqb x "/" = false) n ->
  n <> [] -> n <> py "." ->
  path_name (d ++ "/"%char :: n) = n /\ path_name n = n.
Proof.
  intros Hn Hne Hdot.
  assert (Hf : negb (text_eqb n []) && negb (text_eqb n (py ".")) = true).
  { apply andb_true_intro. split; apply negb_true_iff.
    - destruct (text_eqb n []) eqn:E; [|reflexivity]. apply text_eqb_eq in E. congruence.
    - destruct (text_eqb n (py ".")) eqn:E; [|reflexivity]. apply text_eqb_eq in E. congruence. }
  unfold path_name. split.
  - rewrite str_split_app_sep, (str_split_one "/" n Hn).
    now apply last_filter.
  - rewrite (str_split_one "/" n Hn).
    exact (last_filter _ [] n [] Hf).
Qed.

Lemma mem_supported (ext : text) :
  mem ext [py ".txt"; py ".md"] || text_eqb ext (py ".pdf") ||
  mem ext [py ".html"; py ".htm"] = true <-> In ext supported.
Proof.
  unfold supported. rewrite !orb_true_iff, !mem_In, text_eqb_eq. simpl.
  intuition congruence.
Qed.

Lemma supported_shape (ext : text) :
  In ext supported ->
  exists x, ext = "."%char :: x /\ x <> [] /\
            Forall (fun c => Ascii.eqb c "." = false) x.
Proof.
  unfold supported. simpl.
  intros [<-|[<-|[<-|[<-|[<-|[]]]]]]; eexists; (split; [reflexivity|]);
    (split; [discriminate | repeat constructor]).
Qed.

Lemma key_in_In (k : string) (l : list string) : key_in k l = true <-> In k l.
Proof.
  unfold key_in. rewrite existsb_exists. split.
  - intros [x [Hx E]]. apply String.eqb_eq in E. now subst.
  - intros H. exists k. split; [exact H | apply String.eqb_refl].
Qed.

Lemma letter_not_slash (l : ascii) :
  is_letter l = true -> Ascii.eqb l "/" = false /\ Ascii.eqb l "\" = false.
Proof.
  destruct l as [[] [] [] [] [] [] [] []]; vm_compute; intros H;
    try discriminate H; split; reflexivity.
Qed.

Lemma getIDInfo_no_digit_no_at :
  forall (t : text) (types : list string),
    Forall (fun c => is_digit c = false /\ is_char "@" c = false) t ->
    getIDInfo t types = [].
Proof.
  intros t types Ht.
  destruct (getIDInfo t types) as [|m ms] eqn:E; [reflexivity|]. exfalso.
  assert (Hm : In m (getIDInfo t types)) by (rewrite E; now left).
  assert (Hsub : forall pre post, t = pre ++ m ++ post ->
                 Forall (fun c => is_digit c = false /\ is_char "@" c = false) m).
  { intros pre post ->. apply Forall_app in Ht as [_ Ht].
    now apply Forall_app in Ht as [Ht _]. }
  apply getIDInfo_In in Hm as [Hm|[Hm|Hm]];
    apply findall_found in Hm as [pre [post [_ [Ht' [Hm _]]]]];
    specialize (Hsub pre post Ht').
  - apply phone_match_digit in Hm.
    destruct (Forall_Exists_contra _ _ _ Hsub Hm) as [c [[H1 _] H2]]. congruence.
  - apply email_match_shape in Hm as [l [d [tld [-> _]]]].
    apply Forall_app in Hsub as [_ Hsub]. inversion Hsub as [|? ? [_ H] _]. discriminate H.
  - apply ssn_match_shape in Hm as [a [b [c [d [e [f [g [h [i [-> Hd]]]]]]]]]].
    inversion Hsub as [|? ? [H _] _]. cbn [forallb] in Hd.
    apply andb_prop in Hd as [Hd _]. congruence.
Qed.

(** ** Finding an e-mail address *)

(** A repetition fails when the continuation refuses every text it can be
    given. *)
Lemma rep_all_fail (p : ascii -> bool) (k : text -> option text) (rest : text) :
  (rest = [] \/ exists c rest', rest = c :: rest' /\ p c = false) ->
  forall b,
    Forall (fun c => p c = true) b ->
    (forall b1 b2, b = b1 ++ b2 -> k (b2 ++ rest) = None) ->
    rep p 0 None (b ++ rest) k = None.
Proof.
  intros Hrest. induction b as [|y b IH]; intros Hb Hk.
  - cbn [app]. specialize (Hk [] [] eq_refl). cbn [app] in Hk.
    destruct Hrest as [-> | [c [rest' [-> Hc]]]]; [exact Hk|].
    cbn [rep]. now rewrite Hc.
  - inversion Hb; subst.
    change ((y :: b) ++ rest) with (y :: (b ++ rest)). cbn [rep pred dec_bound may_take].
    rewrite H1. cbn [andb].
    rewrite IH; [|assumption|].
    + exact (Hk [] (y :: b) eq_refl).
    + intros b1 b2 ->. exact (Hk (y :: b1) b2 eq_refl).
Qed.

(** The longest repetition the continuation accepts is the answer. *)
Lemma rep_first_success (p : ascii -> bool) (k : text -> option text)
    (rest res : text) :
  (rest = [] \/ exists c rest', rest = c :: rest' /\ p c = false) ->
  forall b,
    Forall (fun c => p c = true) b ->
    (forall b1 b2, b = b1 ++ b2 -> b1 <> [] -> k (b2 ++ rest) = None) ->
    k (b ++ rest) = Some res ->
    forall a lo,
      Forall (fun c => p c = true) a -> lo <= length a ->
      rep p lo None (a ++ b ++ rest) k = Some res.
Proof.
  intros Hrest b Hb Hfail Hk. induction a as [|x a IH]; intros lo Ha Hlo.
  - simpl in Hlo. assert (lo = 0) as -> by lia. cbn [app].
    destruct b as [|y b].
    + cbn [app] in *. destruct Hrest as [-> | [c [rest' [-> Hc]]]]; [exact Hk|].
      cbn [rep]. now rewrite Hc.
    + inversion Hb; subst.
      change ((y :: b) ++ rest) with (y :: (b ++ rest)) in *.
      cbn [rep pred dec_bound may_take]. rewrite H1. cbn [andb].
      rewrite (rep_all_fail p k rest Hrest b); [exact Hk | assumption |].
      intros b1 b2 ->. apply (Hfail (y :: b1) b2); [reflexivity | discriminate].
  - inversion Ha; subst.
    change ((x :: a) ++ b ++ rest) with (x :: (a ++ b ++ rest)).
    cbn [rep dec_bound may_take]. rewrite H1. cbn [andb].
    rewrite IH; [reflexivity | assumption | simpl in Hlo; lia].
Qed.

(** A bounded repetition takes a whole run that fits in its bounds. *)
Lemma rep_greedy_bounded (p : ascii -> bool) (k : text -> option text)
    (rest res : text) :
  (rest = [] \/ exists c rest', rest = c :: rest' /\ p c = false) ->
  k rest = Some res ->
  forall run lo h,
    Forall (fun c => p c = true) run -> lo <= length run -> length run <= h ->
    rep p lo (Some h) (run ++ rest) k = Some res.
Proof.
  intros Hrest Hk. induction run as [|c run IH]; intros lo h Hrun Hlo Hh.
  - simpl in Hlo. assert (lo = 0) as -> by lia. cbn [app].
    destruct Hrest as [-> | [c [rest' [-> Hc]]]]; [exact Hk|].
    cbn [rep]. now rewrite Hc.
  - inversion Hrun; subst.
    change ((c :: run) ++ rest) with (c :: (run ++ rest)).
    destruct h as [|h]; [simpl in Hh; lia|].
    cbn [rep may_take dec_bound pred]. rewrite H1. cbn [andb].
    rewrite IH; [reflexivity | assumption | simpl in Hlo; lia | simpl in Hh; lia].
Qed.

Lemma domain_char_cases (c : ascii) :
  is_email_domain c = false -> is_letter c = false /\ is_char "." c = false.
Proof.
  unfold is_email_domain. intros H.
  apply orb_false_elim in H as [H H3]. apply orb_false_elim in H as [H H2].
  apply orb_false_elim in H as [H H1]. split; assumption.
Qed.

(** An address at the head of a text, followed by nothing or by a character
    that cannot be in a domain, is matched as a whole. *)
Lemma email_match_at (l d tld post : text) :
  l <> [] -> Forall (fun c => is_email_local c = true) l ->
  d <> [] -> Forall (fun c => is_email_domain c = true) d ->
  Forall (fun c => is_letter c = true) tld -> 2 <= length tld <= 4 ->
  (post = [] \/ exists c post', post = c :: post' /\ is_email_domain c = false) ->
  match_at email_pattern false ((l ++ "@"%char :: d ++ "."%char :: tld) ++ post) =
  Some post.
Proof.
  intros Hl Hlc Hd Hdc Htc Hlen Hpost.
  replace ((l ++ "@"%char :: d ++ "."%char :: tld) ++ post)
    with (l ++ "@"%char :: (d ++ ("."%char :: tld) ++ post))
    by (rewrite <- app_assoc; cbn [app]; rewrite <- app_assoc; reflexivity).
  unfold match_at, email_pattern. cbn [andb exec Chr].
  assert (Hpost_letter : post = [] \/ exists c post', post = c :: post' /\ is_letter c = false).
  { destruct Hpost as [->|[c [post' [-> Hc]]]]; [now left|].
    right. exists c, post'. split; [reflexivity | now apply domain_char_cases]. }
  assert (Hpost_dot : forall k', exec (Cls (is_char ".")) post k' = None).
  { intros k'. cbn [exec]. destruct Hpost as [->|[c [post' [-> Hc]]]]; [reflexivity|].
    apply domain_char_cases in Hc as [_ Hc]. now rewrite Hc. }
  apply rep_greedy; [right; exists "@"%char; eexists; split; reflexivity
                    | | exact Hlc | destruct l; [congruence | simpl; lia]].
  change (is_char "@" "@") with true. cbv iota.
  apply (rep_first_success is_email_domain _ post post Hpost ("."%char :: tld)).
  - constructor; [reflexivity|]. eapply Forall_impl; [|exact Htc].
    intros c Hc. unfold is_email_domain. now rewrite Hc.
  - intros b1 b2 E Hb1. destruct b1 as [|x b1]; [congruence|].
    injection E as _ E.
    destruct b2 as [|y b2]; [apply Hpost_dot|].
    cbn [app]. 
    assert (Hy : is_letter y = true).
    { rewrite E in Htc. apply Forall_app in Htc as [_ Htc]. now inversion Htc. }
    assert (is_char "." y = false).
    { destruct (is_char "." y) eqn:Ey; [|reflexivity].
      apply is_char_eq in Ey. subst y. discriminate Hy. }
    now rewrite H.
  - cbn [app]. change (is_char "." ".") with true. cbv iota.
    apply rep_greedy_bounded; try assumption; [reflexivity | apply Hlen | apply Hlen].
  - exact Hdc.
  - destruct d; [congruence | simpl; lia].
Qed.

(** A local part followed by [@] cannot start inside a text without [@]
    whose last character is outside the local-part class. *)
Lemma local_part_clash (l : text) :
  forall u x y,
    Forall (fun c => is_email_local c = true) l ->
    ~ In "@"%char u ->
    (forall u' z, u = u' ++ [z] -> is_email_local z = false) ->
    u <> [] ->
    l ++ "@"%char :: x = u ++ y -> False.
Proof.
  induction l as [|a l IH]; intros u x y Hl Hat Hlast Hu E.
  - destruct u as [|c u]; [congruence|]. injection E as E _. apply Hat. now left.
  - destruct u as [|c u]; [congruence|]. injection E as Ec E. subst c.
    inversion Hl as [|? ? Ha Hl']; subst.
    destruct u as [|c u].
    + specialize (Hlast [] a eq_refl). congruence.
    + apply (IH (c :: u) x y); auto.
      * intros H. apply Hat. now right.
      * intros u' z Eu. apply (Hlast (a :: u') z). now rewrite Eu.
      * discriminate.
Qed.

Lemma email_scan_before (pre s : text) :
  ~ In "@"%char pre ->
  (forall pre' z, pre = pre' ++ [z] -> is_email_local z = false) ->
  scan email_pattern (pre ++ s) 0 = map Out pre ++ scan email_pattern s 0.
Proof.
  induction pre as [|c pre IH]; intros Hat Hlast; [reflexivity|].
  change ((c :: pre) ++ s) with (c :: (pre ++ s)).
  rewrite scan_miss.
  - cbn [map app]. f_equal. apply IH.
    + intros H. apply Hat. now right.
    + intros pre' z E. apply (Hlast (c :: pre') z). now rewrite E.
  - destruct (match_at email_pattern false (c :: pre ++ s)) as [rest|] eqn:E;
      [|reflexivity].
    exfalso. apply match_at_matches in E as [m [E [_ Hm]]].
    apply email_match_shape in Hm as [l [d [tld [-> [_ [Hl _]]]]]].
    apply (local_part_clash l (c :: pre) (d ++ "."%char :: tld ++ rest) s Hl Hat Hlast);
      [discriminate|].
    change ((c :: pre) ++ s) with (c :: pre ++ s). rewrite E.
    rewrite <- app_assoc. cbn [app]. rewrite <- app_assoc. reflexivity.
Qed.

Lemma hits_app (a b : list piece) : hits (a ++ b) = hits a ++ hits b.
Proof. unfold hits. apply flat_map_app. Qed.

Lemma email_findall (pre l d tld post : text) :
  ~ In "@"%char pre ->
  (forall pre' z, pre = pre' ++ [z] -> is_email_local z = false) ->
  l <> [] -> Forall (fun c => is_email_local c = true) l ->
  d <> [] -> Forall (fun c => is_email_domain c = true) d ->
  Forall (fun c => is_letter c = true) tld -> 2 <= length tld <= 4 ->
  (post = [] \/ exists c post', post = c :: post' /\ is_email_domain c = false) ->
  findall email_pattern (pre ++ (l ++ "@"%char :: d ++ "."%char :: tld) ++ post) =
  (l ++ "@"%char :: d ++ "."%char :: tld) :: findall email_pattern post.
Proof.
  intros Hat Hlast Hl Hlc Hd Hdc Htc Hlen Hpost. unfold findall.
  rewrite email_scan_before by assumption.
  rewrite hits_app, hits_map_out. cbn [app].
  rewrite scan_hit; [reflexivity | destruct l; [congruence | discriminate] |].
  now apply email_match_at.
Qed.

Lemma getIDInfo_email (t : text) (types : list string) (m : text) :
  In "EMAIL"%string types -> In m (findall email_pattern t) ->
  In m (getIDInfo t types).
Proof.
  intros Hk Hm. apply key_in_In in Hk.
  unfold getIDInfo, patterns. cbn [fold_left fst snd]. rewrite Hk.
  destruct (key_in "PHONE" types), (key_in "SSN" types);
    rewrite ?set_update_In; simpl; tauto.
Qed.

(** ** The shape of a telephone number *)

Lemma phone_match_shape (m post : text) :
  matches phone_pattern m post ->
  exists pre a b c s d e f g ext,
    m = pre ++ [a; b; c; s; d; e; f; g] ++ ext /\
    forallb is_digit [a; b; c; d; e; f; g] = true /\
    (is_space s || is_char "-" s || is_char "." s) = true /\
    length pre <= 6.
Proof.
  unfold phone_pattern. cbn [matches].
  intros [m1 [m2 [-> [H1 [m3 [m4 [-> [H2 [m5 [m6 [-> [H3 [m7 [m8 [-> [H4
          [m9 [m10 [-> [H5 _]]]]]]]]]]]]]]]]]]]].
  unfold digits in H3, H5. cbn [matches] in H3, H5.
  destruct H3 as [F3 [L3 U3]]. destruct H5 as [F5 [L5 U5]].
  destruct m5 as [|a [|b [|c [|? ?]]]]; simpl in L3, U3; try lia.
  destruct m9 as [|d [|e [|f [|g [|? ?]]]]]; simpl in L5, U5; try lia.
  assert (Hs : exists s, m7 = [s] /\ (is_space s || is_char "-" s || is_char "." s) = true).
  { unfold sep, Chr in H4. cbn [matches] in H4.
    destruct H4 as [[s [-> Hs]]|[[s [-> Hs]]|[s [-> Hs]]]]; exists s; split; try reflexivity;
      rewrite Hs; rewrite ?orb_true_r; reflexivity. }
  destruct Hs as [s [-> Hs]].
  assert (Hpre : length (m1 ++ m3) <= 6).
  { rewrite length_app.
    assert (length m1 <= 5).
    { unfold Opt, digits, Chr in H1. cbn [matches] in H1.
      destruct H1 as [[[_ [_ U]]|H1]| ->]; [lia | | simpl; lia].
      destruct H1 as [x [y [-> [[c1 [-> _]] [z [w [-> [[_ [_ U]] [c2 [-> _]]]]]]]]]].
      rewrite !length_app. simpl. lia. }
    assert (length m3 <= 1).
    { unfold Opt, sep, Chr in H2. cbn [matches] in H2.
      destruct H2 as [[[x [-> _]]|[[x [-> _]]|[x [-> _]]]]| ->]; simpl; lia. }
    lia. }
  exists (m1 ++ m3), a, b, c, s, d, e, f, g, m10.
  split; [rewrite <- !app_assoc; reflexivity|].
  split; [|split; assumption].
  repeat match goal with
         | H' : Forall _ (_ :: _) |- _ => inversion H' as [|? ? ? ?]; clear H'; subst
         end.
  cbn [forallb].
  repeat match goal with H : is_digit _ = true |- _ => rewrite H; clear H end.
  reflexivity.
Qed.

(** ** Telephone numbers *)












Section PhoneParts.

Variable R : regex.
Variable k : text -> option text.






End PhoneParts.







(** ** The language of the PHONE pattern *)








(** ** The empty entity *)

Lemma str_join_nil_iff (sep : text) (ws : list text) :
  sep <> [] -> (str_join sep ws = [] <-> ws = [] \/ ws = [[]]).
Proof.
  intros Hsep. destruct ws as [|w [|w' ws]].
  - split; auto.
  - cbn [str_join]. split.
    + intros ->. now right.
    + intros [H|H]; [discriminate H | now injection H].
  - cbn [str_join]. split.
    + intros H. apply (f_equal (@length ascii)) in H.
      rewrite !length_app in H. destruct sep; [congruence | simpl in H; lia].
    + intros [H|H]; discriminate H.
Qed.

(** The entity of a subtree is the empty string when the subtree has no leaf,
    or one leaf with an empty token, and only then. *)
Lemma entity_of_nil_iff (subtree : Tree) :
  entity_of subtree = [] <->
  leaves subtree = [] \/ exists tag, leaves subtree = [([], tag)].
Proof.
  unfold entity_of. rewrite str_join_nil_iff by discriminate.
  destruct (leaves subtree) as [|[w g] [|wt l]]; cbn [map fst].
  - split; auto.
  - split.
    + intros [H|H]; [discriminate H|]. injection H as ->. right. now exists g.
    + intros [H|[tag H]]; [discriminate H|]. injection H as -> _. now right.
  - split.
    + intros [H|H]; discriminate H.
    + intros [H|[tag H]]; discriminate H.
Qed.

(** ** Printing and writing *)

Section FilesFacts.

Variable classify : text -> result Tree.
Variable exclusions_file : option (list text).
Variable iter_order : list text -> list text.
Variable read_text : text -> text -> option text.
Variable pdf_text : text -> option text.
Variable html_text : text -> text -> option text.
Variable stdout_takes : list text -> text -> bool.
Variable can_open : text -> bool.
Variable can_write : text -> text -> bool.

(** A guarded [print] either returns, leaving the file operations as they
    were, or raises [PrintError] without having printed. *)
Lemma when_print_inv (verbose : bool) (line : text) (w w' : world) (o : outcome unit) :
  when verbose (print stdout_takes line) w = (w', o) ->
  (o = Done tt /\ file_ops w' = file_ops w /\ (verbose = false -> w' = w)) \/
  (verbose = true /\ o = Raise PrintError /\ w' = w).
Proof.
  destruct verbose; cbn [when].
  - unfold print. destruct (stdout_takes (stdout w) line); intros H; injection H as <- <-.
    + left. split; [reflexivity|]. split; [reflexivity | discriminate].
    + right. auto.
  - unfold ret. intros H. injection H as <- <-. left. auto.
Qed.

Lemma when_print_taken (verbose : bool) (line : text) (w w' : world) (o : outcome unit) :
  (forall printed l, stdout_takes printed l = true) ->
  when verbose (print stdout_takes line) w = (w', o) ->
  o = Done tt /\ file_ops w' = file_ops w.
Proof.
  intros Hall. destruct verbose; cbn [when].
  - unfold print. rewrite Hall. intros H. injection H as <- <-. auto.
  - unfold ret. intros H. injection H as <- <-. auto.
Qed.

(** [cleanString] with its prints: without [verbose] it returns what
    [cleanString] returns, nothing is printed, and [ensure_nltk_data()] is
    the one call that can change files. *)
Lemma cleanString_io_quiet (t : text) (piiNE piiNums : option (list string)) (w : world) :
  cleanString_io classify exclusions_file iter_order stdout_takes t false piiNE piiNums w =
  (World (stdout w) (file_ops w ++ [Download]),
   of_result (cleanString classify exclusions_file iter_order t false piiNE piiNums)).
Proof.
  unfold cleanString_io, cleanString, bind, when, ret, log, raise.
  destruct (getNE classify exclusions_file t
              (or_default piiNE ["PERSON"; "ORGANIZATION"; "GPE"; "LOCATION"]%string));
    reflexivity.
Qed.

(** With [verbose] it returns the same, unless a [print] raises. *)
Lemma cleanString_io_inv (t : text) (verbose : bool)
    (piiNE piiNums : option (list string)) (w w' : world) (o : outcome text) :
  cleanString_io classify exclusions_file iter_order stdout_takes
    t verbose piiNE piiNums w = (w', o) ->
  (o = of_result (cleanString classify exclusions_file iter_order t verbose piiNE piiNums) /\
   file_ops w' = file_ops w ++ [Download]) \/
  (verbose = true /\ o = Raise PrintError /\
   (file_ops w' = file_ops w \/ file_ops w' = file_ops w ++ [Download])).
Proof.
  unfold cleanString_io, cleanString, bind.
  destruct (when verbose _ w) as [w1 o1] eqn:E1.
  apply when_print_inv in E1 as [[-> [F1 _]]|[Hv [-> ->]]].
  - unfold log. 
    destruct (getNE classify exclusions_file t
                (or_default piiNE ["PERSON"; "ORGANIZATION"; "GPE"; "LOCATION"]%string))
      as [ents|e]; cbn [of_result].
    + destruct (when verbose _ _) as [w2 o2] eqn:E2.
      apply when_print_inv in E2 as [[-> [F2 _]]|[Hv [-> ->]]].
      * unfold ret. intros H. injection H as <- <-. left. split; [reflexivity|].
        rewrite F2. cbn [file_ops]. now rewrite F1.
      * intros H. injection H as <- <-. right. cbn [file_ops]. rewrite F1. auto.
    + unfold raise. intros H. injection H as <- <-. left. cbn [file_ops].
      now rewrite F1.
  - intros H. injection H as <- <-. right. auto.
Qed.

Lemma cleanString_io_taken (t : text) (verbose : bool)
    (piiNE piiNums : option (list string)) (w w' : world) (o : outcome text) :
  (forall printed l, stdout_takes printed l = true) ->
  cleanString_io classify exclusions_file iter_order stdout_takes
    t verbose piiNE piiNums w = (w', o) ->
  o = of_result (cleanString classify exclusions_file iter_order t verbose piiNE piiNums) /\
  file_ops w' = file_ops w ++ [Download].
Proof.
  intros Hall. unfold cleanString_io, cleanString, bind.
  destruct (when verbose _ w) as [w1 o1] eqn:E1.
  apply (when_print_taken _ _ _ _ _ Hall) in E1 as [-> F1].
  unfold log.
  destruct (getNE classify exclusions_file t
              (or_default piiNE ["PERSON"; "ORGANIZATION"; "GPE"; "LOCATION"]%string))
    as [ents|e]; cbn [of_result].
  - destruct (when verbose _ _) as [w2 o2] eqn:E2.
    apply (when_print_taken _ _ _ _ _ Hall) in E2 as [-> F2].
    unfold ret. intros H. injection H as <- <-. split; [reflexivity|].
    rewrite F2. cbn [file_ops]. now rewrite F1.
  - unfold raise. intros H. injection H as <- <-. cbn [file_ops]. now rewrite F1.
Qed.

(** [writeFile] opens, then writes. *)
Lemma writeFile_inv (t path : text) (w w' : world) (o : outcome unit) :
  writeFile can_open can_write t path w = (w', o) ->
  stdout w' = stdout w /\
  (o = Done tt /\ file_ops w' = file_ops w ++ [Opened path; Wrote path t] \/
   o = Raise WriteError /\ file_ops w' = file_ops w ++ [Opened path] \/
   o = Raise OpenError /\ file_ops w' = file_ops w).
Proof.
  unfold writeFile, bind, log, raise.
  destruct (can_open path); [|intros H; injection H as <- <-; auto].
  destruct (can_write path t); intros H; injection H as <- <-;
    cbn [stdout file_ops].
  - split; [reflexivity|]. left. split; [reflexivity|].
    now rewrite <- app_assoc.
  - auto.
Qed.

Lemma writeFile_same (t path : text) (w1 w2 : world) :
  file_ops w1 = file_ops w2 ->
  snd (writeFile can_open can_write t path w1) =
    snd (writeFile can_open can_write t path w2) /\
  file_ops (fst (writeFile can_open can_write t path w1)) =
    file_ops (fst (writeFile can_open can_write t path w2)).
Proof.
  intros E. unfold writeFile, bind, log, raise.
  destruct (can_open path); [|split; [reflexivity | exact E]].
  destruct (can_write path t); cbn [fst snd file_ops]; rewrite E; split; reflexivity.
Qed.

(** [extract] raises for an unsupported type or from a reader. *)
Lemma extract_raises (filePath encoding : text) (e : file_exn) :
  extract read_text pdf_text html_text filePath encoding = Raise e ->
  e = ReadError \/ e = ValueError (suffix filePath).
Proof.
  unfold extract, of_read.
  destruct (mem (suffix filePath) [py ".txt"; py ".md"]);
    [destruct (read_text filePath encoding); intros H; [discriminate H|injection H as <-; auto]|].
  destruct (text_eqb (suffix filePath) (py ".pdf"));
    [destruct (pdf_text filePath); intros H; [discriminate H|injection H as <-; auto]|].
  destruct (mem (suffix filePath) [py ".html"; py ".htm"]);
    [destruct (html_text filePath encoding); intros H; [discriminate H|injection H as <-; auto]|].
  intros H. injection H as <-. auto.
Qed.

(** [cleanFile] without [verbose]. *)
Lemma cleanFile_quiet (filePath outputPath : text)
    (piiNE piiNums : option (list string)) (w : world) :
  cleanFile classify exclusions_file iter_order read_text pdf_text html_text
    stdout_takes can_open can_write filePath outputPath false piiNE piiNums w =
  match extract read_text pdf_text html_text filePath (py "utf-8") with
  | Raise e => (w, Raise e)
  | Done t =>
      let w1 := World (stdout w) (file_ops w ++ [Download]) in
      match cleanString classify exclusions_file iter_order t false piiNE piiNums with
      | Err e => (w1, Raise (Raised e))
      | Ok cleaned => writeFile can_open can_write cleaned outputPath w1
      end
  end.
Proof.
  unfold cleanFile. cbn [when]. unfold bind at 1. unfold ret at 1.
  unfold bind at 1. unfold lift.
  destruct (extract read_text pdf_text html_text filePath (py "utf-8")) as [t|e];
    [|reflexivity].
  unfold bind at 1. unfold ret at 1. unfold bind at 1.
  rewrite cleanString_io_quiet.
  destruct (cleanString classify exclusions_file iter_order t false piiNE piiNums);
    reflexivity.
Qed.

(** With [verbose] the run is that of the quiet call, unless a [print]
    raises; then it stops with the files as the quiet call has them at that
    point. *)
Lemma cleanFile_inv (filePath outputPath : text) (verbose : bool)
    (piiNE piiNums : option (list string)) (w w' : world) (o : outcome unit) :
  let quiet :=
    cleanFile classify exclusions_file iter_order read_text pdf_text html_text
      stdout_takes can_open can_write filePath outputPath false piiNE piiNums w in
  cleanFile classify exclusions_file iter_order read_text pdf_text html_text
    stdout_takes can_open can_write filePath outputPath verbose piiNE piiNums w = (w', o) ->
  (o = snd quiet /\ file_ops w' = file_ops (fst quiet)) \/
  (verbose = true /\ o = Raise PrintError /\
   (file_ops w' = file_ops w \/
    (exists t, extract read_text pdf_text html_text filePath (py "utf-8") = Done t) /\
    file_ops w' = file_ops w ++ [Download])).
Proof.
  intros quiet. subst quiet. rewrite cleanFile_quiet.
  unfold cleanFile. unfold bind at 1.
  destruct (when verbose _ w) as [w1 o1] eqn:E1.
  apply when_print_inv in E1 as [[-> [F1 _]]|[Hv [-> ->]]];
    [|intros H; injection H as <- <-; right; auto].
  unfold bind at 1. unfold lift.
  destruct (extract read_text pdf_text html_text filePath (py "utf-8")) as [t|e];
    [|intros H; injection H as <- <-; left; cbn [fst snd]; auto].
  unfold bind at 1.
  destruct (when verbose _ w1) as [w2 o2] eqn:E2.
  apply when_print_inv in E2 as [[-> [F2 _]]|[Hv [-> ->]]];
    [|intros H; injection H as <- <-; right; auto].
  unfold bind at 1.
  destruct (cleanString_io _ _ _ _ _ _ _ _ w2) as [w3 o3] eqn:E3.
  apply cleanString_io_inv in E3 as [[-> F3]|[Hv [-> F3]]].
  - change (cleanString classify exclusions_file iter_order t verbose piiNE piiNums)
      with (cleanString classify exclusions_file iter_order t false piiNE piiNums).
    destruct (cleanString classify exclusions_file iter_order t false piiNE piiNums)
      as [cleaned|e]; cbn [of_result].
    + unfold bind at 1.
      destruct (when verbose _ w3) as [w4 o4] eqn:E4.
      apply when_print_inv in E4 as [[-> [F4 _]]|[Hv [-> ->]]].
      * intros H. left.
        assert (E : file_ops w4 =
                    file_ops (World (stdout w) (file_ops w ++ [Download])))
          by (cbn [file_ops]; now rewrite F4, F3, F2, F1).
        destruct (writeFile_same cleaned outputPath _ _ E) as [Ho Hf].
        rewrite H in Ho, Hf. cbn [fst snd] in Ho, Hf. cbv zeta. auto.
      * intros H. injection H as <- <-. right. split; [exact Hv|].
        split; [reflexivity|]. right. split; [now exists t|].
        now rewrite F3, F2, F1.
    + intros H. injection H as <- <-. left. cbn [fst snd file_ops].
      split; [reflexivity|]. now rewrite F3, F2, F1.
  - intros H. injection H as <- <-. right. split; [exact Hv|]. split; [reflexivity|].
    destruct F3 as [F3|F3]; [left | right; split; [now exists t|]];
      now rewrite F3, F2, F1.
Qed.

(** When the standard output takes every line, the run is that of the quiet
    call. *)
Lemma cleanFile_taken (filePath outputPath : text) (verbose : bool)
    (piiNE piiNums : option (list string)) (w w' : world) (o : outcome unit) :
  (forall printed l, stdout_takes printed l = true) ->
  let quiet :=
    cleanFile classify exclusions_file iter_order read_text pdf_text html_text
      stdout_takes can_open can_write filePath outputPath false piiNE piiNums w in
  cleanFile classify exclusions_file iter_order read_text pdf_text html_text
    stdout_takes can_open can_write filePath outputPath verbose piiNE piiNums w = (w', o) ->
  o = snd quiet /\ file_ops w' = file_ops (fst quiet).
Proof.
  intros Hall quiet. subst quiet. rewrite cleanFile_quiet.
  unfold cleanFile. unfold bind at 1.
  destruct (when verbose _ w) as [w1 o1] eqn:E1.
  apply (when_print_taken _ _ _ _ _ Hall) in E1 as [-> F1].
  unfold bind at 1. unfold lift.
  destruct (extract read_text pdf_text html_text filePath (py "utf-8")) as [t|e];
    [|intros H; injection H as <- <-; cbn [fst snd]; auto].
  unfold bind at 1.
  destruct (when verbose _ w1) as [w2 o2] eqn:E2.
  apply (when_print_taken _ _ _ _ _ Hall) in E2 as [-> F2].
  unfold bind at 1.
  destruct (cleanString_io _ _ _ _ _ _ _ _ w2) as [w3 o3] eqn:E3.
  apply (cleanString_io_taken _ _ _ _ _ _ _ Hall) in E3 as [-> F3].
  change (cleanString classify exclusions_file iter_order t verbose piiNE piiNums)
    with (cleanString classify exclusions_file iter_order t false piiNE piiNums).
  destruct (cleanString classify exclusions_file iter_order t false piiNE piiNums)
    as [cleaned|e]; cbn [of_result].
  - unfold bind at 1.
    destruct (when verbose _ w3) as [w4 o4] eqn:E4.
    apply (when_print_taken _ _ _ _ _ Hall) in E4 as [-> F4].
    intros H.
    assert (E : file_ops w4 =
                file_ops (World (stdout w) (file_ops w ++ [Download])))
      by (cbn [file_ops]; now rewrite F4, F3, F2, F1).
    destruct (writeFile_same cleaned outputPath _ _ E) as [Ho Hf].
    rewrite H in Ho, Hf. cbn [fst snd] in Ho, Hf. cbv zeta. auto.
  - intros H. injection H as <- <-. cbn [fst snd file_ops].
    split; [reflexivity|]. now rewrite F3, F2, F1.
Qed.

End FilesFacts.

(** * The claims of the specification *)

(** C1 (preservation as the specification states it).  The classifier finds
    the persons [John Smith] and [John]; [john smith] is excluded.  The name
    is not in the PII set, and yet it is not preserved: the replacement of
    [John] rewrites it. *)
Lemma exclusion_counterexample :
  let classify : text -> result Tree :=
    fun _ => Ok (Node "S" [Node "PERSON" [Leaf (py "John") "NNP"; Leaf (py "Smith") "NNP"];
                           Leaf (py "met") "VBD";
                           Node "PERSON" [Leaf (py "John") "NNP"];
                           Leaf (py ".") "."]) in
  getNE classify (Some [py "john smith"]) (py "John Smith met John.")
    ["PERSON"; "ORGANIZATION"; "GPE"; "LOCATION"]%string = Ok [py "John"] /\
  cleanString classify (Some [py "john smith"]) (fun l => l)
    (py "John Smith met John.") false None None = Ok (py "XXXXX Smith met XXXXX.") /\
  occurs_in (py "John Smith") (py "XXXXX Smith met XXXXX.") = false.
Proof. intros classify. subst classify. repeat split; vm_compute; reflexivity. Qed.

(** C1.  Exclusion terms are stripped and lowercased on load and an entity is
    compared in lowercase: an entity whose lowercase form is a loaded term is
    not added to the PII set by [getNE], while every match of [getIDInfo] is
    in the PII set whatever the exclusion list holds.  An occurrence of the
    excluded entity is left as it is by the replacements when no string of
    the PII set overlaps the entity, and then by the whole of [cleanString]
    when the text has neither slash nor backslash.  An e-mail address that is
    an exclusion term is redacted all the same. *)
Theorem exclusion_respected :
  forall (classify : text -> result Tree) (lines : list text)
         (iter_order : list text -> list text)
         (t : text) (verbose : bool) (piiNE piiNums : option (list string))
         (ne subtree : Tree) (line : text),
    let categories := or_default piiNE ["PERSON"; "ORGANIZATION"; "GPE"; "LOCATION"]%string in
    let types := or_default piiNums ["PHONE"; "EMAIL"; "SSN"]%string in
    (forall l, Permutation (iter_order l) l) ->
    classify t = Ok ne ->
    In subtree (subtrees (fun x => key_in (label x) categories) ne) ->
    In line lines ->
    lower (strip line) = lower (entity_of subtree) ->
    (forall x, mem x (load_exclusions lines) = true <->
               exists l, In l lines /\ x = lower (strip l)) /\
    (exists ents,
      getNE classify (Some lines) t categories = Ok ents /\
      ~ In (entity_of subtree) ents /\
      (forall m, In m (getIDInfo t types) -> In m (set_union ents (getIDInfo t types))) /\
      (forall pre post,
          entity_of subtree <> [] ->
          t = pre ++ entity_of subtree ++ post ->
          (forall p, In p (set_union ents (getIDInfo t types)) ->
                     independent p (entity_of subtree) = true) ->
          let order := iter_order (set_union ents (getIDInfo t types)) in
          replace_all order t =
            replace_all order pre ++ entity_of subtree ++ replace_all order post /\
          (slash_free t ->
           cleanString classify (Some lines) iter_order t verbose piiNE piiNums =
           Ok (replace_all order pre ++ entity_of subtree ++ replace_all order post)))) /\
    cleanString (fun _ => Ok (Node "S" [])) (Some [py "a@b.com"]) (fun l => l)
      (py "mail a@b.com") false None None = Ok (py "mail XXXXX").
Proof.
  intros classify lines iter_order t verbose piiNE piiNums ne subtree line
         categories types Hperm Hc Hsub Hline Hlow.
  split; [apply load_exclusions_In|].
  split; [|vm_compute; reflexivity].
  destruct (getNE_In classify lines t categories ne Hc) as [ents [Hget Hents]].
  exists ents. split; [exact Hget|]. split; [|split].
  - intros Hin. apply Hents in Hin as [s' [_ [_ Hmem]]].
    assert (Hm : mem (lower (entity_of subtree)) (load_exclusions lines) = true).
    { apply load_exclusions_In. exists line. split; [exact Hline | now symmetry]. }
    congruence.
  - intros m Hm. apply set_update_In. now right.
  - intros pre post He Ht Hind order.
    assert (Hkeep : replace_all order t =
                    replace_all order pre ++ entity_of subtree ++ replace_all order post).
    { rewrite Ht at 1. apply replace_all_keeps; [exact He|].
      intros p Hp. apply Hind. eapply Permutation_in; [apply Hperm | exact Hp]. }
    split; [exact Hkeep|].
    intros Hslash. unfold cleanString. fold categories. fold types.
    rewrite Hget. cbv zeta. fold order.
    rewrite maskDirectories_slash_free by now apply replace_all_slash_free.
    now rewrite Hkeep.
Qed.

Lemma exclusion_respected_witness :
  let tree :=
    Node "S" [Node "PERSON" [Leaf (py "John") "NNP"; Leaf (py "Smith") "NNP"];
              Leaf (py "joined") "VBD";
              Node "ORGANIZATION" [Leaf (py "Acme") "NNP"];
              Leaf (py ".") "."] in
  let classify : text -> result Tree := fun _ => Ok tree in
  let line := py "  John SMITH" ++ ["010"%char] in
  let t := py "John Smith joined Acme." in
  (forall l : list text, Permutation ((fun l => l) l) l) /\
  classify t = Ok tree /\
  In (Node "PERSON" [Leaf (py "John") "NNP"; Leaf (py "Smith") "NNP"])
     (subtrees (fun x => key_in (label x)
                  ["PERSON"; "ORGANIZATION"; "GPE"; "LOCATION"]%string) tree) /\
  In line [line] /\
  lower (strip line) = lower (py "John Smith") /\
  cleanString classify (Some [line]) (fun l => l) t false None None =
  Ok (py "John Smith joined XXXXX.").
Proof.
  intros tree classify line t.
  assert (Hperm : forall l : list text, Permutation ((fun l => l) l) l)
    by (intros l; apply Permutation_refl).
  assert (Hsub : In (Node "PERSON" [Leaf (py "John") "NNP"; Leaf (py "Smith") "NNP"])
                    (subtrees (fun x => key_in (label x)
                                 ["PERSON"; "ORGANIZATION"; "GPE"; "LOCATION"]%string) tree))
    by (left; reflexivity).
  assert (Hline : In line [line]) by (left; reflexivity).
  assert (Hlow : lower (strip line) = lower (py "John Smith")) by reflexivity.
  split; [exact Hperm|]. split; [reflexivity|]. split; [exact Hsub|].
  split; [exact Hline|]. split; [exact Hlow|].
  destruct (exclusion_respected classify [line] (fun l => l) t false None None tree
              (Node "PERSON" [Leaf (py "John") "NNP"; Leaf (py "Smith") "NNP"]) line
              Hperm eq_refl Hsub Hline Hlow)
    as [_ [[ents [Hget [_ [_ Hkeep]]]] _]].
  assert (Hents : Ok ents = Ok [py "Acme"]) by (rewrite <- Hget; reflexivity).
  injection Hents as ->.
  destruct (Hkeep [] (py " joined Acme.")) as [_ Hclean].
  - discriminate.
  - reflexivity.
  - intros p [<-|[]]. reflexivity.
  - apply Hclean. repeat constructor.
Defined.

(** C2 (the example as the specification gives it).  The masker does not
    turn the path of the example into two placeholders and the file name. *)
Lemma path_example_counterexample :
  maskDirectories (py "Report saved to /home/alice/reports/q1.txt") <>
  py "Report saved to XXXXX/XXXXX/q1.txt".
Proof. vm_compute. discriminate. Qed.

(** C2.  On the text of the example, in which no identifier is found, the
    masker writes one placeholder for every segment before the file name, the
    empty segment before the leading slash included.  For every path,
    [mask_directory] turns backslashes into slashes, splits at the slashes,
    puts the placeholder in place of every segment but the last and joins with
    slashes: joining the segments as they are gives the path back, and the
    segments of the result are placeholders followed by the last segment of
    the path. *)
Theorem path_masking :
  getIDInfo (py "Report saved to /home/alice/reports/q1.txt")
    ["PHONE"; "EMAIL"; "SSN"]%string = [] /\
  maskDirectories (py "Report saved to /home/alice/reports/q1.txt") =
  py "Report saved to XXXXX/XXXXX/XXXXX/XXXXX/q1.txt" /\
  forall path : text,
    let parts :=
      str_split "/" (map (fun c => if Ascii.eqb c "\" then "/"%char else c) path) in
    str_join (py "/") parts =
    map (fun c => if Ascii.eqb c "\" then "/"%char else c) path /\
    mask_directory path =
    str_join (py "/") (repeat placeholder (length parts - 1) ++ [last parts []]) /\
    str_split "/" (mask_directory path) =
    repeat placeholder (length parts - 1) ++ [last parts []].
Proof.
  split; [vm_compute; reflexivity|].
  split; [vm_compute; reflexivity|].
  intros path parts. split; [|split].
  - apply str_join_split.
  - apply mask_directory_eq.
  - apply mask_directory_segments.
Qed.




(** C4.  On a string of shape [###-##-####] the SSN matcher finds the string
    itself when the area number is not 666, not 000 and not in 900-999, the
    group number is not 00 and the serial number is not 0000, and finds
    nothing otherwise; at the head of any text the pattern matches such a
    string under the same condition.  [123-45-6789] is matched, and redacted
    by [cleanString]; [666-12-3456] is matched by no category and comes out of
    [cleanString] as it is (no named entity being found in either text). *)
Theorem ssn_validity_policy :
  forall (classify : text -> result Tree) (exclusions_file : option (list text))
         (iter_order : list text -> list text),
    (forall l, Permutation (iter_order l) l) ->
    getNE classify exclusions_file (py "123-45-6789")
      ["PERSON"; "ORGANIZATION"; "GPE"; "LOCATION"]%string = Ok [] ->
    getNE classify exclusions_file (py "666-12-3456")
      ["PERSON"; "ORGANIZATION"; "GPE"; "LOCATION"]%string = Ok [] ->
    (forall a b c d e f g h i : ascii,
        forallb is_digit [a; b; c; d; e; f; g; h; i] = true ->
        (forall post,
            match_at ssn_pattern false (ssn_shape a b c d e f g h i ++ post) =
            if ssn_policy a b c d e f g h i then Some post else None) /\
        getIDInfo (ssn_shape a b c d e f g h i) ["SSN"%string] =
        if ssn_policy a b c d e f g h i then [ssn_shape a b c d e f g h i] else []) /\
    getIDInfo (py "123-45-6789") ["SSN"%string] = [py "123-45-6789"] /\
    cleanString classify exclusions_file iter_order (py "123-45-6789") false None None =
      Ok (py "XXXXX") /\
    getIDInfo (py "666-12-3456") ["SSN"%string] = [] /\
    getIDInfo (py "666-12-3456") ["PHONE"; "EMAIL"; "SSN"]%string = [] /\
    cleanString classify exclusions_file iter_order (py "666-12-3456") false None None =
      Ok (py "666-12-3456").
Proof.
  intros classify exclusions_file iter_order Hperm Hne1 Hne2.
  split.
  { intros a b c d e f g h i Hd. cbn [forallb] in Hd.
    repeat (apply andb_prop in Hd as [? Hd]).
    split.
    - intros post. unfold match_at. rewrite ssn_anchored by assumption.
      reflexivity.
    - unfold getIDInfo, patterns. cbn [fold_left fst snd].
      change (key_in "PHONE" ["SSN"%string]) with false.
      change (key_in "EMAIL" ["SSN"%string]) with false.
      change (key_in "SSN" ["SSN"%string]) with true. cbv iota.
      rewrite ssn_shape_findall by assumption.
      destruct (ssn_policy a b c d e f g h i); reflexivity. }
  split; [vm_compute; reflexivity|].
  split.
  { rewrite cleanString_no_entity by exact Hne1. cbn [or_default].
    replace (getIDInfo (py "123-45-6789") ["PHONE"; "EMAIL"; "SSN"]%string)
      with [py "123-45-6789"] by (vm_compute; reflexivity).
    rewrite iter_order_one by exact Hperm. vm_compute. reflexivity. }
  split; [vm_compute; reflexivity|].
  split; [vm_compute; reflexivity|].
  rewrite cleanString_no_entity by exact Hne2. cbn [or_default].
  replace (getIDInfo (py "666-12-3456") ["PHONE"; "EMAIL"; "SSN"]%string)
    with (@nil text) by (vm_compute; reflexivity).
  rewrite iter_order_nil by exact Hperm. vm_compute. reflexivity.
Qed.

Lemma ssn_validity_policy_witness :
  (forall l : list text, Permutation ((fun l => l) l) l) /\
  getNE (fun _ => Ok (Node "S" [])) (Some []) (py "123-45-6789")
    ["PERSON"; "ORGANIZATION"; "GPE"; "LOCATION"]%string = Ok [] /\
  getNE (fun _ => Ok (Node "S" [])) (Some []) (py "666-12-3456")
    ["PERSON"; "ORGANIZATION"; "GPE"; "LOCATION"]%string = Ok [] /\
  forallb is_digit (py "078051120") = true /\
  getIDInfo (ssn_shape "0" "7" "8" "0" "5" "1" "1" "2" "0") ["SSN"%string] =
    [py "078-05-1120"] /\
  cleanString (fun _ => Ok (Node "S" [])) (Some []) (fun l => l)
    (py "666-12-3456") false None None = Ok (py "666-12-3456").
Proof.
  pose proof (ssn_validity_policy (fun _ => Ok (Node "S" [])) (Some []) (fun l => l)
                (fun l => Permutation_refl l) eq_refl eq_refl) as [H1 [_ [_ [_ [_ H2]]]]].
  split; [intros l; apply Permutation_refl|].
  split; [reflexivity|]. split; [reflexivity|]. split; [reflexivity|].
  split; [|exact H2].
  exact (proj2 (H1 "0" "7" "8" "0" "5" "1" "1" "2" "0" eq_refl))%char.
Defined.

(** C5 (idempotence as the specification states it).  With a classifier that
    finds no entity, the text of the path example changes again on the second
    pass: the masker matches the masked path from its first slash on and
    writes one more placeholder.  The masker alone is not idempotent either.
    And the placeholder is matched again as a part of an identifier: the
    first pass over [a@b.com@c.org] leaves [XXXXX@c.org], an e-mail address
    for the second pass. *)
Lemma idempotence_counterexample :
  let clean := fun t =>
    cleanString (fun _ => Ok (Node "S" [])) (Some []) (fun l => l) t false None None in
  clean (py "Report saved to /home/alice/reports/q1.txt") =
    Ok (py "Report saved to XXXXX/XXXXX/XXXXX/XXXXX/q1.txt") /\
  clean (py "Report saved to XXXXX/XXXXX/XXXXX/XXXXX/q1.txt") =
    Ok (py "Report saved to XXXXXXXXXX/XXXXX/XXXXX/XXXXX/q1.txt") /\
  clean (py "Report saved to XXXXX/XXXXX/XXXXX/XXXXX/q1.txt") <>
    Ok (py "Report saved to XXXXX/XXXXX/XXXXX/XXXXX/q1.txt") /\
  maskDirectories (maskDirectories (py "/a/b")) <> maskDirectories (py "/a/b") /\
  clean (py "a@b.com@c.org") = Ok (py "XXXXX@c.org") /\
  clean (py "XXXXX@c.org") = Ok (py "XXXXX").
Proof.
  intros clean. subst clean. cbv beta.
  split; [vm_compute; reflexivity|].
  split; [vm_compute; reflexivity|].
  split; [vm_compute; discriminate|].
  split; [vm_compute; discriminate|].
  split; vm_compute; reflexivity.
Qed.

(** C5.  A text in which the pass finds no named entity, no identifier and no
    path-shaped substring comes out of [cleanString] as it is; so
    [clean(clean(text)) == clean(text)] whenever that holds of [clean(text)].
    The placeholder alone is matched by none of the identifier patterns and
    by no path pattern, and it is left alone by the masker. *)
Theorem clean_fixed_point :
  forall (classify : text -> result Tree) (exclusions_file : option (list text))
         (iter_order : list text -> list text)
         (c : text) (verbose : bool) (piiNE piiNums : option (list string)),
    (forall l, Permutation (iter_order l) l) ->
    getNE classify exclusions_file c
      (or_default piiNE ["PERSON"; "ORGANIZATION"; "GPE"; "LOCATION"]%string) = Ok [] ->
    getIDInfo c (or_default piiNums ["PHONE"; "EMAIL"; "SSN"]%string) = [] ->
    findall dir_pattern c = [] ->
    cleanString classify exclusions_file iter_order c verbose piiNE piiNums = Ok c /\
    (forall t,
        cleanString classify exclusions_file iter_order t verbose piiNE piiNums = Ok c ->
        cleanString classify exclusions_file iter_order c verbose piiNE piiNums =
        cleanString classify exclusions_file iter_order t verbose piiNE piiNums) /\
    getIDInfo placeholder ["PHONE"; "EMAIL"; "SSN"]%string = [] /\
    findall dir_pattern placeholder = [] /\
    maskDirectories placeholder = placeholder.
Proof.
  intros classify exclusions_file iter_order c verbose piiNE piiNums
         Hperm Hne Hid Hdir.
  assert (H : cleanString classify exclusions_file iter_order c verbose piiNE piiNums
              = Ok c).
  { rewrite cleanString_no_entity by exact Hne.
    rewrite Hid, iter_order_nil by exact Hperm.
    unfold replace_all, maskDirectories. cbn [fold_left].
    now rewrite sub_no_hits. }
  split; [exact H|].
  split; [intros t Ht; congruence|].
  repeat split; vm_compute; reflexivity.
Qed.

Lemma clean_fixed_point_witness :
  (forall l : list text, Permutation ((fun l => l) l) l) /\
  getNE (fun _ => Ok (Node "S" [])) (Some []) (py "Call me at XXXXX")
    ["PERSON"; "ORGANIZATION"; "GPE"; "LOCATION"]%string = Ok [] /\
  getIDInfo (py "Call me at XXXXX") ["PHONE"; "EMAIL"; "SSN"]%string = [] /\
  findall dir_pattern (py "Call me at XXXXX") = [] /\
  cleanString (fun _ => Ok (Node "S" [])) (Some []) (fun l => l)
    (py "Call me at XXXXX") false None None = Ok (py "Call me at XXXXX").
Proof.
  split; [intros l; apply Permutation_refl|].
  split; [reflexivity|]. split; [reflexivity|]. split; [reflexivity|].
  exact (proj1 (clean_fixed_point (fun _ => Ok (Node "S" [])) (Some []) (fun l => l)
                  (py "Call me at XXXXX") false None None
                  (fun l => Permutation_refl l) eq_refl eq_refl eq_refl)).
Defined.

(** C6 (order independence as the specification states it).  In
    [123-45-6789.1234] the SSN matcher finds [123-45-6789] and the PHONE
    matcher finds [789.1234]: neither is a substring of the other, and the two
    orders of replacement give two different texts. *)
Lemma replacement_order_counterexample :
  ~ (forall (t : text) (l l' : list text),
        NoDup l -> Permutation l l' ->
        (forall a b, In a l -> In b l -> a <> b -> occurs_in a b = false) ->
        replace_all l t = replace_all l' t).
Proof.
  intros H.
  specialize (H (py "123-45-6789.1234")
                (getIDInfo (py "123-45-6789.1234") ["PHONE"; "SSN"]%string)
                (rev (getIDInfo (py "123-45-6789.1234") ["PHONE"; "SSN"]%string))).
  assert (E : replace_all (getIDInfo (py "123-45-6789.1234") ["PHONE"; "SSN"]%string)
                (py "123-45-6789.1234") = py "123-45-6XXXXX")
    by (vm_compute; reflexivity).
  assert (E' : replace_all
                 (rev (getIDInfo (py "123-45-6789.1234") ["PHONE"; "SSN"]%string))
                 (py "123-45-6789.1234") = py "XXXXX.1234")
    by (vm_compute; reflexivity).
  rewrite E, E' in H.
  assert (D : py "123-45-6XXXXX" <> py "XXXXX.1234") by (vm_compute; discriminate).
  apply D, H.
  - apply getIDInfo_NoDup.
  - apply Permutation_rev.
  - intros a b Ha Hb Hab.
    replace (getIDInfo (py "123-45-6789.1234") ["PHONE"; "SSN"]%string)
      with [py "789.1234"; py "123-45-6789"] in Ha, Hb by (vm_compute; reflexivity).
    destruct Ha as [<-|[<-|[]]]; destruct Hb as [<-|[<-|[]]];
      try reflexivity; now contradiction Hab.
Qed.

(** C6.  When no string of the PII set overlaps another one or the
    placeholder, the replacements give the same text in every order.  The
    condition implies the one of the specification: of two different strings
    that do not overlap, neither is a substring of the other. *)
Theorem replacement_order_independent :
  forall (t : text) (l l' : list text),
    Permutation l l' ->
    (forall a, In a l -> independent a placeholder = true) ->
    (forall a b, In a l -> In b l -> a <> b -> independent a b = true) ->
    replace_all l t = replace_all l' t /\
    (forall a b, In a l -> In b l -> a <> b -> occurs_in a b = false).
Proof.
  intros t l l' Hp H1 H2. split.
  - apply replace_all_perm; [exact Hp | now split].
  - intros a b Ha Hb Hab. apply independent_not_substring; auto.
Qed.

Lemma replacement_order_independent_witness :
  Permutation [py "Jane Doe"; py "jane@x.org"; py "555-1234"]
              [py "555-1234"; py "Jane Doe"; py "jane@x.org"] /\
  replace_all [py "Jane Doe"; py "jane@x.org"; py "555-1234"]
    (py "Jane Doe, jane@x.org, 555-1234") =
  replace_all [py "555-1234"; py "Jane Doe"; py "jane@x.org"]
    (py "Jane Doe, jane@x.org, 555-1234").
Proof.
  assert (Hp : Permutation [py "Jane Doe"; py "jane@x.org"; py "555-1234"]
                           [py "555-1234"; py "Jane Doe"; py "jane@x.org"]).
  { apply Permutation_sym. apply (Permutation_cons_app [_; _] []). apply Permutation_refl. }
  split; [exact Hp|].
  apply (replacement_order_independent _ _ _ Hp).
  - intros a [<-|[<-|[<-|[]]]]; reflexivity.
  - intros a b [<-|[<-|[<-|[]]]] [<-|[<-|[<-|[]]]] Hab;
      try reflexivity; now contradiction Hab.
Defined.

(** C7.  When the exclusion list cannot be read, [getNE] raises and so does
    [cleanString]: the error of [open] goes up to the caller whatever the text
    and the categories are.  A list that is there and empty is a different
    state: with it [getNE] returns normally whenever the classifier does. *)
Theorem missing_exclusions_raise :
  forall (classify : text -> result Tree) (iter_order : list text -> list text)
         (t : text) (verbose : bool) (categories : list string)
         (piiNE piiNums : option (list string)),
    raises (getNE classify None t categories) = true /\
    raises (cleanString classify None iter_order t verbose piiNE piiNums) = true /\
    match classify t with
    | Ok _ =>
        getNE classify None t categories = Err OSError /\
        cleanString classify None iter_order t verbose piiNE piiNums = Err OSError /\
        raises (getNE classify (Some []) t categories) = false /\
        raises (cleanString classify (Some []) iter_order t verbose piiNE piiNums) = false
    | Err e =>
        getNE classify None t categories = Err e
    end.
Proof.
  intros. unfold cleanString, getNE.
  destruct (classify t); simpl; repeat (split; try reflexivity).
Qed.

(** C8 (the invariant as the specification states it).  [getNE] has no
    emptiness test: when the label of the root is requested and the text has
    no token, the entity of the root is the empty string, it enters the PII
    set, and the loop of [cleanString] replaces the empty string, which puts
    the placeholder at every position of the text. *)
Lemma empty_entity_counterexample :
  getNE (fun _ => Ok (Node "S" [])) (Some []) (py " ") ["S"%string] = Ok [[]] /\
  cleanString (fun _ => Ok (Node "S" [])) (Some []) (fun l => l) (py " ") false
    (Some ["S"%string]) None = Ok (py "XXXXX XXXXX") /\
  ~ (forall (classify : text -> result Tree) (exclusions_file : option (list text))
            (t : text) (piiNE : list string) (ents : list text),
        getNE classify exclusions_file t piiNE = Ok ents ->
        forall e, In e ents -> e <> []).
Proof.
  split; [reflexivity|]. split; [vm_compute; reflexivity|].
  intros H.
  apply (H (fun _ => Ok (Node "S" [])) (Some []) (py " ") ["S"%string] [[]] eq_refl []);
    [now left | reflexivity].
Qed.

(** C8.  A match of an identifier pattern has six characters or more, whatever
    the text and the categories.  The empty string is among the named
    entities exactly when a subtree with a requested label has no leaf, or one
    leaf with an empty token, and the empty string is not excluded.  So when
    the subtrees the classifier labels with a requested category have a token
    and no token is empty, every string of the PII set is non-empty and the
    loop of [cleanString] never replaces the empty string. *)
Theorem pii_strings_nonempty :
  forall (classify : text -> result Tree) (exclusions_file : option (list text))
         (iter_order : list text -> list text)
         (t : text) (piiNE types : list string) (ents : list text),
    (forall l, Permutation (iter_order l) l) ->
    getNE classify exclusions_file t piiNE = Ok ents ->
    (forall m, In m (getIDInfo t types) -> 6 <= length m) /\
    (In [] ents <->
     exists ne lines subtree,
       classify t = Ok ne /\ exclusions_file = Some lines /\
       In subtree (subtrees (fun x => key_in (label x) piiNE) ne) /\
       (leaves subtree = [] \/ exists tag, leaves subtree = [([], tag)]) /\
       mem [] (load_exclusions lines) = false) /\
    ((forall ne subtree,
         classify t = Ok ne ->
         In subtree (subtrees (fun x => key_in (label x) piiNE) ne) ->
         leaves subtree <> [] /\ Forall (fun wt => fst wt <> []) (leaves subtree)) ->
     (forall e, In e ents -> e <> []) /\
     (forall pii, In pii (iter_order (set_union ents (getIDInfo t types))) -> pii <> [])).
Proof.
  intros classify exclusions_file iter_order t piiNE types ents Hperm Hget.
  assert (Hids : forall m, In m (getIDInfo t types) -> 6 <= length m).
  { intros m Hm. apply getIDInfo_In in Hm as [Hm|[Hm|Hm]];
      apply findall_len in Hm; vm_compute in Hm; vm_compute; lia. }
  assert (Hin : forall e, In e ents <->
                  exists ne lines subtree,
                    classify t = Ok ne /\ exclusions_file = Some lines /\
                    In subtree (subtrees (fun x => key_in (label x) piiNE) ne) /\
                    e = entity_of subtree /\
                    mem (lower e) (load_exclusions lines) = false).
  { intros e. unfold getNE in Hget.
    destruct (classify t) as [ne|] eqn:Hc; [|discriminate].
    destruct exclusions_file as [lines|]; [|discriminate].
    injection Hget as <-. rewrite getNE_loop_In. split.
    - intros [[]|[subtree [Hs [He Hm]]]]. exists ne, lines, subtree. auto.
    - intros [ne' [lines' [subtree [E1 [E2 [Hs [He Hm]]]]]]].
      injection E1 as <-. injection E2 as <-. right. exists subtree. auto. }
  split; [exact Hids|]. split.
  - rewrite Hin. split.
    + intros [ne [lines [subtree [E1 [E2 [Hs [He Hm]]]]]]].
      exists ne, lines, subtree. repeat split; try assumption.
      apply entity_of_nil_iff. now symmetry.
    + intros [ne [lines [subtree [E1 [E2 [Hs [He Hm]]]]]]].
      exists ne, lines, subtree. repeat split; try assumption.
      symmetry. now apply entity_of_nil_iff.
  - intros Htok.
    assert (Hents : forall e, In e ents -> e <> []).
    { intros e He. apply Hin in He as [ne [lines [subtree [E1 [_ [Hs [-> _]]]]]]].
      destruct (Htok ne subtree E1 Hs) as [Hl Hw].
      unfold entity_of. apply str_join_nonempty.
      - destruct (leaves subtree); [congruence | discriminate].
      - apply Forall_map. exact Hw. }
    split; [exact Hents|].
    intros pii Hp. apply (Permutation_in _ (Hperm _)) in Hp.
    apply set_update_In in Hp as [Hp|Hp]; [now apply Hents|].
    apply Hids in Hp. destruct pii; [simpl in Hp; lia | discriminate].
Qed.

Lemma pii_strings_nonempty_witness :
  let classify : text -> result Tree :=
    fun _ => Ok (Node "S" [Node "PERSON" [Leaf (py "Jane") "NNP"];
                           Leaf (py "called") "VBD";
                           Leaf (py "555-1234") "CD"]) in
  let t := py "Jane called 555-1234" in
  (forall l : list text, Permutation ((fun l => l) l) l) /\
  (forall ne subtree,
      classify t = Ok ne ->
      In subtree (subtrees (fun x => key_in (label x) ["PERSON"%string]) ne) ->
      leaves subtree <> [] /\ Forall (fun wt => fst wt <> []) (leaves subtree)) /\
  getNE classify (Some []) t ["PERSON"%string] = Ok [py "Jane"] /\
  (forall pii,
      In pii (set_union [py "Jane"] (getIDInfo t ["PHONE"%string])) -> pii <> []).
Proof.
  intros classify t.
  assert (H1 : forall l : list text, Permutation ((fun l => l) l) l)
    by (intros l; apply Permutation_refl).
  assert (H2 : forall ne subtree,
             classify t = Ok ne ->
             In subtree (subtrees (fun x => key_in (label x) ["PERSON"%string]) ne) ->
             leaves subtree <> [] /\ Forall (fun wt => fst wt <> []) (leaves subtree)).
  { intros ne subtree H. injection H as <-. intros [<-|[]].
    split; [discriminate | repeat constructor; discriminate]. }
  assert (H3 : getNE classify (Some []) t ["PERSON"%string] = Ok [py "Jane"])
    by reflexivity.
  split; [exact H1|]. split; [exact H2|]. split; [exact H3|].
  exact (proj2 (proj2 (proj2 (pii_strings_nonempty classify (Some []) (fun l => l) t
                         ["PERSON"%string] ["PHONE"%string] [py "Jane"] H1 H3)) H2)).
Defined.

(** C9.  An empty list for [piiNE] or for [piiNums] gives what [None] gives:
    [cleanString] runs with the default categories, so no caller gets zero
    categories through an empty list.  With a classifier that finds the person
    [Jane], the call with two empty lists still redacts the name and the
    e-mail address. *)
Theorem empty_list_is_default :
  forall (classify : text -> result Tree) (exclusions_file : option (list text))
         (iter_order : list text -> list text) (t : text) (verbose : bool)
         (piiNE piiNums : option (list string)),
    cleanString classify exclusions_file iter_order t verbose (Some []) piiNums =
    cleanString classify exclusions_file iter_order t verbose None piiNums /\
    cleanString classify exclusions_file iter_order t verbose piiNE (Some []) =
    cleanString classify exclusions_file iter_order t verbose piiNE None /\
    cleanString classify exclusions_file iter_order t verbose (Some []) (Some []) =
    cleanString classify exclusions_file iter_order t verbose
      (Some ["PERSON"; "ORGANIZATION"; "GPE"; "LOCATION"]%string)
      (Some ["PHONE"; "EMAIL"; "SSN"]%string) /\
    cleanString
      (fun _ => Ok (Node "S" [Node "PERSON" [Leaf (py "Jane") "NNP"];
                              Leaf (py "a@b.com") "NN"]))
      (Some []) (fun l => l) (py "Jane a@b.com") false (Some []) (Some []) =
    Ok (py "XXXXX XXXXX").
Proof.
  intros. split; [reflexivity|]. split; [reflexivity|]. split; [reflexivity|].
  vm_compute. reflexivity.
Qed.




(** * Further properties of the code *)

(** X1.  Every string [getIDInfo] reports occurs in the text as it is, so the
    replacement loop of [cleanString] finds it. *)
Theorem identifiers_occur_in_text :
  forall (t : text) (types : list string),
    Forall (fun m => occurs_in m t = true) (getIDInfo t types).
Proof.
  intros t types. apply Forall_forall. intros m Hm.
  apply getIDInfo_In in Hm as [Hm|[Hm|Hm]];
    apply findall_found in Hm as [pre [post [_ [-> _]]]]; apply occurs_in_app.
Qed.

(** X2.  In a text of code points below 256, as all texts are here, the SSN
    matcher reports only strings of shape
    [###-##-####] that obey the policy: never an area number 666, 000 or
    900-999, a group number 00 or a serial number 0000. *)
Theorem ssn_reports_valid_only :
  forall t : text,
    Forall (fun m =>
              exists a b c d e f g h i,
                m = ssn_shape a b c d e f g h i /\
                forallb is_digit [a; b; c; d; e; f; g; h; i] = true /\
                ssn_policy a b c d e f g h i = true)
           (getIDInfo t ["SSN"%string]).
Proof.
  intros t. apply Forall_forall. intros m Hm.
  change (getIDInfo t ["SSN"%string])
    with (set_update [] (findall ssn_pattern t)) in Hm.
  apply set_update_In in Hm as [[]|Hm]. now apply ssn_found_valid in Hm.
Qed.

(** X3.  Whatever the text, the EMAIL matcher reports only strings of the form
    local part, [@], domain, dot, two to four letters: the local part and the
    domain are not empty and hold no [@], so a reported address has one
    [@]. *)
Theorem email_reports_shape :
  forall t : text,
    Forall (fun m =>
              exists l d tld,
                m = l ++ "@"%char :: d ++ "."%char :: tld /\
                l <> [] /\ Forall (fun c => is_email_local c = true) l /\
                d <> [] /\ Forall (fun c => is_email_domain c = true) d /\
                Forall (fun c => is_letter c = true) tld /\
                2 <= length tld <= 4 /\
                count_occ ascii_dec m "@"%char = 1)
           (getIDInfo t ["EMAIL"%string]).
Proof.
  intros t. apply Forall_forall. intros m Hm.
  change (getIDInfo t ["EMAIL"%string])
    with (set_update [] (findall email_pattern t)) in Hm.
  apply set_update_In in Hm as [[]|Hm].
  apply findall_found in Hm as [pre [post [_ [_ [Hm _]]]]].
  apply email_match_shape in Hm as [l [d [tld [-> [Hl [Hlc [Hd [Hdc [Htc Hlen]]]]]]]]].
  exists l, d, tld. repeat split; try assumption; try apply Hlen.
  assert (Hcount : forall (P : ascii -> bool) (s : text),
             P "@"%char = false -> Forall (fun c => P c = true) s ->
             count_occ ascii_dec s "@"%char = 0).
  { intros P s HP Hs. apply count_occ_not_In. intros Hin.
    rewrite Forall_forall in Hs. apply Hs in Hin. congruence. }
  rewrite count_occ_app, (Hcount is_email_local l) by (reflexivity || assumption).
  rewrite count_occ_cons_eq by reflexivity.
  rewrite count_occ_app, (Hcount is_email_domain d) by (reflexivity || assumption).
  rewrite count_occ_cons_neq by discriminate.
  now rewrite (Hcount is_letter tld) by (reflexivity || assumption).
Qed.

(** X4.  In a text without a digit and without [@] no identifier is found,
    whatever categories are requested. *)
Theorem no_identifier_without_digit_or_at :
  forall (t : text) (types : list string),
    Forall (fun c => is_digit c = false /\ is_char "@" c = false) t ->
    getIDInfo t types = [].
Proof. exact getIDInfo_no_digit_no_at. Qed.

Lemma no_identifier_without_digit_or_at_witness :
  Forall (fun c => is_digit c = false /\ is_char "@" c = false) (py "Dear Jane, thanks.") /\
  getIDInfo (py "Dear Jane, thanks.") ["PHONE"; "EMAIL"; "SSN"]%string = [].
Proof.
  assert (H : Forall (fun c => is_digit c = false /\ is_char "@" c = false)
                     (py "Dear Jane, thanks.")) by (repeat constructor).
  split; [exact H|].
  exact (no_identifier_without_digit_or_at _ _ H).
Defined.

(** X5.  A text without digit, [@], slash and backslash in which no named
    entity is found comes out of [cleanString] unchanged. *)
Theorem clean_text_unchanged :
  forall (classify : text -> result Tree) (exclusions_file : option (list text))
         (iter_order : list text -> list text)
         (t : text) (verbose : bool) (piiNE piiNums : option (list string)),
    (forall l, Permutation (iter_order l) l) ->
    getNE classify exclusions_file t
      (or_default piiNE ["PERSON"; "ORGANIZATION"; "GPE"; "LOCATION"]%string) = Ok [] ->
    Forall (fun c => is_digit c = false /\ is_char "@" c = false) t ->
    slash_free t ->
    cleanString classify exclusions_file iter_order t verbose piiNE piiNums = Ok t.
Proof.
  intros classify exclusions_file iter_order t verbose piiNE piiNums
         Hperm Hne Hchars Hslash.
  rewrite cleanString_no_entity by exact Hne.
  rewrite (getIDInfo_no_digit_no_at t _ Hchars).
  rewrite iter_order_nil by exact Hperm.
  unfold replace_all. cbn [fold_left].
  now rewrite maskDirectories_slash_free.
Qed.

Lemma clean_text_unchanged_witness :
  (forall l : list text, Permutation ((fun l => l) l) l) /\
  getNE (fun _ => Ok (Node "S" [])) (Some []) (py "see you on monday")
    ["PERSON"; "ORGANIZATION"; "GPE"; "LOCATION"]%string = Ok [] /\
  Forall (fun c => is_digit c = false /\ is_char "@" c = false) (py "see you on monday") /\
  slash_free (py "see you on monday") /\
  cleanString (fun _ => Ok (Node "S" [])) (Some []) (fun l => l)
    (py "see you on monday") true None None = Ok (py "see you on monday").
Proof.
  assert (H1 : Forall (fun c => is_digit c = false /\ is_char "@" c = false)
                      (py "see you on monday")) by (repeat constructor).
  assert (H2 : slash_free (py "see you on monday")) by (repeat constructor).
  split; [intros l; apply Permutation_refl|].
  split; [reflexivity|]. split; [exact H1|]. split; [exact H2|].
  exact (clean_text_unchanged (fun _ => Ok (Node "S" [])) (Some []) (fun l => l)
           (py "see you on monday") true None None
           (fun l => Permutation_refl l) eq_refl H1 H2).
Defined.

(** X6.  When no string of the PII set overlaps the placeholder, none of them
    occurs in the text after the replacement loop, in whatever order the loop
    went through them. *)
Theorem no_pii_string_survives :
  forall (l : list text) (t : text),
    (forall q, In q l -> independent q placeholder = true) ->
    Forall (fun p => occurs_in p (replace_all l t) = false) l.
Proof.
  intros l t Hl. apply Forall_forall. intros p Hp.
  now apply replace_all_removes.
Qed.

Lemma no_pii_string_survives_witness :
  (forall q, In q [py "ab"; py "bc"] -> independent q placeholder = true) /\
  Forall (fun p => occurs_in p (replace_all [py "ab"; py "bc"] (py "abc bcab")) = false)
         [py "ab"; py "bc"].
Proof.
  assert (H : forall q, In q [py "ab"; py "bc"] -> independent q placeholder = true)
    by (intros q [<-|[<-|[]]]; reflexivity).
  split; [exact H|].
  exact (no_pii_string_survives [py "ab"; py "bc"] (py "abc bcab") H).
Defined.

(** X7.  On a text without slash and backslash, when no string of the PII set
    overlaps the placeholder, no string of the PII set occurs in the result of
    [cleanString]. *)
Theorem clean_output_has_no_pii_string :
  forall (classify : text -> result Tree) (exclusions_file : option (list text))
         (iter_order : list text -> list text)
         (t : text) (verbose : bool) (piiNE piiNums : option (list string))
         (ents : list text),
    let piiSet :=
      set_union ents (getIDInfo t (or_default piiNums ["PHONE"; "EMAIL"; "SSN"]%string)) in
    (forall l, Permutation (iter_order l) l) ->
    getNE classify exclusions_file t
      (or_default piiNE ["PERSON"; "ORGANIZATION"; "GPE"; "LOCATION"]%string) = Ok ents ->
    (forall q, In q piiSet -> independent q placeholder = true) ->
    slash_free t ->
    exists c,
      cleanString classify exclusions_file iter_order t verbose piiNE piiNums = Ok c /\
      Forall (fun p => occurs_in p c = false) piiSet.
Proof.
  intros classify exclusions_file iter_order t verbose piiNE piiNums ents piiSet
         Hperm Hne Hind Hslash.
  exists (replace_all (iter_order piiSet) t). split.
  - unfold cleanString. rewrite Hne. cbv zeta. fold piiSet.
    now rewrite maskDirectories_slash_free by now apply replace_all_slash_free.
  - apply Forall_forall. intros p Hp. apply replace_all_removes.
    + intros q Hq. apply Hind. eapply Permutation_in; [apply Hperm | exact Hq].
    + eapply Permutation_in; [apply Permutation_sym, Hperm | exact Hp].
Qed.

Lemma clean_output_has_no_pii_string_witness :
  let classify : text -> result Tree :=
    fun _ => Ok (Node "S" [Node "PERSON" [Leaf (py "Jane") "NNP"];
                           Leaf (py "wrote") "VBD"; Leaf (py "jane@x.org") "NN"]) in
  let t := py "Jane wrote jane@x.org" in
  (forall l : list text, Permutation ((fun l => l) l) l) /\
  getNE classify (Some []) t ["PERSON"; "ORGANIZATION"; "GPE"; "LOCATION"]%string =
    Ok [py "Jane"] /\
  (forall q, In q [py "Jane"; py "jane@x.org"] -> independent q placeholder = true) /\
  slash_free t /\
  exists c,
    cleanString classify (Some []) (fun l => l) t false None None = Ok c /\
    Forall (fun p => occurs_in p c = false) [py "Jane"; py "jane@x.org"].
Proof.
  intros classify t.
  assert (H1 : forall l : list text, Permutation ((fun l => l) l) l)
    by (intros l; apply Permutation_refl).
  assert (H3 : forall q, In q [py "Jane"; py "jane@x.org"] ->
                         independent q placeholder = true)
    by (intros q [<-|[<-|[]]]; reflexivity).
  assert (H4 : slash_free t) by (repeat constructor).
  split; [exact H1|]. split; [reflexivity|]. split; [exact H3|]. split; [exact H4|].
  exact (clean_output_has_no_pii_string classify (Some []) (fun l => l) t false
           None None [py "Jane"] H1 eq_refl H3 H4).
Defined.

(** X8.  When no string of the PII set overlaps the placeholder, running the
    replacement loop again, in the same or in another order, changes
    nothing. *)
Theorem replacement_loop_idempotent :
  forall (l l' : list text) (t : text),
    Permutation l l' ->
    (forall q, In q l -> independent q placeholder = true) ->
    replace_all l' (replace_all l t) = replace_all l t.
Proof.
  intros l l' t Hp Hl. apply replace_all_absent. intros p Hp'.
  apply replace_all_removes; [exact Hl|].
  eapply Permutation_in; [apply Permutation_sym, Hp | exact Hp'].
Qed.

Lemma replacement_loop_idempotent_witness :
  Permutation [py "ab"; py "bc"] [py "bc"; py "ab"] /\
  (forall q, In q [py "ab"; py "bc"] -> independent q placeholder = true) /\
  replace_all [py "bc"; py "ab"] (replace_all [py "ab"; py "bc"] (py "abc bcab")) =
  replace_all [py "ab"; py "bc"] (py "abc bcab").
Proof.
  assert (H : forall q, In q [py "ab"; py "bc"] -> independent q placeholder = true)
    by (intros q [<-|[<-|[]]]; reflexivity).
  split; [apply perm_swap|]. split; [exact H|].
  exact (replacement_loop_idempotent _ _ (py "abc bcab") (perm_swap _ _ _) H).
Defined.

Lemma mask_directory_drive (l : ascii) (run : text) :
  is_letter l = true ->
  mask_directory (l :: ":"%char :: "\"%char :: run) = mask_directory ("/"%char :: run).
Proof.
  intros Hl. destruct (letter_not_slash l Hl) as [H1 H2].
  rewrite !mask_directory_eq. cbn [map]. rewrite H2.
  change (Ascii.eqb ":" "\") with false. change (Ascii.eqb "\" "\") with true.
  change (Ascii.eqb "/" "\") with false. cbv iota.
  cbn [str_split]. rewrite H1.
  change (Ascii.eqb ":" "/") with false. change (Ascii.eqb "/" "/") with true. cbv iota.
  pose proof (str_split_nonempty "/"
    (map (fun c => if Ascii.eqb c "\" then "/"%char else c) run)) as Hne.
  destruct (str_split "/" (map (fun c => if Ascii.eqb c "\" then "/"%char else c) run))
    as [|p ps]; [congruence|].
  reflexivity.
Qed.

(** X9.  The masker works token by token: a space, a newline, a carriage
    return or a tab cuts the text into two parts that are masked on their own
    and put together again around it. *)
Theorem masker_token_by_token :
  forall (u : text) (w : ascii) (v : text),
    is_path_char w = false ->
    maskDirectories (u ++ w :: v) = maskDirectories u ++ w :: maskDirectories v.
Proof. intros u w v Hw. now apply maskDirectories_boundary. Qed.

Lemma masker_token_by_token_witness :
  is_path_char " " = false /\
  maskDirectories (py "/a/b" ++ " "%char :: py "C:\x\y") =
  maskDirectories (py "/a/b") ++ " "%char :: maskDirectories (py "C:\x\y").
Proof.
  split; [reflexivity|].
  exact (masker_token_by_token (py "/a/b") " "%char (py "C:\x\y") eq_refl).
Defined.

(** X10.  A token that begins with a drive letter, a colon and a backslash is
    masked as a whole, and comes out as the path without the drive would: the
    drive is one more masked segment. *)
Theorem drive_path_masked :
  forall (l : ascii) (run rest : text),
    is_letter l = true ->
    run <> [] ->
    Forall (fun c => is_path_char c = true) run ->
    (rest = [] \/ exists c rest', rest = c :: rest' /\ is_path_char c = false) ->
    maskDirectories ((l :: ":"%char :: "\"%char :: run) ++ rest) =
      mask_directory ("/"%char :: run) ++ maskDirectories rest /\
    maskDirectories ((l :: ":"%char :: "\"%char :: run) ++ rest) =
      maskDirectories (("/"%char :: run) ++ rest).
Proof.
  intros l run rest Hl Hne Hrun Hrest.
  assert (H : maskDirectories ((l :: ":"%char :: "\"%char :: run) ++ rest) =
              mask_directory ("/"%char :: run) ++ maskDirectories rest).
  { unfold maskDirectories, sub.
    rewrite scan_hit; [|discriminate|now apply dir_pattern_drive].
    cbn [flat_map]. now rewrite mask_directory_drive. }
  split; [exact H|]. rewrite H.
  pose proof (maskDirectories_first_slash [] run rest (Forall_nil _) Hne Hrun Hrest) as H'.
  cbn [app] in H'. cbn [app]. now rewrite H'.
Qed.

Lemma drive_path_masked_witness :
  is_letter "C" = true /\
  py "Users\bob\cv.txt" <> [] /\
  Forall (fun c => is_path_char c = true) (py "Users\bob\cv.txt") /\
  maskDirectories (("C"%char :: ":"%char :: "\"%char :: py "Users\bob\cv.txt") ++
                   py " sent") =
  py "XXXXX/XXXXX/XXXXX/cv.txt" ++ py " sent".
Proof.
  assert (H2 : py "Users\bob\cv.txt" <> []) by discriminate.
  assert (H3 : Forall (fun c => is_path_char c = true) (py "Users\bob\cv.txt"))
    by (repeat constructor).
  split; [reflexivity|]. split; [exact H2|]. split; [exact H3|].
  refine (proj1 (drive_path_masked "C"%char (py "Users\bob\cv.txt") (py " sent")
                   eq_refl H2 H3 _)).
  right. exists " "%char, (py "sent"). split; reflexivity.
Defined.

(** X11.  A masked path has no backslash, and as many segments as the path
    had between its slashes and backslashes. *)
Theorem masked_path_form :
  forall path : text,
    Forall (fun c => c <> "\"%char) (mask_directory path) /\
    length (str_split "/" (mask_directory path)) =
    length (str_split "/" (map (fun c => if Ascii.eqb c "\" then "/"%char else c) path)).
Proof.
  intros path. split; [apply mask_directory_no_backslash|].
  rewrite mask_directory_segments, length_app, repeat_length. cbn [length].
  pose proof (str_split_nonempty "/"
    (map (fun c => if Ascii.eqb c "\" then "/"%char else c) path)) as Hne.
  destruct (str_split "/" (map (fun c => if Ascii.eqb c "\" then "/"%char else c) path));
    [congruence | simpl; lia].
Qed.

(** X12.  The masker is not idempotent on a path that begins with a slash: a
    second pass over the masked path puts one more placeholder in front of
    it. *)
Theorem second_pass_prepends_placeholder :
  forall run : text,
    run <> [] ->
    Forall (fun c => is_path_char c = true) run ->
    maskDirectories (maskDirectories ("/"%char :: run)) =
    placeholder ++ maskDirectories ("/"%char :: run).
Proof. intros run Hne Hrun. now apply maskDirectories_twice. Qed.

Lemma second_pass_prepends_placeholder_witness :
  py "home/alice/q1.txt" <> [] /\
  Forall (fun c => is_path_char c = true) (py "home/alice/q1.txt") /\
  maskDirectories (maskDirectories ("/"%char :: py "home/alice/q1.txt")) =
  py "XXXXX" ++ py "XXXXX/XXXXX/XXXXX/q1.txt".
Proof.
  assert (H1 : py "home/alice/q1.txt" <> []) by discriminate.
  assert (H2 : Forall (fun c => is_path_char c = true) (py "home/alice/q1.txt"))
    by (repeat constructor).
  split; [exact H1|]. split; [exact H2|].
  exact (second_pass_prepends_placeholder (py "home/alice/q1.txt") H1 H2).
Defined.

(** X13.  [cleanString] invents no text: every character of its result is a
    character of the input, an [X] or a slash. *)
Theorem clean_output_characters :
  forall (classify : text -> result Tree) (exclusions_file : option (list text))
         (iter_order : list text -> list text)
         (t c : text) (verbose : bool) (piiNE piiNums : option (list string)),
    cleanString classify exclusions_file iter_order t verbose piiNE piiNums = Ok c ->
    Forall (fun x => In x t \/ x = "X"%char \/ x = "/"%char) c.
Proof.
  intros classify exclusions_file iter_order t c verbose piiNE piiNums H.
  unfold cleanString in H.
  destruct (getNE classify exclusions_file t _) as [ents|]; [|discriminate].
  injection H as <-.
  apply maskDirectories_Forall; [now right; left | now right; right |].
  apply replace_all_Forall; [repeat constructor; now right; left|].
  apply Forall_forall. intros x Hx. now left.
Qed.

Lemma clean_output_characters_witness :
  cleanString (fun _ => Ok (Node "S" [])) (Some []) (fun l => l)
    (py "a@b.com in C:\tmp\x") false None None = Ok (py "XXXXX in XXXXX/XXXXX/x") /\
  Forall (fun x => In x (py "a@b.com in C:\tmp\x") \/ x = "X"%char \/ x = "/"%char)
         (py "XXXXX in XXXXX/XXXXX/x").
Proof.
  assert (H : cleanString (fun _ => Ok (Node "S" [])) (Some []) (fun l => l)
                (py "a@b.com in C:\tmp\x") false None None =
              Ok (py "XXXXX in XXXXX/XXXXX/x")) by reflexivity.
  split; [exact H|].
  exact (clean_output_characters _ _ _ _ _ _ _ _ H).
Defined.

(** X14.  Requesting more categories never loses an identifier: what
    [getIDInfo] finds for a list of categories, it finds for every list that
    holds them. *)
Theorem getIDInfo_monotone :
  forall (t : text) (types types' : list string),
    incl types types' ->
    incl (getIDInfo t types) (getIDInfo t types').
Proof.
  intros t types types' Hincl m.
  assert (Hk : forall k, key_in k types = true -> key_in k types' = true).
  { intros k Hk. apply key_in_In. apply Hincl. now apply key_in_In. }
  unfold getIDInfo, patterns. cbn [fold_left fst snd].
  pose proof (Hk "PHONE"%string) as H1. pose proof (Hk "EMAIL"%string) as H2.
  pose proof (Hk "SSN"%string) as H3.
  destruct (key_in "PHONE" types); [rewrite H1 by reflexivity|];
    (destruct (key_in "EMAIL" types); [rewrite H2 by reflexivity|]);
    (destruct (key_in "SSN" types); [rewrite H3 by reflexivity|]);
    try destruct (key_in "PHONE" types'); try destruct (key_in "EMAIL" types');
    try destruct (key_in "SSN" types');
    rewrite ?set_update_In; simpl; tauto.
Qed.

Lemma getIDInfo_monotone_witness :
  incl ["SSN"%string] ["PHONE"; "EMAIL"; "SSN"]%string /\
  incl (getIDInfo (py "123-45-6789 a@b.com") ["SSN"%string])
       (getIDInfo (py "123-45-6789 a@b.com") ["PHONE"; "EMAIL"; "SSN"]%string).
Proof.
  assert (H : incl ["SSN"%string] ["PHONE"; "EMAIL"; "SSN"]%string)
    by (intros k [<-|[]]; simpl; auto).
  split; [exact H|].
  exact (getIDInfo_monotone (py "123-45-6789 a@b.com") _ _ H).
Defined.

Lemma getNE_loop_NoDup (exclusions : list text) :
  forall subs pii,
    NoDup pii ->
    NoDup (fold_left
             (fun pii subtree =>
                if negb (mem (lower (entity_of subtree)) exclusions)
                then set_add (entity_of subtree) pii
                else pii)
             subs pii).
Proof.
  induction subs as [|s subs IH]; intros pii H; [exact H|].
  simpl. apply IH. destruct (negb (mem (lower (entity_of s)) exclusions));
    [now apply set_add_NoDup | exact H].
Qed.

(** X15.  [getNE] returns, without duplicates, exactly the entities of the
    subtrees of the classifier's tree, the root and nested subtrees included,
    whose label is requested and whose lowercase form is the stripped
    lowercase form of no line of the exclusion list. *)
Theorem getNE_reports :
  forall (classify : text -> result Tree) (lines : list text)
         (t : text) (piiNE : list string) (ne : Tree),
    classify t = Ok ne ->
    exists ents,
      getNE classify (Some lines) t piiNE = Ok ents /\
      NoDup ents /\
      forall e,
        In e ents <->
        exists subtree,
          In subtree (subtrees (fun x => key_in (label x) piiNE) ne) /\
          e = entity_of subtree /\
          forall line, In line lines -> lower (strip line) <> lower e.
Proof.
  intros classify lines t piiNE ne Hc.
  destruct (getNE_In classify lines t piiNE ne Hc) as [ents [Hget Hents]].
  exists ents. split; [exact Hget|]. split.
  - unfold getNE in Hget. rewrite Hc in Hget. injection Hget as <-.
    apply getNE_loop_NoDup. constructor.
  - intros e. rewrite Hents. split; intros [s [Hs [He Hx]]]; exists s;
      (split; [exact Hs|]); (split; [exact He|]).
    + intros line Hl E.
      assert (Hm : mem (lower e) (load_exclusions lines) = true)
        by (apply load_exclusions_In; exists line; split; [exact Hl | now symmetry]).
      congruence.
    + destruct (mem (lower e) (load_exclusions lines)) eqn:E; [|reflexivity].
      apply load_exclusions_In in E as [line [Hl E]]. exfalso.
      apply (Hx line Hl). now symmetry.
Qed.

Lemma getNE_reports_witness :
  let tree :=
    Node "S" [Node "PERSON" [Leaf (py "Jane") "NNP"];
              Leaf (py "met") "VBD";
              Node "PERSON" [Leaf (py "Jane") "NNP"];
              Leaf (py "in") "IN";
              Node "GPE" [Leaf (py "New") "NNP"; Leaf (py "York") "NNP"]] in
  let classify : text -> result Tree := fun _ => Ok tree in
  classify (py "Jane met Jane in New York") = Ok tree /\
  getNE classify (Some [py "new york"]) (py "Jane met Jane in New York")
    ["PERSON"; "GPE"]%string = Ok [py "Jane"].
Proof.
  intros tree classify. split; [reflexivity|].
  destruct (getNE_reports classify [py "new york"] (py "Jane met Jane in New York")
              ["PERSON"; "GPE"]%string tree eq_refl) as [ents [Hget _]].
  rewrite Hget. f_equal.
  assert (E : Ok ents = Ok [py "Jane"]) by (rewrite <- Hget; reflexivity).
  now injection E.
Defined.

Lemma extract_of_suffix (read_text : text -> text -> option text)
    (pdf_text : text -> option text) (html_text : text -> text -> option text)
    (p enc ext : text) :
  suffix p = ext -> In ext supported ->
  extract read_text pdf_text html_text p enc =
  if mem ext [py ".txt"; py ".md"] then of_read (read_text p enc)
  else if text_eqb ext (py ".pdf") then of_read (pdf_text p)
  else of_read (html_text p enc).
Proof.
  intros Hs Hin. unfold extract. rewrite Hs.
  unfold supported in Hin. simpl in Hin.
  destruct Hin as [<-|[<-|[<-|[<-|[<-|[]]]]]]; reflexivity.
Qed.

Lemma suffix_of_file (n stem ext : text) (p : text) :
  path_name p = stem ++ ext -> stem <> [] -> In ext supported -> suffix p = ext.
Proof.
  intros Hn Hs Hin. destruct (supported_shape ext Hin) as [x [-> [Hx Hd]]].
  now apply (suffix_of_name p stem x).
Qed.

(** X16.  A file whose name is a non-empty stem followed by [.txt], [.md],
    [.pdf], [.html] or [.htm], in any directory, is read by the reader of its
    type: [extract] returns what the reader returns and raises when the
    reader does. *)
Theorem extract_reads_supported_files :
  forall (read_text : text -> text -> option text) (pdf_text : text -> option text)
         (html_text : text -> text -> option text)
         (d stem ext enc : text),
    Forall (fun x => Ascii.eqb x "/" = false) stem ->
    stem <> [] ->
    In ext supported ->
    let dispatch p :=
      if mem ext [py ".txt"; py ".md"] then of_read (read_text p enc)
      else if text_eqb ext (py ".pdf") then of_read (pdf_text p)
      else of_read (html_text p enc) in
    extract read_text pdf_text html_text (stem ++ ext) enc = dispatch (stem ++ ext) /\
    extract read_text pdf_text html_text (d ++ "/"%char :: stem ++ ext) enc =
      dispatch (d ++ "/"%char :: stem ++ ext).
Proof.
  intros read_text pdf_text html_text d stem ext enc Hstem Hne Hin dispatch.
  assert (Hext : Forall (fun x => Ascii.eqb x "/" = false) ext).
  { unfold supported in Hin. simpl in Hin.
    destruct Hin as [<-|[<-|[<-|[<-|[<-|[]]]]]]; repeat constructor. }
  assert (Hname : path_name (d ++ "/"%char :: stem ++ ext) = stem ++ ext /\
                  path_name (stem ++ ext) = stem ++ ext).
  { apply path_name_file.
    - apply Forall_app. now split.
    - destruct stem; [congruence | discriminate].
    - destruct (supported_shape ext Hin) as [x [-> [Hx _]]].
      destruct stem as [|c [|c' stem]]; [congruence| |discriminate].
      destruct x; [congruence | discriminate]. }
  destruct Hname as [H1 H2]. subst dispatch. cbv beta. split.
  - apply extract_of_suffix; [|exact Hin]. now apply (suffix_of_file (stem ++ ext) stem ext).
  - apply extract_of_suffix; [|exact Hin]. now apply (suffix_of_file (stem ++ ext) stem ext).
Qed.

Lemma extract_reads_supported_files_witness :
  let read_text : text -> text -> option text :=
    fun p _ => if text_eqb p (py "/home/bob/notes.md") then Some (py "hello") else None in
  Forall (fun x => Ascii.eqb x "/" = false) (py "notes") /\
  py "notes" <> [] /\
  In (py ".md") supported /\
  extract read_text (fun _ => None) (fun _ _ => None)
    (py "/home/bob" ++ "/"%char :: py "notes" ++ py ".md") (py "utf-8") =
  Done (py "hello").
Proof.
  intros read_text.
  assert (H1 : Forall (fun x => Ascii.eqb x "/" = false) (py "notes"))
    by (repeat constructor).
  assert (H2 : py "notes" <> []) by discriminate.
  assert (H3 : In (py ".md") supported) by (right; left; reflexivity).
  split; [exact H1|]. split; [exact H2|]. split; [exact H3|].
  exact (proj2 (extract_reads_supported_files read_text (fun _ => None) (fun _ _ => None)
                  (py "/home/bob") (py "notes") (py ".md") (py "utf-8") H1 H2 H3)).
Defined.

(** X17.  For every other path [extract] raises [ValueError] with the suffix
    of the path, whatever the readers would return: when the name of the path
    is not a non-empty stem followed by one of the five extensions, written in
    lowercase, no file is read. *)
Theorem extract_rejects_other_files :
  forall (read_text : text -> text -> option text) (pdf_text : text -> option text)
         (html_text : text -> text -> option text) (p enc : text),
    (forall stem ext, In ext supported -> stem <> [] -> path_name p <> stem ++ ext) ->
    extract read_text pdf_text html_text p enc = Raise (ValueError (suffix p)).
Proof.
  intros read_text pdf_text html_text p enc H.
  assert (Hno : ~ In (suffix p) supported).
  { intros Hin. destruct (suffix_spec p) as [E|[stem [x [En [Es [Hs _]]]]]].
    - rewrite E in Hin. unfold supported in Hin. simpl in Hin.
      repeat (destruct Hin as [Hin|Hin]; [discriminate Hin|]). exact Hin.
    - apply (H stem (suffix p) Hin Hs). now rewrite Es. }
  unfold extract.
  destruct (mem (suffix p) [py ".txt"; py ".md"]) eqn:E1.
  { exfalso. apply Hno, mem_supported. now rewrite E1. }
  destruct (text_eqb (suffix p) (py ".pdf")) eqn:E2.
  { exfalso. apply Hno, mem_supported. rewrite E1, E2. reflexivity. }
  destruct (mem (suffix p) [py ".html"; py ".htm"]) eqn:E3; [|reflexivity].
  exfalso. apply Hno, mem_supported. rewrite E1, E2, E3. reflexivity.
Qed.

Lemma extract_rejects_other_files_witness :
  (forall stem ext, In ext supported -> stem <> [] ->
                    path_name (py "docs/notes.TXT") <> stem ++ ext) /\
  extract (fun _ _ => Some (py "hello")) (fun _ => Some (py "hello"))
    (fun _ _ => Some (py "hello")) (py "docs/notes.TXT") (py "utf-8") =
  Raise (ValueError (py ".TXT")).
Proof.
  assert (H : forall stem ext, In ext supported -> stem <> [] ->
                               path_name (py "docs/notes.TXT") <> stem ++ ext).
  { intros stem ext Hin Hs E.
    assert (Hn : path_name (py "docs/notes.TXT") = py "notes.TXT") by reflexivity.
    rewrite Hn in E. apply (f_equal (@rev ascii)) in E. rewrite rev_app_distr in E.
    unfold supported in Hin. simpl in Hin.
    destruct Hin as [<-|[<-|[<-|[<-|[<-|[]]]]]]; cbn in E; discriminate E. }
  split; [exact H|].
  exact (extract_rejects_other_files _ _ _ (py "docs/notes.TXT") (py "utf-8") H).
Defined.

Lemma rfind_None (c : ascii) (s : text) :
  Forall (fun x => Ascii.eqb x c = false) s -> rfind c s = None.
Proof. induction 1 as [|x s Hx Hs IH]; [reflexivity|]. simpl. now rewrite IH, Hx. Qed.

Lemma suffix_empty (p : text) :
  Forall (fun c => Ascii.eqb c "." = false) (path_name p) \/
  (exists x, path_name p = "."%char :: x /\ Forall (fun c => Ascii.eqb c "." = false) x) \/
  (exists x, path_name p = x ++ ["."%char]) ->
  suffix p = [].
Proof.
  unfold suffix. intros [H|[[x [E H]]|[x E]]].
  - now rewrite rfind_None.
  - rewrite E. change ("."%char :: x) with ([] ++ "."%char :: x).
    rewrite (rfind_app "." [] x H). reflexivity.
  - rewrite E. rewrite (rfind_app "." x []) by constructor.
    rewrite length_app. cbn [length].
    replace (length x + 1 - 1) with (length x) by lia.
    now rewrite Nat.ltb_irrefl, andb_false_r.
Qed.

(** X18.  A file without extension is refused, and so is a hidden file whose
    name is a dot and an extension, such as [.txt], and a name that ends with a
    dot: [extract] raises [ValueError] with the empty suffix and reads
    nothing. *)
Theorem extract_refuses_names_without_suffix :
  forall (read_text : text -> text -> option text) (pdf_text : text -> option text)
         (html_text : text -> text -> option text) (p enc : text),
    Forall (fun c => Ascii.eqb c "." = false) (path_name p) \/
    (exists x, path_name p = "."%char :: x /\ Forall (fun c => Ascii.eqb c "." = false) x) \/
    (exists x, path_name p = x ++ ["."%char]) ->
    extract read_text pdf_text html_text p enc = Raise (ValueError []).
Proof.
  intros read_text pdf_text html_text p enc H.
  unfold extract. now rewrite (suffix_empty p H).
Qed.

Lemma extract_refuses_names_without_suffix_witness :
  (Forall (fun c => Ascii.eqb c "." = false) (path_name (py "/home/bob/.txt")) \/
   (exists x, path_name (py "/home/bob/.txt") = "."%char :: x /\
              Forall (fun c => Ascii.eqb c "." = false) x) \/
   (exists x, path_name (py "/home/bob/.txt") = x ++ ["."%char])) /\
  extract (fun _ _ => Some (py "hello")) (fun _ => None) (fun _ _ => None)
    (py "/home/bob/.txt") (py "utf-8") = Raise (ValueError []).
Proof.
  assert (H : Forall (fun c => Ascii.eqb c "." = false) (path_name (py "/home/bob/.txt")) \/
              (exists x, path_name (py "/home/bob/.txt") = "."%char :: x /\
                         Forall (fun c => Ascii.eqb c "." = false) x) \/
              (exists x, path_name (py "/home/bob/.txt") = x ++ ["."%char])).
  { right. left. exists (py "txt"). split; [reflexivity | repeat constructor]. }
  split; [exact H|].
  exact (extract_refuses_names_without_suffix _ _ _ (py "/home/bob/.txt") (py "utf-8") H).
Defined.

(** X19.  [cleanFile] opens the output file last, after [extract] and
    [cleanString] have returned.  When it returns, the output file was opened
    and the result of [cleanString] on the extracted text written to it; when
    the write or the closing of the file raises, the file has been opened,
    hence created or emptied, and the result is not in it; with any other
    exception the output file was never opened, and the one call that may
    have changed a file is [ensure_nltk_data()]. *)
Theorem cleanFile_opens_output_last :
  forall (classify : text -> result Tree) (exclusions_file : option (list text))
         (iter_order : list text -> list text)
         (read_text : text -> text -> option text) (pdf_text : text -> option text)
         (html_text : text -> text -> option text)
         (stdout_takes : list text -> text -> bool)
         (can_open : text -> bool) (can_write : text -> text -> bool)
         (w : world) (filePath outputPath : text) (verbose : bool)
         (piiNE piiNums : option (list string)),
    let r := cleanFile classify exclusions_file iter_order read_text pdf_text html_text
               stdout_takes can_open can_write filePath outputPath verbose
               piiNE piiNums w in
    match snd r with
    | Done _ =>
        exists t cleaned,
          extract read_text pdf_text html_text filePath (py "utf-8") = Done t /\
          cleanString classify exclusions_file iter_order t verbose piiNE piiNums =
            Ok cleaned /\
          file_ops (fst r) =
            file_ops w ++ [Download; Opened outputPath; Wrote outputPath cleaned]
    | Raise WriteError =>
        exists t cleaned,
          extract read_text pdf_text html_text filePath (py "utf-8") = Done t /\
          cleanString classify exclusions_file iter_order t verbose piiNE piiNums =
            Ok cleaned /\
          file_ops (fst r) = file_ops w ++ [Download; Opened outputPath]
    | Raise _ =>
        file_ops (fst r) = file_ops w \/ file_ops (fst r) = file_ops w ++ [Download]
    end.
Proof.
  intros. subst r.
  destruct (cleanFile classify exclusions_file iter_order read_text pdf_text html_text
              stdout_takes can_open can_write filePath outputPath verbose
              piiNE piiNums w) as [w' o] eqn:E.
  apply cleanFile_inv in E as [[Ho Hf]|[_ [-> [Hf|[_ Hf]]]]]; cbn [fst snd];
    [|now left|now right].
  rewrite cleanFile_quiet in Ho, Hf.
  destruct (extract read_text pdf_text html_text filePath (py "utf-8")) as [t|e] eqn:Ex.
  - change (cleanString classify exclusions_file iter_order t false piiNE piiNums)
      with (cleanString classify exclusions_file iter_order t verbose piiNE piiNums)
      in Ho, Hf.
    destruct (cleanString classify exclusions_file iter_order t verbose piiNE piiNums)
      as [cleaned|e] eqn:Ec; cbv zeta in Ho, Hf.
    + destruct (writeFile can_open can_write cleaned outputPath
                  (World (stdout w) (file_ops w ++ [Download]))) as [w1 o1] eqn:Ew.
      apply writeFile_inv in Ew as [_ [[-> F]|[[-> F]|[-> F]]]];
        cbn [fst snd file_ops] in Ho, Hf, F; subst o; rewrite Hf, F.
      * exists t, cleaned. rewrite <- app_assoc. auto.
      * exists t, cleaned. rewrite <- app_assoc. auto.
      * now right.
    + cbn [fst snd file_ops] in Ho, Hf. subst o. now right.
  - cbn [fst snd] in Ho, Hf. subst o.
    apply extract_raises in Ex as [-> | ->]; now left.
Qed.

(** X20.  What [verbose] changes in [cleanFile]: without it no [print] of the
    code runs; with it the outcome and the calls that change files are those
    of the quiet call, unless a [print] raises, and then the calls made are
    the first of those the quiet call makes.  So the flag is cosmetic as long
    as the standard output takes every line. *)
Theorem cleanFile_verbose_only_prints :
  forall (classify : text -> result Tree) (exclusions_file : option (list text))
         (iter_order : list text -> list text)
         (read_text : text -> text -> option text) (pdf_text : text -> option text)
         (html_text : text -> text -> option text)
         (stdout_takes : list text -> text -> bool)
         (can_open : text -> bool) (can_write : text -> text -> bool)
         (w : world) (filePath outputPath : text)
         (piiNE piiNums : option (list string)),
    let run verbose :=
      cleanFile classify exclusions_file iter_order read_text pdf_text html_text
        stdout_takes can_open can_write filePath outputPath verbose piiNE piiNums w in
    stdout (fst (run false)) = stdout w /\
    (snd (run true) = snd (run false) /\
     file_ops (fst (run true)) = file_ops (fst (run false)) \/
     snd (run true) = Raise PrintError /\
     exists rest, file_ops (fst (run false)) = file_ops (fst (run true)) ++ rest) /\
    ((forall printed line, stdout_takes printed line = true) ->
     snd (run true) = snd (run false) /\
     file_ops (fst (run true)) = file_ops (fst (run false))).
Proof.
  intros. subst run. cbv beta.
  assert (Hq : forall t,
             extract read_text pdf_text html_text filePath (py "utf-8") = Done t ->
             exists rest,
               file_ops (fst (cleanFile classify exclusions_file iter_order read_text
                                pdf_text html_text stdout_takes can_open can_write
                                filePath outputPath false piiNE piiNums w)) =
               (file_ops w ++ [Download]) ++ rest).
  { intros t Ex. rewrite cleanFile_quiet, Ex. cbv zeta.
    destruct (cleanString classify exclusions_file iter_order t false piiNE piiNums)
      as [cleaned|e].
    - destruct (writeFile can_open can_write cleaned outputPath
                  (World (stdout w) (file_ops w ++ [Download]))) as [w1 o1] eqn:Ew.
      apply writeFile_inv in Ew as [_ [[_ F]|[[_ F]|[_ F]]]]; cbn [fst file_ops] in *;
        rewrite F; eexists; try reflexivity.
      symmetry. apply app_nil_r.
    - exists []. cbn [fst file_ops]. now rewrite app_nil_r. }
  split; [|split].
  - rewrite cleanFile_quiet.
    destruct (extract read_text pdf_text html_text filePath (py "utf-8")) as [t|e];
      [|reflexivity].
    cbv zeta.
    destruct (cleanString classify exclusions_file iter_order t false piiNE piiNums)
      as [cleaned|e]; [|reflexivity].
    destruct (writeFile can_open can_write cleaned outputPath
                (World (stdout w) (file_ops w ++ [Download]))) as [w1 o1] eqn:Ew.
    now apply writeFile_inv in Ew as [Hs _].
  - destruct (cleanFile classify exclusions_file iter_order read_text pdf_text html_text
                stdout_takes can_open can_write filePath outputPath true
                piiNE piiNums w) as [w' o] eqn:E.
    apply cleanFile_inv in E as [[Ho Hf]|[_ [-> [Hf|[[t Ex] Hf]]]]]; cbn [fst snd].
    + left. auto.
    + right. split; [reflexivity|]. rewrite Hf. rewrite cleanFile_quiet.
      destruct (extract read_text pdf_text html_text filePath (py "utf-8")) as [t|e];
        [|exists []; cbn [fst]; now rewrite app_nil_r].
      cbv zeta.
      destruct (cleanString classify exclusions_file iter_order t false piiNE piiNums)
        as [cleaned|e]; [|cbn [fst file_ops]; now eexists].
      destruct (writeFile can_open can_write cleaned outputPath
                  (World (stdout w) (file_ops w ++ [Download]))) as [w1 o1] eqn:Ew.
      apply writeFile_inv in Ew as [_ [[_ F]|[[_ F]|[_ F]]]]; cbn [fst file_ops] in *;
        rewrite F, <- ?app_assoc; now eexists.
    + right. split; [reflexivity|]. rewrite Hf. now apply (Hq t).
  - intros Hall.
    destruct (cleanFile classify exclusions_file iter_order read_text pdf_text html_text
                stdout_takes can_open can_write filePath outputPath true
                piiNE piiNums w) as [w' o] eqn:E.
    now apply cleanFile_taken in E.
Qed.

(** X22.  An e-mail address is reported when it is delimited: the text before
    it has no [@] and does not end in a character of the local-part class,
    and the text after it is empty or starts with a character outside the
    domain class. *)
Theorem delimited_email_reported (pre l d tld post : text) (types : list string) :
  In "EMAIL"%string types ->
  ~ In "@"%char pre ->
  (forall pre' z, pre = pre' ++ [z] -> is_email_local z = false) ->
  l <> [] -> Forall (fun c => is_email_local c = true) l ->
  d <> [] -> Forall (fun c => is_email_domain c = true) d ->
  Forall (fun c => is_letter c = true) tld -> 2 <= length tld <= 4 ->
  (post = [] \/ exists c post', post = c :: post' /\ is_email_domain c = false) ->
  In (l ++ "@"%char :: d ++ "."%char :: tld)
     (getIDInfo (pre ++ (l ++ "@"%char :: d ++ "."%char :: tld) ++ post) types).
Proof.
  intros Hk Hat Hlast Hl Hlc Hd Hdc Htc Hlen Hpost.
  apply getIDInfo_email; [assumption|].
  rewrite email_findall by assumption. now left.
Qed.

Lemma delimited_email_reported_witness :
  In (py "jane.doe@example.com")
     (getIDInfo (py "Contact: jane.doe@example.com for details") ["EMAIL"%string]).
Proof.
  refine (delimited_email_reported (py "Contact: ") (py "jane.doe") (py "example")
            (py "com") (py " for details") ["EMAIL"%string] _ _ _ _ _ _ _ _ _ _).
  - now left.
  - intros H. cbn [py list_ascii_of_string In] in H.
    repeat (destruct H as [H|H]; [discriminate H|]). exact H.
  - intros pre' z E.
    assert (L : length (py "Contact: ") = length (pre' ++ [z])) by now rewrite E.
    rewrite length_app in L. cbn in L.
    do 9 (destruct pre' as [|? pre']; [try discriminate E|]); try (cbn in L; lia).
    injection E; intros; subst; reflexivity.
  - discriminate.
  - repeat constructor.
  - discriminate.
  - repeat constructor.
  - repeat constructor.
  - vm_compute. lia.
  - right. exists " "%char, (py "for details"). split; reflexivity.
Defined.

(** X23.  Whatever the text, every string the PHONE matcher reports holds
    three digits, a separator (white space, a hyphen or a dot) and four
    digits, after at most six characters of area code and separator. *)
Theorem phone_reports_shape :
  forall t : text,
    Forall (fun m =>
              exists pre a b c s d e f g ext,
                m = pre ++ [a; b; c; s; d; e; f; g] ++ ext /\
                forallb is_digit [a; b; c; d; e; f; g] = true /\
                (is_space s || is_char "-" s || is_char "." s) = true /\
                length pre <= 6)
           (getIDInfo t ["PHONE"%string]).
Proof.
  intros t. apply Forall_forall. intros m Hm.
  change (getIDInfo t ["PHONE"%string])
    with (set_update [] (findall phone_pattern t)) in Hm.
  apply set_update_In in Hm as [[]|Hm].
  apply findall_found in Hm as [pre [post [_ [_ [Hm _]]]]].
  now apply phone_match_shape in Hm.
Qed.
